(** * pstokenizer: a shallow embedding of [token.go]

    The PS/PDF tokenizer of [benoitkugler/pstokenizer] (package
    [tokenizer], file [token.go]) embedded in Rocq, and the properties of
    its specification stated and settled against that embedding.

    Scope of the model.
    - The tokenizer works on a byte slice ([NewTokenizer], [Reset]): the
      field [src] is [nil], so every guard [pr.src != nil] is false and
      [grow] is never called.  The reader mode is not modelled.
    - Go's [int] is the 64-bit signed integer.  Positions are [Z]; the
      wrap-around is written out ([wrap64]) where an addition takes an
      operand that the input controls ([readCharString], [SkipBytes]).
    - A Go run-time panic (index or slice bounds out of range) is the
      outcome [Panic].
    - [numberSb] is a scratch buffer: [readNumber] truncates it on entry
      and copies it on exit, so it carries nothing between calls and is a
      local value of [readNumber] here.
    - A [nil] byte slice and an empty one are both the empty list.
    - [Token.Float] and [Token.Int] are modelled on the decimal integer
      literals, the values of the Integer tokens the scanner builds; on
      other strings the model reports a syntax error where Go may parse
      a number. *)

From Stdlib Require Import ZArith List Bool Lia Strings.Byte Strings.String
  Numbers.DecimalString.
Import ListNotations.
Local Open Scope Z_scope.

(** ** Bytes *)

Definition bytes (s : string) : list byte := String.list_byte_of_string s.

(** The numeric value of a byte, as Go compares bytes. *)
Definition code (b : byte) : Z := Z.of_N (Byte.to_N b).

(** Conversion to [uint8]: arithmetic on bytes wraps modulo 256. *)
Definition uint8 (z : Z) : byte :=
  match Byte.of_N (Z.to_N (z mod 256)) with
  | Some b => b
  | None => x00
  end.

Definition beq (a b : byte) : bool := Byte.eqb a b.
Infix "==" := beq (at level 70, no associativity).

Definition CR : byte := x0d.
Definition LF : byte := x0a.

(** ** Classifier *)

Definition isEOL (ch : byte) : bool := (ch == LF) || (ch == CR).

Definition IsAsciiWhitespace (ch : byte) : bool :=
  match code ch with
  | 0 | 9 | 10 | 12 | 13 | 32 => true
  | _ => false
  end.

Definition isDelimiter (ch : byte) : bool :=
  match code ch with
  | 40 | 41 | 60 | 62 | 91 | 93 | 123 | 125 | 47 | 37 => true
  | _ => IsAsciiWhitespace ch
  end.

Definition isDigit (ch : byte) : bool :=
  (code "0" <=? code ch) && (code ch <=? code "9").

(** [IsHexChar] converts a hex character into its value and a success
    flag; on failure the byte itself is returned. *)
Definition IsHexChar (c : byte) : byte * bool :=
  if (code "0" <=? code c) && (code c <=? code "9") then
    (uint8 (code c - code "0"), true)
  else if (code "a" <=? code c) && (code c <=? code "f") then
    (uint8 (code c - code "a" + 10), true)
  else if (code "A" <=? code c) && (code c <=? code "F") then
    (uint8 (code c - code "A" + 10), true)
  else (c, false).

(** ** Tokens *)

(** [Kind] is a [uint8]; the constant block skips the value 0
    ([_ Kind = iota]), so the zero value of the type is none of the named
    kinds.  [KindZero] is that value. *)
Inductive Kind : Set :=
| KindZero
| EOF
| Float
| Integer
| String
| StringHex
| Name
| StartArray
| EndArray
| StartDic
| EndDic
| Other
| StartProc
| EndProc
| CharString.

Definition Kind_value (k : Kind) : Z :=
  match k with
  | KindZero => 0 | EOF => 1 | Float => 2 | Integer => 3 | String => 4
  | StringHex => 5 | Name => 6 | StartArray => 7 | EndArray => 8
  | StartDic => 9 | EndDic => 10 | Other => 11 | StartProc => 12
  | EndProc => 13 | CharString => 14
  end.

Definition Kind_eqb (a b : Kind) : bool := Kind_value a =? Kind_value b.

Record Token : Set := mkToken { Value : list byte; Kind_ : Kind }.

(** [Token{}], the zero value of the struct. *)
Definition zeroToken : Token := mkToken [] KindZero.

(** [Token{Kind: k}]. *)
Definition kindToken (k : Kind) : Token := mkToken [] k.

Fixpoint bytes_eqb (a b : list byte) : bool :=
  match a, b with
  | [], [] => true
  | x :: a', y :: b' => (x == y) && bytes_eqb a' b'
  | _, _ => false
  end.

(** [string(t.Value) == s]. *)
Definition valueIs (t : Token) (s : string) : bool :=
  bytes_eqb (Value t) (bytes s).

Definition IsNumber (t : Token) : bool :=
  Kind_eqb (Kind_ t) Integer || Kind_eqb (Kind_ t) Float.

(** [startsBinary]: true for binary stream or inline data. *)
Definition startsBinary (t : Token) : bool :=
  Kind_eqb (Kind_ t) Other && (valueIs t "stream" || valueIs t "ID").

Definition IsOther (t : Token) (value : string) : bool :=
  Kind_eqb (Kind_ t) Other && valueIs t value.

(** ** The [strconv] functions the tokenizer calls

    [strconv] belongs to Go's standard library, not to this repository.
    The definitions below follow its documented behaviour on the strings
    the tokenizer passes: an optional sign followed by ASCII digits and
    letters.  The underscore, which Go accepts as a digit separator in
    base 0 only, is treated as a syntax error; [readNumber] stores decimal
    digits only. *)
Module strconv.

Inductive NumError : Set := ErrSyntax | ErrRange.

Definition maxUint64 : Z := 2 ^ 64 - 1.
Definition maxInt64 : Z := 2 ^ 63 - 1.
Definition minInt64 : Z := - 2 ^ 63.

Definition lower (c : byte) : byte := uint8 (Z.lor (code c) 32).

(** The value of a digit or letter, for any base up to 36. *)
Definition digitVal (c : byte) : option Z :=
  if (code "0" <=? code c) && (code c <=? code "9") then
    Some (code c - code "0")
  else if (code "a" <=? code (lower c)) && (code (lower c) <=? code "z") then
    Some (code (lower c) - code "a" + 10)
  else None.

(** The digit loop of [ParseUint] at 64 bits. *)
Fixpoint parseUintLoop (base : Z) (n : Z) (s : list byte)
  : Z * option NumError :=
  match s with
  | [] => (n, None)
  | c :: s' =>
      match digitVal c with
      | None => (0, Some ErrSyntax)
      | Some d =>
          if base <=? d then (0, Some ErrSyntax)
          else if maxUint64 / base + 1 <=? n then (maxUint64, Some ErrRange)
          else
            let n1 := n * base + d in
            if maxUint64 <? n1 then (maxUint64, Some ErrRange)
            else parseUintLoop base n1 s'
      end
  end.

Definition ParseUint (s : list byte) (base : Z) : Z * option NumError :=
  match s with
  | [] => (0, Some ErrSyntax)
  | c0 :: s1 =>
      if (2 <=? base) && (base <=? 36) then parseUintLoop base 0 s
      else if base =? 0 then
        if c0 == "0" then
          match s1 with
          | c1 :: (_ :: _) as s2 =>
              if lower c1 == "b" then parseUintLoop 2 0 s2
              else if lower c1 == "o" then parseUintLoop 8 0 s2
              else if lower c1 == "x" then parseUintLoop 16 0 s2
              else parseUintLoop 8 0 s1
          | _ => parseUintLoop 8 0 s1
          end
        else parseUintLoop 10 0 s
      else (0, Some ErrSyntax)
  end.

(** [ParseInt(s, base, 0)]: the result is clamped on a range error and
    0 on a syntax or base error. *)
Definition ParseInt (s : list byte) (base : Z) : Z * option NumError :=
  match s with
  | [] => (0, Some ErrSyntax)
  | c0 :: s1 =>
      let neg := c0 == "-" in
      let s' := if (c0 == "+") || (c0 == "-") then s1 else s in
      match ParseUint s' base with
      | (_, Some ErrSyntax) => (0, Some ErrSyntax)
      | (un, _) =>
          if negb neg && (2 ^ 63 <=? un) then (maxInt64, Some ErrRange)
          else if neg && (2 ^ 63 <? un) then (minInt64, Some ErrRange)
          else (if neg then - un else un, None)
      end
  end.

(** [Atoi(s)] is [ParseInt(s, 10, 0)] converted to [int]. *)
Definition Atoi (s : list byte) : Z * option NumError := ParseInt s 10.

(** [Itoa]: the decimal representation, with a leading [-] when
    negative. *)
Definition Itoa (i : Z) : list byte :=
  bytes (NilZero.string_of_int (Z.to_int i)).

(** Rounding of a non-negative integer to the nearest [float64], ties to
    even: 53 bits of mantissa are kept. *)
Definition roundFloat64 (n : Z) : Z :=
  if n <? 2 ^ 53 then n
  else
    let sh := Z.log2 n - 52 in
    let q := Z.shiftr n sh in
    let r := n - Z.shiftl q sh in
    let half := Z.shiftl 1 (sh - 1) in
    let q' := if (half <? r) || ((r =? half) && Z.odd q) then q + 1 else q in
    Z.shiftl q' sh.

Fixpoint allDigits (s : list byte) : bool :=
  match s with
  | [] => true
  | c :: s' => isDigit c && allDigits s'
  end.

Fixpoint decimalValue (acc : Z) (s : list byte) : Z :=
  match s with
  | [] => acc
  | c :: s' => decimalValue (acc * 10 + (code c - code "0")) s'
  end.

(** [ParseFloat(s, 64)] on a decimal integer literal (optional sign,
    then one digit or more), the only strings the tokenizer stores in an
    [Integer] token.  The result is the value of the float, which is an
    integer here.  Any other string is reported as a syntax error: this
    is not what Go does on a fraction, an exponent, a hexadecimal float,
    an infinity or a NaN, which it parses, so the definition says nothing
    of [Float] and [Int] on the tokens of other kinds.  [nextToken] calls
    [Int] on Integer tokens only. *)
Definition ParseFloat (s : list byte) : Z * option NumError :=
  let neg := match s with c0 :: _ => c0 == "-" | [] => false end in
  let ds := match s with
            | c0 :: s1 => if (c0 == "+") || (c0 == "-") then s1 else s
            | [] => []
            end in
  match ds with
  | [] => (0, Some ErrSyntax)
  | _ :: _ =>
      if allDigits ds then
        let f := roundFloat64 (decimalValue 0 ds) in
        if 2 ^ 1024 <=? f then (if neg then - f else f, Some ErrRange)
        else (if neg then - f else f, None)
      else (0, Some ErrSyntax)
  end.

(** The conversion [int(f)] truncates toward zero.  When the value does
    not fit, Go leaves the result to the implementation; this is the
    result on amd64. *)
Definition intOfFloat (f : Z) : Z :=
  if (minInt64 <=? f) && (f <=? maxInt64) then f else minInt64.

End strconv.

(** [Token.Float]: the float value of the token. *)
Definition Token_Float (t : Token) : Z * option strconv.NumError :=
  strconv.ParseFloat (Value t).

(** [Token.Int]: the integer value of the token, floats being rounded. *)
Definition Token_Int (t : Token) : Z * option strconv.NumError :=
  let (f, err) := Token_Float t in (strconv.intOfFloat f, err).

(** ** Errors

    The error values the tokenizer builds, one constructor per message. *)
Inductive error : Set :=
| ErrCorruptedName                         (* "corrupted name object" *)
| ErrGtNotExpected                         (* "'>' not expected" *)
| ErrInvalidHexChar1 (v : byte)            (* "invalid hex char %d (%s)" *)
| ErrInvalidHexChar2 (v : byte)            (* "invalid hex char %d" *)
| ErrStringEOF                             (* "error reading string: unexpected EOF" *)
| ErrCharStringLength (e : strconv.NumError) (* "invalid charstring length: %s" *)
| ErrExpectedInteger.                      (* "expected INTEGER before -| or RD" *)

(** ** Outcomes and the scanning monad *)

(** What a call does: it returns, it panics, or (in the model only) the
    iteration budget of a loop ran out. *)
Inductive outcome (A : Type) : Type :=
| Done (a : A)
| Panic
| OutOfFuel.
Arguments Done {A} a.
Arguments Panic {A}.
Arguments OutOfFuel {A}.

(** A scanner reads [pr.data] and mutates [pr.pos]. *)
Definition Scan (A : Type) : Type := Z -> outcome (A * Z).

Definition ret {A : Type} (a : A) : Scan A := fun pos => Done (a, pos).

Definition bind {A B : Type} (m : Scan A) (k : A -> Scan B) : Scan B :=
  fun pos =>
    match m pos with
    | Done (a, pos') => k a pos'
    | Panic => Panic
    | OutOfFuel => OutOfFuel
    end.

Definition starved {A : Type} : Scan A := fun _ => OutOfFuel.

Declare Scope scan_scope.
Delimit Scope scan_scope with scan.
Notation "x <- m ;; k" := (bind m (fun x => k))
  (at level 100, m at next level, right associativity) : scan_scope.
Notation "' pat <- m ;; k" := (bind m (fun x => match x with pat => k end))
  (at level 100, pat pattern, m at next level, right associativity) : scan_scope.
Notation "m ;; k" := (bind m (fun _ => k))
  (at level 100, right associativity) : scan_scope.
Local Open Scope scan_scope.

(** The result of [nextToken]: the Go pair [(Token, error)]. *)
Definition result : Set := Token * option error.

(** Go's [int] arithmetic wraps around at 64 bits. *)
Definition wrap64 (z : Z) : Z := (z + 2 ^ 63) mod 2 ^ 64 - 2 ^ 63.

Section Scanner.

Variable data : list byte.

Definition len : Z := Z.of_nat (List.length data).

(** Every loop of the scanner reads a byte per turn, so no loop takes
    more turns than this. *)
Definition budget : nat := S (List.length data).

(** [read]: false at the end of the data, true if it moved forward.
    Indexing with a negative position panics. *)
Definition read : Scan (byte * bool) := fun pos =>
  if len <=? pos then Done ((x00, false), pos)
  else if pos <? 0 then Panic
  else Done ((nth (Z.to_nat pos) data x00, true), pos + 1).

(** [pr.pos--] *)
Definition unread : Scan unit := fun pos => Done (tt, pos - 1).

(** [pr.pos = markedPos] *)
Definition setPos (p : Z) : Scan unit := fun _ => Done (tt, p).

Definition getPos : Scan Z := fun pos => Done (pos, pos).

Definition when (b : bool) (m : Scan unit) : Scan unit :=
  if b then m else ret tt.

(** [copyBytes(pr.data[lo:hi])] for bounds already checked. *)
Definition slice (lo hi : Z) : list byte :=
  firstn (Z.to_nat (hi - lo)) (skipn (Z.to_nat lo) data).

(** [readCharString] reads a binary CharString. *)
Definition readCharString (length : Z) : Scan Token := fun pos =>
  let pos := wrap64 (pos + 1) in                          (* space *)
  let maxL := wrap64 (pos + length) in
  let maxL := if len <=? maxL then len else maxL in
  if (0 <=? pos) && (pos <=? maxL) then
    Done (mkToken (slice pos maxL) CharString, wrap64 (pos + length))
  else Panic.                        (* slice bounds out of range *)

(** [for isDigit(c) { numberSb = append(numberSb, c); c, ok = pr.read();
    hasDigit = true }] *)
Fixpoint readDigits (fuel : nat) (numberSb : list byte) (c : byte)
  (ok hasDigit : bool) : Scan (list byte * byte * bool * bool) :=
  if isDigit c then
    match fuel with
    | O => starved
    | S fuel' =>
        '(c', ok') <- read ;;
        readDigits fuel' (numberSb ++ [c]) c' ok' true
    end
  else ret (numberSb, c, ok, hasDigit).

(** The end of [readNumber], from "check required digit" on. *)
Definition readNumberTail (markedPos : Z) (radix numberSb : list byte)
  (c : byte) (ok numberRequired : bool) : Scan (Token * bool) :=
  if numberRequired && negb (isDigit c) then
    setPos markedPos ;; ret (zeroToken, false)
  else
    '(numberSb, c, ok, _) <- readDigits budget numberSb c ok false ;;
    when ok unread ;;
    match radix with
    | _ :: _ =>
        let intRadix := fst (strconv.Atoi radix) in
        let valInt := fst (strconv.ParseInt numberSb intRadix) in
        ret (mkToken (strconv.Itoa valInt) Integer, true)
    | [] => ret (mkToken numberSb Float, true)
    end.

(** [readNumber] accepts PS syntax (radix and exponents); it returns
    false if it is not a number. *)
Definition readNumber : Scan (Token * bool) :=
  markedPos <- getPos ;;
  let numberSb : list byte := [] in
  '(c, ok) <- read ;;
  (* optional + or - *)
  '(numberSb, c) <-
    (if (c == "+") || (c == "-") then
       '(c', _) <- read ;; ret (numberSb ++ [c], c')
     else ret (numberSb, c)) ;;
  (* optional digits *)
  '(numberSb, c, ok, hasDigit) <- readDigits budget numberSb c ok false ;;
  if c == "." then
    '(c', ok') <- read ;;
    readNumberTail markedPos [] (numberSb ++ [c]) c' ok' false
  else if c == "#" then
    '(c', ok') <- read ;;
    readNumberTail markedPos numberSb [] c' ok' true
  else if (Nat.eqb (List.length numberSb) 0) || negb hasDigit then
    setPos markedPos ;; ret (zeroToken, false)
  else if (c == "E") || (c == "e") then
    let numberSb := numberSb ++ [c] in
    '(c, ok) <- read ;;
    if c == "-" then
      '(c', ok') <- read ;;
      readNumberTail markedPos [] (numberSb ++ [c]) c' ok' true
    else readNumberTail markedPos [] numberSb c ok true
  else
    when ok unread ;;
    ret (mkToken numberSb Integer, true).

(** [for ok && IsAsciiWhitespace(ch) { ch, ok = pr.read() }] *)
Fixpoint skipWhitespace (fuel : nat) (ch : byte) (ok : bool)
  : Scan (byte * bool) :=
  if ok && IsAsciiWhitespace ch then
    match fuel with
    | O => starved
    | S fuel' => '(ch', ok') <- read ;; skipWhitespace fuel' ch' ok'
    end
  else ret (ch, ok).

(** [hex.Decode([]byte{0}, []byte{h1, h2})] fails unless both bytes are
    hexadecimal digits ([encoding/hex], Go's standard library). *)
Definition hexDecodeFails (h1 h2 : byte) : bool :=
  negb (snd (IsHexChar h1) && snd (IsHexChar h2)).

(** The loop of the ['/'] branch and the return that follows it. *)
Fixpoint nameLoop (fuel : nat) (outBuf : list byte) : Scan result :=
  match fuel with
  | O => starved
  | S fuel' =>
      '(ch, ok) <- read ;;
      if negb ok || isDelimiter ch then
        (* the delimiter may be important, dont skip it *)
        when ok unread ;;
        ret (mkToken outBuf Name, None)
      else
        let outBuf := outBuf ++ [ch] in
        if ch == "#" then
          '(h1, _) <- read ;;
          '(h2, _) <- read ;;
          if hexDecodeFails h1 h2 then ret (zeroToken, Some ErrCorruptedName)
          else nameLoop fuel' (outBuf ++ [h1; h2])
        else nameLoop fuel' outBuf
  end.

(** The loop of the ['<'] branch (a hexadecimal string) and the return
    that follows it. *)
Fixpoint hexLoop (fuel : nat) (v1 : byte) (ok1 : bool) (outBuf : list byte)
  : Scan result :=
  match fuel with
  | O => starved
  | S fuel' =>
      '(v1, ok1) <- skipWhitespace budget v1 ok1 ;;
      if v1 == ">" then ret (mkToken outBuf StringHex, None)
      else
        let (v1, ok1) := IsHexChar v1 in
        if negb ok1 then ret (zeroToken, Some (ErrInvalidHexChar1 v1))
        else
          '(v2, ok2) <- read ;;
          '(v2, ok2) <- skipWhitespace budget v2 ok2 ;;
          if v2 == ">" then
            let ch := uint8 (Z.shiftl (code v1) 4) in
            ret (mkToken (outBuf ++ [ch]) StringHex, None)
          else
            let (v2, ok2) := IsHexChar v2 in
            if negb ok2 then ret (zeroToken, Some (ErrInvalidHexChar2 v2))
            else
              let ch := uint8 (code (uint8 (Z.shiftl (code v1) 4)) + code v2) in
              '(v1', ok1') <- read ;;
              hexLoop fuel' v1' ok1' (outBuf ++ [ch])
  end.

(** [for ok && ch != '\r' && ch != '\n' { ch, ok = pr.read() }] *)
Fixpoint skipComment (fuel : nat) (ch : byte) (ok : bool)
  : Scan (byte * bool) :=
  if ok && negb (ch == CR) && negb (ch == LF) then
    match fuel with
    | O => starved
    | S fuel' => '(ch', ok') <- read ;; skipComment fuel' ch' ok'
    end
  else ret (ch, ok).

(** [!(ch < '0' || ch > '7')] *)
Definition isOctal (ch : byte) : bool :=
  (code "0" <=? code ch) && (code ch <=? code "7").

(** The escape sequence after a backslash in a literal string: the byte
    read and the [switch] on it.  Returns [(ch, ok, lineBreak)]. *)
Definition readEscape : Scan (byte * bool * bool) :=
  '(ch, ok) <- read ;;
  if ch == "n" then ret (LF, ok, false)
  else if ch == "r" then ret (CR, ok, false)
  else if ch == "t" then ret (x09, ok, false)
  else if ch == "b" then ret (x08, ok, false)
  else if ch == "f" then ret (x0c, ok, false)
  else if (ch == "(") || (ch == ")") || (ch == "\") then ret (ch, ok, false)
  else if ch == CR then
    '(ch, ok) <- read ;;
    when (negb (ch == LF)) unread ;;
    ret (ch, ok, true)
  else if ch == LF then ret (ch, ok, true)
  else if negb (isOctal ch) then ret (ch, ok, false)
  else
    let octal := uint8 (code ch - code "0") in
    '(ch, ok) <- read ;;
    if negb (isOctal ch) then unread ;; ret (octal, ok, false)
    else
      let octal := uint8 (Z.shiftl (code octal) 3 + code ch - code "0") in
      '(ch, ok) <- read ;;
      if negb (isOctal ch) then unread ;; ret (octal, ok, false)
      else
        let octal := uint8 (Z.shiftl (code octal) 3 + code ch - code "0") in
        ret (uint8 (Z.land (code octal) 255), ok, false).

(** What follows the loop of the ['('] branch. *)
Definition stringEnd (ok : bool) (outBuf : list byte) : Scan result :=
  if negb ok then ret (zeroToken, Some ErrStringEOF)
  else ret (mkToken outBuf String, None).

(** The loop of the ['('] branch (a literal string).  [next] is the end
    of the loop body: the test of the nesting and the append. *)
Fixpoint stringLoop (fuel : nat) (nesting : Z) (outBuf : list byte)
  : Scan result :=
  match fuel with
  | O => starved
  | S fuel' =>
      let next (nesting : Z) (ch : byte) (ok : bool) : Scan result :=
        if nesting =? -1 then stringEnd ok outBuf
        else stringLoop fuel' nesting (outBuf ++ [ch]) in
      '(ch, ok) <- read ;;
      if negb ok then stringEnd ok outBuf
      else if ch == "(" then next (nesting + 1) ch ok
      else if ch == ")" then next (nesting - 1) ch ok
      else if ch == "\" then
        '(ch, ok, lineBreak) <- readEscape ;;
        if lineBreak then stringLoop fuel' nesting outBuf
        else if negb ok then stringEnd ok outBuf
        else next nesting ch ok
      else if ch == CR then
        '(ch, ok) <- read ;;
        if negb ok then stringEnd ok outBuf
        else if negb (ch == LF) then unread ;; next nesting LF ok
        else next nesting ch ok
      else next nesting ch ok
  end.

(** [for !isDelimiter(ch) { outBuf = append(outBuf, ch); ch, ok = pr.read() }] *)
Fixpoint wordLoop (fuel : nat) (outBuf : list byte) (ch : byte) (ok : bool)
  : Scan (list byte * byte * bool) :=
  if negb (isDelimiter ch) then
    match fuel with
    | O => starved
    | S fuel' => '(ch', ok') <- read ;; wordLoop fuel' (outBuf ++ [ch]) ch' ok'
    end
  else ret (outBuf, ch, ok).

(** [cmd == "RD" || cmd == "-|"] *)
Definition isCharStringCmd (outBuf : list byte) : bool :=
  bytes_eqb outBuf (bytes "RD") || bytes_eqb outBuf (bytes "-|").

(** The end of the default branch: the operator word is known. *)
Definition wordToken (previous : Token) (outBuf : list byte) : Scan result :=
  if isCharStringCmd outBuf then
    (* return the next CharString instead *)
    if Kind_eqb (Kind_ previous) Integer then
      match Token_Int previous with
      | (_, Some err) => ret (zeroToken, Some (ErrCharStringLength err))
      | (f, None) => t <- readCharString f ;; ret (t, None)
      end
    else ret (zeroToken, Some ErrExpectedInteger)
  else ret (mkToken outBuf Other, None).

(** The default branch: a number or an operator word. *)
Definition wordBranch (previous : Token) : Scan result :=
  unread ;;                              (* we need the test char *)
  '(token, ok) <- readNumber ;;
  if ok then ret (token, None)
  else
    '(ch, ok) <- read ;;          (* we went back before parsing a number *)
    let outBuf := [ch] in
    '(ch, ok) <- read ;;
    '(outBuf, ch, ok) <- wordLoop budget outBuf ch ok ;;
    when ok unread ;;
    wordToken previous outBuf.

(** [nextToken] reads and advances, mutating [pos].  The recursion is
    the one of the comment branch. *)
Fixpoint nextTokenRec (fuel : nat) (previous : Token) : Scan result :=
  match fuel with
  | O => starved
  | S fuel' =>
      '(ch, ok) <- read ;;
      '(ch, ok) <- skipWhitespace budget ch ok ;;
      if negb ok then ret (kindToken EOF, None)
      else if ch == "[" then ret (kindToken StartArray, None)
      else if ch == "]" then ret (kindToken EndArray, None)
      else if ch == "{" then ret (kindToken StartProc, None)
      else if ch == "}" then ret (kindToken EndProc, None)
      else if ch == "/" then nameLoop budget []
      else if ch == ">" then
        '(ch, ok) <- read ;;
        if negb (ch == ">") then ret (zeroToken, Some ErrGtNotExpected)
        else ret (kindToken EndDic, None)
      else if ch == "<" then
        '(v1, ok1) <- read ;;
        if v1 == "<" then ret (kindToken StartDic, None)
        else hexLoop budget v1 ok1 []
      else if ch == "%" then
        '(ch, ok) <- read ;;
        skipComment budget ch ok ;;
        (* ignore comments: go to next token *)
        nextTokenRec fuel' previous
      else if ch == "(" then stringLoop budget 0 []
      else wordBranch previous
  end.

Definition nextToken (previous : Token) : Scan result :=
  nextTokenRec budget previous.

End Scanner.

(** ** The tokenizer *)

Record Tokenizer : Set := mkTokenizer {
  data : list byte;
  aError : option error;   (* +1 *)
  aToken : Token;          (* +1 *)
  aaError : option error;  (* +2 *)
  aaToken : Token;         (* +2 *)
  pos : Z;                 (* main position (end of the aaToken) *)
  currentPos : Z;          (* end of the current token *)
  nextPos : Z              (* end of the +1 token *)
}.

(** [SetPosition] forces the two next tokenizations. *)
Definition SetPosition (p : Z) (tk : Tokenizer) : outcome Tokenizer :=
  match nextToken (data tk) zeroToken p with
  | Done ((a, aErr), p1) =>
      match nextToken (data tk) a p1 with
      | Done ((aa, aaErr), p2) =>
          Done (mkTokenizer (data tk) aErr a aaErr aa p2 p p1)
      | Panic => Panic
      | OutOfFuel => OutOfFuel
      end
  | Panic => Panic
  | OutOfFuel => OutOfFuel
  end.

(** [Tokenizer{data: data}], before [SetPosition(0)]. *)
Definition emptyTokenizer (d : list byte) : Tokenizer :=
  mkTokenizer d None zeroToken None zeroToken 0 0 0.

Definition NewTokenizer (d : list byte) : outcome Tokenizer :=
  SetPosition 0 (emptyTokenizer d).

Definition Reset (d : list byte) (tk : Tokenizer) : outcome Tokenizer :=
  SetPosition 0
    (mkTokenizer d (aError tk) (aToken tk) (aaError tk) (aaToken tk)
       (pos tk) (currentPos tk) (nextPos tk)).

Definition PeekToken (pr : Tokenizer) : result := (aToken pr, aError pr).

Definition PeekPeekToken (pr : Tokenizer) : result := (aaToken pr, aaError pr).

Definition IsEOF (pr : Tokenizer) : bool :=
  let (tk, _) := PeekToken pr in Kind_eqb (Kind_ tk) EOF.

Definition CurrentPosition (pr : Tokenizer) : Z := currentPos pr.

(** [NextToken] reads a token and advances.  The +2 slot becomes the +1
    slot; the new +2 slot is scanned, unless the token now in the +1 slot
    starts binary data. *)
Definition NextToken (pr : Tokenizer) : outcome (result * Tokenizer) :=
  let r := PeekToken pr in
  if startsBinary (aaToken pr) then
    Done (r, mkTokenizer (data pr) (aaError pr) (aaToken pr) None (kindToken EOF)
               (pos pr) (nextPos pr) (pos pr))
  else
    match nextToken (data pr) (aaToken pr) (pos pr) with
    | Done ((t, e), p) =>
        Done (r, mkTokenizer (data pr) (aaError pr) (aaToken pr) e t
                   p (nextPos pr) (pos pr))
    | Panic => Panic
    | OutOfFuel => OutOfFuel
    end.

(** [StreamPosition] returns the position of the beginning of a stream. *)
Definition StreamPosition (pr : Tokenizer) : outcome Z :=
  let p := currentPos pr in
  let n := len (data pr) in
  if (p <? 0) then Panic            (* pr.data[pos] with a negative index *)
  else
    let p := if (p <? n) && (nth (Z.to_nat p) (data pr) x00 == CR)
             then p + 1 else p in
    if (p <? n) && (nth (Z.to_nat p) (data pr) x00 == LF) then Done (p + 1)
    else Done p.

(** [SkipBytes] skips the next [n] bytes and returns them. *)
Definition SkipBytes (n : Z) (pr : Tokenizer)
  : outcome (list byte * Tokenizer) :=
  let target := wrap64 (currentPos pr + n) in
  let target := if len (data pr) <? target then len (data pr) else target in
  if (0 <=? currentPos pr) && (currentPos pr <=? target) then
    let out := slice (data pr) (currentPos pr) target in
    match SetPosition target pr with
    | Done pr' => Done (out, pr')
    | Panic => Panic
    | OutOfFuel => OutOfFuel
    end
  else Panic.                          (* slice bounds out of range *)

(** [Bytes] returns the bytes from the current position on. *)
Definition Bytes (pr : Tokenizer) : outcome (list byte) :=
  if len (data pr) <=? currentPos pr then Done []
  else if currentPos pr <? 0 then Panic
  else Done (skipn (Z.to_nat (currentPos pr)) (data pr)).

(** [err == nil] *)
Definition isNil (err : option error) : bool :=
  match err with
  | None => true
  | Some _ => false
  end.

(** The loop of [readAll]:
    [for ; t.Kind != EOF && err == nil; t, err = tk.NextToken()
       { out = append(out, t) }]. *)
Fixpoint readAllLoop (fuel : nat) (tk : Tokenizer) (t : Token)
  (err : option error) (out : list Token)
  : outcome (list Token * option error) :=
  if negb (Kind_eqb (Kind_ t) EOF) && isNil err then
    match fuel with
    | O => OutOfFuel
    | S fuel' =>
        match NextToken tk with
        | Done ((t', err'), tk') => readAllLoop fuel' tk' t' err' (out ++ [t])
        | Panic => Panic
        | OutOfFuel => OutOfFuel
        end
    end
  else Done (out, err).

(** [readAll]: a token is returned for every byte at most, so the loop
    takes no more turns than the budget. *)
Definition readAll (tk : Tokenizer) : outcome (list Token * option error) :=
  match NextToken tk with
  | Done ((t, err), tk') => readAllLoop (budget (data tk)) tk' t err []
  | Panic => Panic
  | OutOfFuel => OutOfFuel
  end.

(** [Tokenize] consumes all the input, splitting it into tokens. *)
Definition Tokenize (d : list byte) : outcome (list Token * option error) :=
  match NewTokenizer d with
  | Done tk => readAll tk
  | Panic => Panic
  | OutOfFuel => OutOfFuel
  end.

(** The loop of [HasEOLBeforeToken], from the index [i] on. *)
Fixpoint eolLoop (fuel : nat) (d : list byte) (i : Z) : outcome bool :=
  if i <? len d then
    match fuel with
    | O => OutOfFuel
    | S fuel' =>
        if i <? 0 then Panic             (* pr.data[i] with a negative index *)
        else
          let c := nth (Z.to_nat i) d x00 in
          if negb (IsAsciiWhitespace c) then Done false
          else if isEOL c then Done true
          else eolLoop fuel' d (i + 1)
    end
  else Done false.

(** [HasEOLBeforeToken] checks if EOL happens before the next token. *)
Definition HasEOLBeforeToken (pr : Tokenizer) : outcome bool :=
  eolLoop (budget (data pr)) (data pr) (currentPos pr).

(** The states a client can reach through the public operations. *)
Inductive reachable : Tokenizer -> Prop :=
| reach_new d tk :
    NewTokenizer d = Done tk -> reachable tk
| reach_reset d tk tk' :
    reachable tk -> Reset d tk = Done tk' -> reachable tk'
| reach_set p tk tk' :
    reachable tk -> SetPosition p tk = Done tk' -> reachable tk'
| reach_next tk r tk' :
    reachable tk -> NextToken tk = Done (r, tk') -> reachable tk'
| reach_skip n tk out tk' :
    reachable tk -> SkipBytes n tk = Done (out, tk') -> reachable tk'.

(** * The vocabulary of the properties *)

(** ** Runs of the tokenizer *)

(** The forward scan: [NewTokenizer] and then [k] calls of [NextToken].
    It returns the tokenizer and the token the last call returned
    ([Token{}] before the first call). *)
Fixpoint forward (k : nat) (d : list byte) : outcome (Tokenizer * Token) :=
  match k with
  | O =>
      match NewTokenizer d with
      | Done tk => Done (tk, zeroToken)
      | Panic => Panic
      | OutOfFuel => OutOfFuel
      end
  | S k' =>
      match forward k' d with
      | Done (tk, _) =>
          match NextToken tk with
          | Done ((t, _), tk') => Done (tk', t)
          | Panic => Panic
          | OutOfFuel => OutOfFuel
          end
      | Panic => Panic
      | OutOfFuel => OutOfFuel
      end
  end.

(** [SetPosition(p)] and then [NextToken]. *)
Definition SetPositionNextToken (p : Z) (tk : Tokenizer)
  : outcome (result * Tokenizer) :=
  match SetPosition p tk with
  | Done tk' => NextToken tk'
  | Panic => Panic
  | OutOfFuel => OutOfFuel
  end.

(** The tokenizer built on the single byte [>]: its +1 slot holds the
    error "'>' not expected". *)
Definition tkLoneGt : Tokenizer :=
  mkTokenizer (bytes ">") (Some ErrGtNotExpected) zeroToken
    None (kindToken EOF) 1 0 1.

(** The forward scan of [12 /Name \[] after one call of [NextToken]: the
    current position is 2 and the next token is the name. *)
Definition tkAfter12 : Tokenizer :=
  mkTokenizer (bytes "12 /Name [")
    None (mkToken (bytes "Name") Name) None (kindToken StartArray) 10 2 8.

(** ** Conditions on scanners and states *)

(** A scanner that pairs every error with [Token{}]. *)
Definition errZero (m : Scan result) : Prop :=
  forall p t e p', m p = Done ((t, Some e), p') -> t = zeroToken.

(** Both lookahead slots pair an error with [Token{}]. *)
Definition slotsZero (tk : Tokenizer) : Prop :=
  (forall e, aError tk = Some e -> aToken tk = zeroToken) /\
  (forall e, aaError tk = Some e -> aaToken tk = zeroToken).

(** A result in which the previous token played no part: not a
    CharString and not an invalid CharString length. *)
Definition plain (r : result) : Prop :=
  Kind_ (fst r) <> CharString /\
  (forall ne, snd r <> Some (ErrCharStringLength ne)).

(** Every plain result of [m] is also the result of [m0]. *)
Definition agree (m m0 : Scan result) : Prop :=
  forall p r p', m p = Done (r, p') -> plain r -> m0 p = Done (r, p').

(** How a lookahead slot was filled: by a scan from the end of the token
    before it, or by the short cut of [NextToken] after a token that
    starts binary data. *)
Definition filled (d : list byte) (previous : Token) (from : Z)
  (t : Token) (e : option error) (to : Z) : Prop :=
  nextToken d previous from = Done ((t, e), to) \/
  (startsBinary previous = true /\ t = kindToken EOF /\ e = None /\ to = from).

(** Only a previous Integer lets [nextToken] reach [readCharString]. *)
Definition isInteger (t : Token) : bool := Kind_eqb (Kind_ t) Integer.

(** The invariant on the positions. *)
Definition ordered (tk : Tokenizer) : Prop :=
  0 <= currentPos tk /\ currentPos tk <= nextPos tk /\
  nextPos tk <= pos tk /\ pos tk <= len (data tk).

(** ** Conditions on the input *)

(** The offset of the byte that follows the prefix [l]. *)
Definition offs (l : list byte) : Z := Z.of_nat (List.length l).

(** [tail] is what remains of [d] from position [p] on. *)
Definition suffixAt (d : list byte) (p : Z) (tail : list byte) : Prop :=
  exists pre, d = pre ++ tail /\ p = offs pre.

(** The byte that ends a run of digits: none, or one that is no digit. *)
Definition stops (rest : list byte) : Prop :=
  match rest with
  | [] => True
  | c :: _ => isDigit c = false
  end.

(** What [read] returns at the head of [rest], and how far it moves. *)
Definition peekByte (rest : list byte) : byte := hd x00 rest.
Definition peekOk (rest : list byte) : bool :=
  match rest with [] => false | _ :: _ => true end.
Definition peekStep (rest : list byte) : Z :=
  match rest with [] => 0 | _ :: _ => 1 end.

(** After the optional [sign], [rest] opens no number: its first byte, if
    any, is no digit, no dot and no [#] (and no sign, when there was
    none). *)
Definition opensNoNumber (sign rest : list byte) : Prop :=
  isDigit (peekByte rest) = false /\
  peekByte rest <> "."%byte /\ peekByte rest <> "#"%byte /\
  (sign = [] -> peekByte rest <> "+"%byte /\ peekByte rest <> "-"%byte).

(** ** Triples *)

(** A Hoare triple on scanners: from position [p], [m] does not run out
    of budget, panics only if [mayPanic] allows it, and returns a value
    and a position that satisfy [Q]. *)
Definition triple (mayPanic : bool) {A : Type} (p : Z) (m : Scan A)
  (Q : A -> Z -> Prop) : Prop :=
  match m p with
  | Done (a, q) => Q a q
  | Panic => mayPanic = true
  | OutOfFuel => False
  end.

Section Conditions.

Variable d : list byte.

(** What [read] does at [p]. *)
Definition readPost (p : Z) (x : byte * bool) (q : Z) : Prop :=
  if snd x then q = p + 1 /\ p < len d
  else q = p /\ fst x = x00 /\ len d <= p.

(** The state of a scan after its last [read]: the position [q] is past
    the base [b] and within the data, and a failed read left the zero
    byte. *)
Definition after (b : Z) (c : byte) (ok : bool) (q : Z) : Prop :=
  0 <= b /\ b < q /\ q <= len d /\ (ok = false -> c = x00).

Definition afterP (b : Z) (x : byte * bool) (q : Z) : Prop :=
  after b (fst x) (snd x) q.

(** A position past the base and within the data. *)
Definition inside (b q : Z) : Prop := 0 <= b /\ b < q /\ q <= len d.

(** A result at a position past the base and within the data, which is
    not a CharString. *)
Definition okResult (b : Z) (r : result) (q : Z) : Prop :=
  inside b q /\ Kind_ (fst r) <> CharString.

(** The state after a [read] that followed an earlier one: a byte that
    was read is the second past the base at least. *)
Definition fresh (b : Z) (c : byte) (ok : bool) (q : Z) : Prop :=
  after b c ok q /\ (ok = true -> b + 1 < q).

(** The outcome of [readNumber] from [p]: a number that ends past [p],
    or a refusal that leaves the position at [p]. *)
Definition numberPost (p : Z) (x : Token * bool) (q : Z) : Prop :=
  if snd x then inside p q /\ Kind_ (fst x) <> CharString else q = p.

(** The outcome of [nextToken] from [p]: unless the token is a
    CharString, the position has not moved back and is within the data
    (or still at [p], when [p] is past the data). *)
Definition nextPost (p : Z) (r : result) (q : Z) : Prop :=
  Kind_ (fst r) <> CharString -> p <= q <= Z.max p (len d).

End Conditions.

(** ** More runs and conditions *)

(** [k] calls of [NextToken], with what they returned. *)
Fixpoint NextTokens (k : nat) (tk : Tokenizer)
  : outcome (list result * Tokenizer) :=
  match k with
  | O => Done ([], tk)
  | S k' =>
      match NextToken tk with
      | Done (r, tk') =>
          match NextTokens k' tk' with
          | Done (rs, tk'') => Done (r :: rs, tk'')
          | Panic => Panic
          | OutOfFuel => OutOfFuel
          end
      | Panic => Panic
      | OutOfFuel => OutOfFuel
      end
  end.

(** Both lookahead slots hold [(EOF, nil)] and the position is at the end
    of the data or past it. *)
Definition exhausted (tk : Tokenizer) : Prop :=
  PeekToken tk = (kindToken EOF, None) /\
  PeekPeekToken tk = (kindToken EOF, None) /\
  len (data tk) <= pos tk.

(** The byte at the index [i], as [pr.data[i]] within the bounds. *)
Definition byteAt (d : list byte) (i : Z) : byte := nth (Z.to_nat i) d x00.

(** The hexadecimal digit of the value [v], in upper or lower case. *)
Definition hexDigit (upper : bool) (v : Z) : byte :=
  if v <? 10 then uint8 (code "0" + v)
  else uint8 (code (if upper then "A"%byte else "a"%byte) + (v - 10)).

(** A whitespace that ends no line. *)
Definition isBlank (c : byte) : bool :=
  IsAsciiWhitespace c && negb (isEOL c).

(** The first byte of [rest], if there is one, satisfies [f]. *)
Definition headIs (f : byte -> bool) (rest : list byte) : Prop :=
  match rest with
  | [] => True
  | c :: _ => f c = true
  end.

(** The body of a name: bytes that are no delimiter, where every [#] is
    followed by two hexadecimal digits. *)
Inductive nameBody : list byte -> Prop :=
| nameBody_end : nameBody []
| nameBody_byte c l :
    isDelimiter c = false -> c <> "#"%byte -> nameBody l -> nameBody (c :: l)
| nameBody_escape h1 h2 l :
    snd (IsHexChar h1) = true -> snd (IsHexChar h2) = true -> nameBody l ->
    nameBody ("#"%byte :: h1 :: h2 :: l).

(** The nesting of the parentheses after [body], from the nesting [n]:
    [None] when a byte of [body] is a backslash or a CR, or is the
    parenthesis that closes the string. *)
Fixpoint nestingAfter (n : Z) (body : list byte) : option Z :=
  match body with
  | [] => Some n
  | c :: l =>
      if c == "(" then nestingAfter (n + 1) l
      else if c == ")" then
        if 0 <? n then nestingAfter (n - 1) l else None
      else if (c == "\") || (c == CR) then None
      else nestingAfter n l
  end.

(** The bytes of [l] written as hexadecimal digits, two for each byte. *)
Definition hexEncode (upper : bool) (l : list byte) : list byte :=
  flat_map (fun b => [hexDigit upper (code b / 16);
                      hexDigit upper (code b mod 16)]) l.

(** A byte that opens none of the delimited tokens: it sends [nextToken]
    to its default branch, the numbers and the operator words. *)
Definition opensWord (c : byte) : bool :=
  negb (IsAsciiWhitespace c) && negb (existsb (beq c) (bytes "[]{}/><%(")).

(** A byte that carries on a number after its first digits. *)
Definition continuesNumber (c : byte) : bool :=
  isDigit c || (c == ".") || (c == "#") || (c == "E") || (c == "e").

(** A byte at which [readNumber] goes on: a sign, a digit, [.] or [#]. *)
Definition opensNumber (c : byte) : bool :=
  isDigit c || (c == ".") || (c == "#") || (c == "+") || (c == "-").

(** The outcome of a scan from [s] that advances: at the end of the data
    it returns [(EOF, nil)] and stays; before the end it moves forward. *)
Definition advancePost (d : list byte) (s : Z) (r : result) (q : Z) : Prop :=
  (len d <= s /\ q = s /\ r = (kindToken EOF, None)) \/
  (s < len d /\ s < q).

(** A token that is EOF, or was scanned from a position [s] of the data
    to a position [q] after it. *)
Definition slotAdv (d : list byte) (s : Z) (t : Token) (q : Z) : Prop :=
  Kind_ t = EOF \/ (0 <= s < len d /\ s < q).

(** A tokenizer over [d] whose two lookahead slots hold tokens that are
    EOF or were scanned forward, one after the other. *)
Definition primed (d : list byte) (tk : Tokenizer) : Prop :=
  data tk = d /\
  slotAdv d (currentPos tk) (aToken tk) (nextPos tk) /\
  slotAdv d (nextPos tk) (aaToken tk) (pos tk).

(** ** The shape of a literal string *)

(** The three line ends. *)
Inductive lineEnd : Set := EndCR | EndCRLF | EndLF.

Definition endBytes (e : lineEnd) : list byte :=
  match e with
  | EndCR => [CR]
  | EndCRLF => [CR; LF]
  | EndLF => [LF]
  end.

(** What stands between the parentheses of a literal string. *)
Inductive item : Set :=
| Plain (c : byte)         (* a byte that is no backslash and no CR *)
| LineEnd (e : lineEnd)    (* a line end that no backslash precedes *)
| Escaped (c : byte)       (* a backslash and a byte that is no CR, no LF
                              and no octal digit *)
| Continued (e : lineEnd)  (* a backslash and a line end *)
| Octal (ds : list byte).  (* a backslash and one to three octal digits *)

(** The bytes of an item in the data. *)
Definition encodeItem (it : item) : list byte :=
  match it with
  | Plain c => [c]
  | LineEnd e => endBytes e
  | Escaped c => ["\"%byte; c]
  | Continued e => "\"%byte :: endBytes e
  | Octal ds => "\"%byte :: ds
  end.

Definition encodeItems (its : list item) : list byte :=
  flat_map encodeItem its.

(** The byte that [\c] stands for. *)
Definition unescape (c : byte) : byte :=
  if c == "n" then LF
  else if c == "r" then CR
  else if c == "t" then x09
  else if c == "b" then x08
  else if c == "f" then x0c
  else c.

(** The byte of an octal escape: the number its digits write, modulo
    256. *)
Definition octalByte (ds : list byte) : byte :=
  uint8 (fold_left (fun acc o => 8 * acc + (code o - code "0")) ds 0).

(** What an item gives to the value of the string: a line end gives one
    LF, a line end after a backslash gives nothing. *)
Definition valueItem (it : item) : list byte :=
  match it with
  | Plain c => [c]
  | LineEnd _ => [LF]
  | Escaped c => [unescape c]
  | Continued _ => []
  | Octal ds => [octalByte ds]
  end.

Definition valueOf (its : list item) : list byte := flat_map valueItem its.

(** A byte follows, and it is no octal digit. *)
Definition endsOctal (after : list byte) : bool :=
  peekOk after && negb (isOctal (peekByte after)).

(** One to three octal digits; fewer than three only before a byte that
    is no octal digit. *)
Definition octalOk (ds after : list byte) : bool :=
  match ds with
  | [o1] => isOctal o1 && endsOctal after
  | [o1; o2] => isOctal o1 && isOctal o2 && endsOctal after
  | [o1; o2; o3] => isOctal o1 && isOctal o2 && isOctal o3
  | _ => false
  end.

(** The nesting of the parentheses after the item [it], read at the
    nesting [n] before the bytes [after]; [None] when the bytes of [it]
    are not read as [it]: a parenthesis that closes the string, a CR
    before LF that is not CR LF, an escape that goes on into [after]. *)
Definition stepItem (n : Z) (it : item) (after : list byte) : option Z :=
  match it with
  | Plain c =>
      if c == "(" then Some (n + 1)
      else if c == ")" then (if 0 <? n then Some (n - 1) else None)
      else if (c == "\") || (c == CR) then None
      else Some n
  | LineEnd e =>
      match e with
      | EndCR => if peekByte after == LF then None else Some n
      | _ => Some n
      end
  | Escaped c =>
      if (c == CR) || (c == LF) || isOctal c then None else Some n
  | Continued e =>
      match e with
      | EndCR =>
          if peekOk after && negb (peekByte after == LF) then Some n else None
      | _ => Some n
      end
  | Octal ds => if octalOk ds after then Some n else None
  end.

(** The nesting after the items [its], read at the nesting [n] before
    the bytes [follow]. *)
Fixpoint scanItems (n : Z) (its : list item) (follow : list byte)
  : option Z :=
  match its with
  | [] => Some n
  | it :: its' =>
      match stepItem n it (encodeItems its' ++ follow) with
      | Some n' => scanItems n' its' follow
      | None => None
      end
  end.

(** The ways the data can end inside a literal string, after whole
    items: at once, after a backslash, after a backslash and CR, or
    inside an octal escape.  The number is how far before the end of the
    data the scan stops. *)
Definition unclosedEnd (frag : list byte) : option Z :=
  match frag with
  | [] => Some 0
  | [b] => if b == "\" then Some 0 else None
  | [b; c] =>
      if b == "\" then
        if c == CR then Some 0 else if isOctal c then Some 1 else None
      else None
  | [b; c1; c2] =>
      if (b == "\") && isOctal c1 && isOctal c2 then Some 1 else None
  | _ => None
  end.

(** How the bytes after the items of a literal string end it: the
    parenthesis that closes it, or the end of the data. *)
Definition stringEnds (tl : list byte) (m : Z) : Prop :=
  (m = 0 /\ exists rest, tl = ")"%byte :: rest) \/
  (exists back, unclosedEnd tl = Some back).

(** The bytes [body], read at the nesting [n], are items and an end. *)
Definition shaped (n : Z) (body : list byte) : Prop :=
  exists its tl m,
    body = encodeItems its ++ tl /\ scanItems n its tl = Some m /\
    stringEnds tl m.

(** * Properties *)

(** ** Basic facts *)

Lemma beq_true (a b : byte) : (a == b) = true -> a = b.
Proof. apply Byte.byte_dec_bl. Qed.

Lemma beq_refl (a : byte) : (a == a) = true.
Proof. apply Byte.byte_dec_lb. reflexivity. Qed.

Lemma beq_neq (a b : byte) : a <> b -> (a == b) = false.
Proof.
  intros H. destruct (a == b) eqn:E; [|reflexivity].
  apply beq_true in E. contradiction.
Qed.

Lemma Kind_eqb_eq (a b : Kind) : Kind_eqb a b = true <-> a = b.
Proof.
  unfold Kind_eqb. split.
  - destruct a, b; simpl; intros H; try reflexivity; discriminate H.
  - intros ->. apply Z.eqb_refl.
Qed.

Lemma bytes_eqb_eq (a b : list byte) : bytes_eqb a b = true <-> a = b.
Proof.
  revert b. induction a as [|x a IH]; intros [|y b]; simpl; split;
    try reflexivity; try discriminate.
  - intros H. apply andb_true_iff in H as [H1 H2].
    apply beq_true in H1. apply IH in H2. congruence.
  - intros H. injection H as -> ->. rewrite beq_refl. simpl.
    apply IH. reflexivity.
Qed.

Lemma bind_Done {A B : Type} (m : Scan A) (k : A -> Scan B)
  (p q : Z) (a : A) :
  m p = Done (a, q) -> bind m k p = k a q.
Proof. intros H. unfold bind. rewrite H. reflexivity. Qed.

Lemma Done_eq {A : Type} (a b : A) (q q' : Z) :
  a = b -> q = q' -> Done (a, q) = Done (b, q').
Proof. intros -> ->. reflexivity. Qed.

Lemma readCharString_kind (d : list byte) (f p p' : Z) (t : Token) :
  readCharString d f p = Done (t, p') -> Kind_ t = CharString.
Proof.
  unfold readCharString. intros H.
  match type of H with
  | (if ?b then _ else _) = _ => destruct b; [|discriminate H]
  end.
  injection H as <- _. reflexivity.
Qed.

(** Runs the model on a concrete input: the tokenizers are found by
    evaluating the first equation, the other facts are then checked. *)
Ltac run_concrete :=
  repeat eexists;
  repeat (split; [vm_compute; reflexivity|]);
  first [vm_compute; reflexivity | vm_compute; discriminate].

(** ** Termination, panics and positions *)

Lemma triple_ret (b : bool) {A : Type} (p : Z) (a : A) (Q : A -> Z -> Prop) :
  Q a p -> triple b p (ret a) Q.
Proof. intros H. exact H. Qed.

Lemma triple_bind (b : bool) {A B : Type} (p : Z) (m : Scan A)
  (k : A -> Scan B) (Q : A -> Z -> Prop) (R : B -> Z -> Prop) :
  triple b p m Q ->
  (forall a q, Q a q -> triple b q (k a) R) ->
  triple b p (bind m k) R.
Proof.
  unfold triple, bind. intros Hm Hk.
  destruct (m p) as [[a q]| |]; [exact (Hk a q Hm) | exact Hm | exact Hm].
Qed.

Lemma triple_weaken (b : bool) {A : Type} (p : Z) (m : Scan A)
  (Q Q' : A -> Z -> Prop) :
  triple b p m Q -> (forall a q, Q a q -> Q' a q) -> triple b p m Q'.
Proof.
  unfold triple. intros Hm HQ.
  destruct (m p) as [[a q]| |]; [exact (HQ a q Hm) | exact Hm | exact Hm].
Qed.

Lemma triple_mayPanic (b : bool) {A : Type} (p : Z) (m : Scan A)
  (Q : A -> Z -> Prop) :
  triple false p m Q -> triple b p m Q.
Proof.
  unfold triple. destruct (m p) as [[a q]| |]; intros H;
    [exact H | discriminate H | exact H].
Qed.

Section Safety.

Variable d : list byte.

Lemma read_triple (p : Z) :
  0 <= p -> triple false p (read d) (readPost d p).
Proof.
  intros H. unfold triple, read, readPost.
  destruct (Z.leb_spec (len d) p) as [H1|H1]; simpl;
    [split; [reflexivity | split; [reflexivity | exact H1]]|].
  destruct (Z.ltb_spec p 0) as [?|_]; [lia|]. simpl. lia.
Qed.

Lemma read_negative (p : Z) : p < 0 -> read d p = Panic.
Proof.
  intros H. unfold read, len.
  destruct (Z.leb_spec (Z.of_nat (List.length d)) p) as [?|_]; [lia|].
  destruct (Z.ltb_spec p 0) as [_|?]; [reflexivity | lia].
Qed.

Lemma unread_triple (p : Z) :
  triple false p unread (fun _ q => q = p - 1).
Proof. reflexivity. Qed.

Lemma after_inside (b : Z) (c : byte) (ok : bool) (q : Z) :
  after d b c ok q -> inside d b q.
Proof. unfold after, inside. tauto. Qed.

(** Reading on from a position inside the data. *)
Lemma read_inside_triple (b q : Z) :
  inside d b q ->
  triple false q (read d) (fun x q' => afterP d b x q' /\ readPost d q x q').
Proof.
  intros (H0 & H1 & H2).
  apply (triple_weaken _ _ _ _ _ (read_triple q ltac:(lia))).
  intros [c ok] q' H. split; [|exact H].
  unfold readPost in H. unfold afterP, after. simpl in *.
  destruct ok; [lia|]. destruct H as (-> & -> & _). repeat split; lia.
Qed.

(** The first [read] of a scan, at the base itself. *)
Lemma read_first_triple (p : Z) :
  0 <= p ->
  triple false p (read d)
    (fun x q => if snd x then after d p (fst x) true q /\ q = p + 1
                else q = p /\ len d <= p).
Proof.
  intros H0. apply (triple_weaken _ _ _ _ _ (read_triple p H0)).
  intros [c ok] q H. unfold readPost in H. unfold after. simpl in *.
  destruct ok; [|tauto]. destruct H as [-> H].
  repeat split; try lia; discriminate.
Qed.

Lemma skipWhitespace_triple (b : Z) (fuel : nat) :
  forall c ok q,
    after d b c ok q -> (ok = true -> len d - q < Z.of_nat fuel) ->
    triple false q (skipWhitespace d fuel c ok) (afterP d b).
Proof.
  induction fuel as [|fuel IH]; intros c ok q Ha Hf; simpl.
  - destruct ok; simpl; [|exact Ha].
    destruct Ha as (_ & _ & ? & _). specialize (Hf eq_refl). lia.
  - destruct (ok && IsAsciiWhitespace c) eqn:E; [|exact Ha].
    apply andb_true_iff in E as [-> _]. specialize (Hf eq_refl).
    eapply triple_bind; [exact (read_inside_triple b q (after_inside _ _ _ _ Ha))|].
    intros [c' ok'] q' [Ha' Hr]. apply IH; [exact Ha'|].
    intros ->. unfold readPost in Hr. simpl in Hr. lia.
Qed.

Lemma skipComment_triple (b : Z) (fuel : nat) :
  forall c ok q,
    after d b c ok q -> (ok = true -> len d - q < Z.of_nat fuel) ->
    triple false q (skipComment d fuel c ok) (afterP d b).
Proof.
  induction fuel as [|fuel IH]; intros c ok q Ha Hf; simpl.
  - destruct ok; simpl; [|exact Ha].
    destruct Ha as (_ & _ & ? & _). specialize (Hf eq_refl). lia.
  - destruct (ok && negb (c == CR) && negb (c == LF)) eqn:E; [|exact Ha].
    apply andb_true_iff in E as [E _]. apply andb_true_iff in E as [-> _].
    specialize (Hf eq_refl).
    eapply triple_bind; [exact (read_inside_triple b q (after_inside _ _ _ _ Ha))|].
    intros [c' ok'] q' [Ha' Hr]. apply IH; [exact Ha'|].
    intros ->. unfold readPost in Hr. simpl in Hr. lia.
Qed.

Lemma after_ok (b : Z) (c : byte) (ok : bool) (q : Z) :
  after d b c ok q -> c <> x00 -> ok = true.
Proof.
  intros (_ & _ & _ & H) Hc. destruct ok; [reflexivity|].
  elim Hc. apply H. reflexivity.
Qed.

Lemma wordLoop_triple (b : Z) (fuel : nat) :
  forall outBuf c ok q,
    after d b c ok q -> (ok = true -> len d - q < Z.of_nat fuel) ->
    triple false q (wordLoop d fuel outBuf c ok)
      (fun x q' => after d b (snd (fst x)) (snd x) q').
Proof.
  induction fuel as [|fuel IH]; intros outBuf c ok q Ha Hf; simpl;
    (destruct (isDelimiter c) eqn:E; simpl; [exact Ha|]);
    assert (Hok : ok = true)
      by (apply (after_ok _ _ _ _ Ha); intros ->; discriminate E);
    specialize (Hf Hok).
  - destruct Ha as (_ & _ & ? & _). lia.
  - eapply triple_bind; [exact (read_inside_triple b q (after_inside _ _ _ _ Ha))|].
    intros [c' ok'] q' [Ha' Hr]. apply IH; [exact Ha'|].
    intros ->. unfold readPost in Hr. simpl in Hr. lia.
Qed.

Lemma triple_and (b : bool) {A : Type} (p : Z) (m : Scan A)
  (Q Q' : A -> Z -> Prop) :
  triple b p m Q -> triple b p m Q' ->
  triple b p m (fun a q => Q a q /\ Q' a q).
Proof.
  unfold triple. destruct (m p) as [[a q]| |]; intros H H'; tauto.
Qed.

Lemma after_rebase (b : Z) (c : byte) (ok : bool) (q : Z) :
  after d b c ok q -> after d (q - 1) c ok q.
Proof. unfold after. intros (? & ? & ? & ?). repeat split; try lia. assumption. Qed.

(** The whitespace loop does not move back. *)
Lemma skipWhitespace_mono (b : Z) (c : byte) (ok : bool) (q : Z) :
  after d b c ok q ->
  triple false q (skipWhitespace d (budget d) c ok)
    (fun x q' => afterP d b x q' /\ q <= q').
Proof.
  intros Ha.
  assert (Hf : ok = true -> len d - q < Z.of_nat (budget d))
    by (intros _; destruct Ha as (? & ? & ? & _); unfold budget, len in *; lia).
  eapply triple_weaken.
  - apply triple_and.
    + exact (skipWhitespace_triple b _ c ok q Ha Hf).
    + exact (skipWhitespace_triple (q - 1) _ c ok q (after_rebase _ _ _ _ Ha) Hf).
  - intros x q' [H1 H2]. split; [exact H1|].
    destruct H2 as (_ & ? & _). lia.
Qed.

Ltac okres :=
  unfold okResult, afterP, after, inside, readPost in *;
  cbn [fst snd Kind_] in *;
  repeat match goal with
         | H : _ /\ _ |- _ => destruct H
         | H : if ?b then _ else _ |- _ => destruct b
         end;
  repeat split; intros; try lia; try discriminate; try congruence.

Lemma nameLoop_triple (b : Z) (fuel : nat) :
  forall outBuf q,
    inside d b q -> len d - q < Z.of_nat fuel ->
    triple false q (nameLoop d fuel outBuf) (okResult d b).
Proof.
  induction fuel as [|fuel IH]; intros outBuf q Hi Hf.
  - unfold inside in Hi. lia.
  - cbn [nameLoop].
    eapply triple_bind; [exact (read_inside_triple b q Hi)|].
    intros [c ok] q1 [Ha1 Hr1].
    destruct (negb ok || isDelimiter c) eqn:E.
    + destruct ok; simpl; unfold triple, bind, unread, ret; simpl; okres.
    + apply orb_false_iff in E as [E _]. apply negb_false_iff in E. subst ok.
      destruct (c == "#"%byte).
      * eapply triple_bind;
          [exact (read_inside_triple b q1 (after_inside _ _ _ _ Ha1))|].
        intros [h1 ok1] q2 [Ha2 Hr2].
        eapply triple_bind;
          [exact (read_inside_triple b q2 (after_inside _ _ _ _ Ha2))|].
        intros [h2 ok2] q3 [Ha3 Hr3].
        destruct (hexDecodeFails h1 h2).
        -- apply triple_ret. okres.
        -- apply IH; [exact (after_inside _ _ _ _ Ha3)|]. okres.
      * apply IH; [exact (after_inside _ _ _ _ Ha1)|]. okres.
Qed.

Lemma skipWhitespace_stop (fuel : nat) (c : byte) (p : Z) :
  skipWhitespace d fuel c false p = Done ((c, false), p).
Proof. destruct fuel; reflexivity. Qed.

Lemma IsHexChar_x00 : IsHexChar x00 = (x00, false).
Proof. reflexivity. Qed.

Lemma skipWhitespace_stop_triple (fuel : nat) (c : byte) (p : Z) :
  triple false p (skipWhitespace d fuel c false)
    (fun x q => x = (c, false) /\ q = p).
Proof. unfold triple. rewrite skipWhitespace_stop. split; reflexivity. Qed.

Lemma hexLoop_triple (b : Z) (fuel : nat) :
  forall v1 ok1 outBuf q,
    after d b v1 ok1 q -> len d - q < Z.of_nat fuel ->
    triple false q (hexLoop d fuel v1 ok1 outBuf) (okResult d b).
Proof.
  induction fuel as [|fuel IH]; intros v1 ok1 outBuf q Ha Hf.
  - unfold after in Ha. lia.
  - cbn [hexLoop].
    eapply triple_bind; [exact (skipWhitespace_mono b v1 ok1 q Ha)|].
    intros [v1' ok1'] q1 [Ha1 Hq1]. unfold afterP in Ha1. cbn [fst snd] in Ha1.
    destruct (v1' == ">"%byte); [apply triple_ret; okres|].
    destruct (IsHexChar v1') as [w1 [|]] eqn:E1; cbn [negb];
      [|apply triple_ret; okres].
    eapply triple_bind;
      [exact (read_inside_triple b q1 (after_inside _ _ _ _ Ha1))|].
    intros [v2 [|]] q2 [Ha2 Hr2].
    + (* a byte was read *)
      assert (Ha2' : after d q1 v2 true q2) by okres.
      eapply triple_bind; [exact (skipWhitespace_mono q1 v2 true q2 Ha2')|].
      intros [v2' ok2'] q3 [Ha3 Hq3].
      destruct (v2' == ">"%byte); [apply triple_ret; okres|].
      destruct (IsHexChar v2') as [w2 [|]] eqn:E2; cbn [negb];
        [|apply triple_ret; okres].
      assert (Hi3 : inside d b q3) by okres.
      eapply triple_bind; [exact (read_inside_triple b q3 Hi3)|].
      intros [v1'' ok1''] q4 [Ha4 Hr4].
      apply IH; [exact Ha4|]. okres.
    + (* the end of the data *)
      assert (v2 = x00 /\ q2 = q1) as [-> ->] by okres.
      eapply triple_bind; [apply skipWhitespace_stop_triple|].
      intros x q3 [-> ->].
      change (x00 == ">"%byte) with false. cbv iota.
      rewrite IsHexChar_x00. apply triple_ret. okres.
Qed.

(** [readEscape] ends at or after the position where it starts. *)
Lemma readEscape_triple (b q : Z) :
  inside d b q ->
  triple false q (readEscape d) (fun _ q' => q <= q' <= len d).
Proof.
  intros Hi. unfold readEscape.
  eapply triple_bind; [exact (read_inside_triple b q Hi)|].
  intros [c [|]] q1 [Ha1 Hr1].
  - (* a byte follows the backslash *)
    assert (Hi1 : inside d q q1) by okres.
    repeat match goal with
           | |- triple _ _ (if ?t then _ else _) _ => destruct t
           | |- triple _ _ (ret _) _ => apply triple_ret; okres
           end.
    + eapply triple_bind; [exact (read_inside_triple q q1 Hi1)|].
      intros [c2 ok2] q2 [Ha2 Hr2].
      eapply triple_bind.
      * instantiate (1 := fun _ q' => q <= q' <= len d).
        destruct (negb (c2 == LF)); unfold when, triple, unread, ret; okres.
      * intros u q3 H3. apply triple_ret. exact H3.
    + eapply triple_bind; [exact (read_inside_triple q q1 Hi1)|].
      intros [c2 ok2] q2 [Ha2 Hr2].
      destruct (negb (isOctal c2)).
      * unfold triple, bind, unread, ret. okres.
      * assert (Hi2 : inside d q q2) by okres.
        eapply triple_bind; [exact (read_inside_triple q q2 Hi2)|].
        intros [c3 ok3] q3 [Ha3 Hr3].
        destruct (negb (isOctal c3)).
        -- unfold triple, bind, unread, ret. okres.
        -- apply triple_ret. okres.
  - (* the data ends after the backslash *)
    assert (c = x00 /\ q1 = q) as [-> ->] by okres.
    cbn. okres.
Qed.

Lemma stringEnd_triple (b q : Z) (ok : bool) (outBuf : list byte) :
  inside d b q -> triple false q (stringEnd ok outBuf) (okResult d b).
Proof.
  intros Hi. unfold stringEnd. destruct ok; apply triple_ret; okres.
Qed.

Lemma stringLoop_triple (b : Z) (fuel : nat) :
  forall nesting outBuf q,
    inside d b q -> len d - q < Z.of_nat fuel ->
    triple false q (stringLoop d fuel nesting outBuf) (okResult d b).
Proof.
  induction fuel as [|fuel IH]; intros nesting outBuf q Hi Hf.
  - unfold inside in Hi. lia.
  - assert (Hnext : forall n c q' out,
               inside d b q' -> q < q' ->
               triple false q'
                 (if n =? -1 then stringEnd true out
                  else stringLoop d fuel n (out ++ [c])) (okResult d b)).
    { intros n c q' out Hi' Hq. destruct (n =? -1).
      - apply stringEnd_triple. exact Hi'.
      - apply IH; [exact Hi' | lia]. }
    cbn [stringLoop].
    eapply triple_bind; [exact (read_inside_triple b q Hi)|].
    intros [c [|]] q1 [Ha1 Hr1]; cbn [negb];
      [|apply stringEnd_triple; okres].
    assert (Hi1 : inside d b q1) by okres.
    assert (Hq1 : q < q1) by okres.
    destruct (c == "("%byte); [apply Hnext; assumption|].
    destruct (c == ")"%byte); [apply Hnext; assumption|].
    destruct (c == "\"%byte).
    + eapply triple_bind; [exact (readEscape_triple b q1 Hi1)|].
      intros [[c2 ok2] lineBreak] q2 Hq2.
      assert (Hi2 : inside d b q2) by okres.
      destruct lineBreak; [apply IH; [exact Hi2 | lia]|].
      destruct ok2; cbn [negb]; [|apply stringEnd_triple; exact Hi2].
      apply Hnext; [exact Hi2 | lia].
    + destruct (c == CR); [|apply Hnext; assumption].
      eapply triple_bind; [exact (read_inside_triple b q1 Hi1)|].
      intros [c2 [|]] q2 [Ha2 Hr2]; cbn [negb];
        [|apply stringEnd_triple; okres].
      assert (Hi2 : inside d b q2) by okres.
      destruct (c2 == LF); cbn [negb]; [apply Hnext; [exact Hi2 | okres]|].
      eapply triple_bind; [apply unread_triple|].
      intros u q3 ->. apply Hnext; okres.
Qed.

Lemma read_fresh_triple (b q : Z) :
  inside d b q ->
  triple false q (read d) (fun x q' => fresh d b (fst x) (snd x) q').
Proof.
  intros Hi. apply (triple_weaken _ _ _ _ _ (read_inside_triple b q Hi)).
  intros [c ok] q' [Ha Hr]. split; [exact Ha|]. cbn [fst snd]. intros ->. okres.
Qed.

Lemma readDigits_fresh (b : Z) (fuel : nat) :
  forall sb c ok h q,
    after d b c ok q -> (c <> x00 -> len d - q < Z.of_nat fuel) ->
    triple false q (readDigits d fuel sb c ok h)
      (fun x q' =>
         (snd x = true /\ fresh d b (snd (fst (fst x))) (snd (fst x)) q') \/
         (snd (fst (fst x)) = c /\ snd (fst x) = ok /\ snd x = h /\ q' = q)).
Proof.
  induction fuel as [|fuel IH]; intros sb c ok h q Ha Hf; simpl;
    (destruct (isDigit c) eqn:E; simpl; [|right; repeat split]);
    assert (Hc : c <> x00) by (intros ->; discriminate E);
    specialize (Hf Hc).
  - destruct Ha as (_ & _ & ? & _). lia.
  - eapply triple_bind.
    + apply triple_and;
        [exact (read_fresh_triple b q (after_inside _ _ _ _ Ha))
        |exact (read_inside_triple b q (after_inside _ _ _ _ Ha))].
    + intros [c' ok'] q' [Hfr [Ha' Hr]]. cbn [fst snd] in Hfr.
      eapply triple_weaken.
      * apply (IH (sb ++ [c]) c' ok' true q' Ha').
        intros Hc'. okres.
      * intros [[[sb' c''] ok''] h'] q'' [H | (-> & -> & -> & ->)];
          cbn [fst snd] in *; left; [exact H | split; [reflexivity | exact Hfr]].
Qed.

Lemma budget_enough (q : Z) : 0 <= q -> len d - q < Z.of_nat (budget d).
Proof. unfold budget, len. lia. Qed.

Lemma readNumberTail_triple (p : Z) (radix sb : list byte) (c : byte)
  (ok required : bool) (q : Z) :
  fresh d p c ok q ->
  triple false q (readNumberTail d p radix sb c ok required) (numberPost d p).
Proof.
  intros [Ha Hfr]. unfold readNumberTail.
  destruct (required && negb (isDigit c)).
  - unfold triple, bind, setPos, ret, numberPost. reflexivity.
  - eapply triple_bind.
    + apply (readDigits_fresh p (budget d) sb c ok false q Ha).
      intros _. apply budget_enough. okres.
    + intros [[[sb' c'] ok'] h'] q' H. cbn [fst snd] in H.
      assert (Hfr' : fresh d p c' ok' q').
      { destruct H as [[_ H] | (-> & -> & _ & ->)];
          [exact H | split; assumption]. }
      destruct Hfr' as [Ha' Hfr'].
      assert (triple false q' (when ok' unread)
                (fun _ q'' => inside d p q'')) as Hw
        by (destruct ok'; unfold when, triple, unread, ret; okres).
      eapply triple_bind; [exact Hw|].
      intros u q'' Hi. destruct radix; apply triple_ret; split;
        try exact Hi; discriminate.
Qed.

Lemma readNumber_triple (p : Z) :
  0 <= p < len d ->
  triple false p (readNumber d) (numberPost d p).
Proof.
  intros Hp. unfold readNumber.
  eapply triple_bind;
    [apply (triple_ret false p p (fun a q => a = p /\ q = p)); split; reflexivity|].
  intros markedPos q0 [-> ->].
  eapply triple_bind; [exact (read_first_triple p (proj1 Hp))|].
  intros [c [|]] q1 H1; cbn [fst snd] in H1; [|lia].
  destruct H1 as [Ha1 ->].
  assert (Hi1 : inside d p (p + 1)) by okres.
  eapply triple_bind.
  - instantiate (1 := fun x q => after d p (snd x) true q).
    destruct ((c == "+"%byte) || (c == "-"%byte)).
    + eapply triple_bind; [exact (read_inside_triple p (p + 1) Hi1)|].
      intros [c' ok'] q2 [Ha2 _]. apply triple_ret. okres.
    + apply triple_ret. exact Ha1.
  - intros [sb c1] q2 Ha2. cbn [fst snd] in Ha2.
    eapply triple_bind.
    + apply (readDigits_fresh p (budget d) sb c1 true false q2 Ha2).
      intros _. apply budget_enough. okres.
    + intros [[[sb' c2] ok2] h2] q3 H3. cbn [fst snd] in H3.
      assert (Ha3 : after d p c2 ok2 q3).
      { destruct H3 as [[_ [H _]] | (-> & -> & _ & ->)]; assumption. }
      assert (Hi3 : inside d p q3) by exact (after_inside _ _ _ _ Ha3).
      assert (Hfail : triple false q3
                        (bind (setPos p) (fun _ => ret (zeroToken, false)))
                        (numberPost d p)) by reflexivity.
      destruct (c2 == "."%byte).
      { eapply triple_bind; [exact (read_fresh_triple p q3 Hi3)|].
        intros [c3 ok3] q4 H4. apply readNumberTail_triple. exact H4. }
      destruct (c2 == "#"%byte).
      { eapply triple_bind; [exact (read_fresh_triple p q3 Hi3)|].
        intros [c3 ok3] q4 H4. apply readNumberTail_triple. exact H4. }
      destruct ((List.length sb' =? 0)%nat || negb h2) eqn:Eh; [exact Hfail|].
      apply orb_false_iff in Eh as [_ Eh]. apply negb_false_iff in Eh.
      subst h2.
      assert (Hfr3 : fresh d p c2 ok2 q3).
      { destruct H3 as [[_ H] | (_ & _ & H & _)]; [exact H | discriminate H]. }
      destruct ((c2 == "E"%byte) || (c2 == "e"%byte)).
      { eapply triple_bind; [exact (read_fresh_triple p q3 Hi3)|].
        intros [c3 ok3] q4 H4. cbn [fst snd] in H4. destruct (c3 == "-"%byte).
        - eapply triple_bind;
            [exact (read_fresh_triple p q4 (after_inside _ _ _ _ (proj1 H4)))|].
          intros [c4 ok4] q5 H5. apply readNumberTail_triple. exact H5.
        - apply readNumberTail_triple. exact H4. }
      destruct Hfr3 as [_ Hfr3].
      destruct ok2; unfold when, triple, bind, unread, ret, numberPost;
        cbn [fst snd Kind_]; okres.
Qed.

Lemma okResult_nextPost (b : Z) (r : result) (q : Z) :
  okResult d b r q -> nextPost d b r q.
Proof. unfold okResult, inside, nextPost. intros [H _] _. lia. Qed.

Lemma wordLoop_stop (fuel : nat) (outBuf : list byte) (ok : bool) (p : Z) :
  wordLoop d fuel outBuf x00 ok p = Done ((outBuf, x00, ok), p).
Proof. destruct fuel; reflexivity. Qed.

Lemma wordToken_triple (b q : Z) (previous : Token) (outBuf : list byte) :
  inside d b q ->
  triple (isInteger previous) q (wordToken d previous outBuf) (nextPost d b).
Proof.
  intros Hi. unfold wordToken, isInteger.
  assert (Hret : forall t e, Kind_ t <> CharString ->
             triple (Kind_eqb (Kind_ previous) Integer) q (ret (t, e))
               (nextPost d b)).
  { intros t e Ht. apply triple_ret. apply okResult_nextPost.
    split; assumption. }
  destruct (isCharStringCmd outBuf); [|apply Hret; discriminate].
  destruct (Kind_eqb (Kind_ previous) Integer); [|apply Hret; discriminate].
  destruct (Token_Int previous) as [f [err|]]; [apply Hret; discriminate|].
  unfold triple, bind.
  destruct (readCharString d f q) as [[t q']| |] eqn:E.
  - unfold ret, nextPost. cbn [fst]. intros Hk. elim Hk.
    exact (readCharString_kind _ _ _ _ _ E).
  - reflexivity.
  - unfold readCharString in E.
    destruct ((0 <=? wrap64 (q + 1)) && _) in E; discriminate E.
Qed.

Lemma wordBranch_triple (b q : Z) (previous : Token) :
  inside d b q ->
  triple (isInteger previous) q (wordBranch d previous) (nextPost d b).
Proof.
  intros Hi. unfold wordBranch.
  eapply triple_bind; [apply triple_mayPanic, unread_triple|].
  intros u q0 ->.
  assert (Hq : 0 <= q - 1 < len d) by okres.
  eapply triple_bind; [apply triple_mayPanic, (readNumber_triple (q - 1) Hq)|].
  intros [token [|]] q1 H1; unfold numberPost in H1; cbn [fst snd] in H1.
  - apply triple_ret. apply okResult_nextPost. okres.
  - subst q1.
    eapply triple_bind;
      [apply triple_mayPanic, (read_first_triple (q - 1) (proj1 Hq))|].
    intros [c [|]] q1 H1; cbn [fst snd] in H1; [|lia].
    destruct H1 as [Ha1 ->]. replace (q - 1 + 1) with q by lia.
    eapply triple_bind; [apply triple_mayPanic, (read_inside_triple b q Hi)|].
    intros [c2 [|]] q2 [Ha2 Hr2].
    + (* a second byte was read *)
      assert (Ha2' : after d q c2 true q2) by okres.
      eapply triple_bind.
      * apply triple_mayPanic.
        apply (wordLoop_triple q (budget d) [c] c2 true q2 Ha2').
        intros _. apply budget_enough. okres.
      * intros [[outBuf c3] ok3] q3 Ha3. cbn [fst snd] in Ha3.
        eapply triple_bind.
        -- instantiate (1 := fun _ q' => inside d b q').
           destruct ok3; unfold when, triple, unread, ret; okres.
        -- intros u' q4 Hi4. apply wordToken_triple. exact Hi4.
    + (* the data ends after the first byte *)
      assert (c2 = x00 /\ q2 = q) as [-> ->] by okres.
      unfold triple at 1. unfold bind at 1. rewrite wordLoop_stop.
      cbn [when]. unfold bind at 1, ret at 1.
      apply (wordToken_triple b q previous [c] Hi).
Qed.

Lemma nextTokenRec_triple (fuel : nat) (previous : Token) :
  forall p,
    0 <= p -> Z.max 0 (len d - p) < Z.of_nat fuel ->
    triple (isInteger previous) p (nextTokenRec d fuel previous) (nextPost d p).
Proof.
  induction fuel as [|fuel IH]; intros p Hp Hf; [lia|].
  cbn [nextTokenRec].
  assert (Hret : forall q t e,
             p <= q <= Z.max p (len d) ->
             triple (isInteger previous) q (ret (t, e)) (nextPost d p)).
  { intros q t e Hq. apply triple_ret. intros _. exact Hq. }
  assert (Hres : forall q (m : Scan result),
             triple false q m (okResult d p) ->
             triple (isInteger previous) q m (nextPost d p)).
  { intros q m H. apply triple_mayPanic.
    exact (triple_weaken _ _ _ _ _ H (okResult_nextPost p)). }
  eapply triple_bind; [apply triple_mayPanic, (read_first_triple p Hp)|].
  intros [c [|]] q H; cbn [fst snd] in H.
  - destruct H as [Ha ->].
    eapply triple_bind;
      [apply triple_mayPanic, (skipWhitespace_mono p c true (p + 1) Ha)|].
    intros [c1 ok1] q1 [Ha1 Hq1]. unfold afterP in Ha1. cbn [fst snd] in Ha1.
    assert (Hi1 : inside d p q1) by exact (after_inside _ _ _ _ Ha1).
    assert (Hb1 : p <= q1 <= Z.max p (len d)) by okres.
    destruct ok1; cbn [negb]; [|apply Hret; exact Hb1].
    repeat match goal with
           | |- triple _ _ (if ?t then ret _ else _) _ =>
               destruct t; [apply Hret; exact Hb1|]
           end.
    destruct (c1 == "/"%byte).
    { apply Hres, nameLoop_triple; [exact Hi1 | apply budget_enough; okres]. }
    destruct (c1 == ">"%byte).
    { eapply triple_bind; [apply triple_mayPanic, (read_inside_triple p q1 Hi1)|].
      intros [c2 ok2] q2 [Ha2 _].
      destruct (negb (c2 == ">"%byte)); apply Hret; okres. }
    destruct (c1 == "<"%byte).
    { eapply triple_bind; [apply triple_mayPanic, (read_inside_triple p q1 Hi1)|].
      intros [v1 ok1] q2 [Ha2 _]. unfold afterP in Ha2. cbn [fst snd] in Ha2.
      destruct (v1 == "<"%byte); [apply Hret; okres|].
      apply Hres, hexLoop_triple; [exact Ha2 | apply budget_enough; okres]. }
    destruct (c1 == "%"%byte).
    { eapply triple_bind; [apply triple_mayPanic, (read_inside_triple p q1 Hi1)|].
      intros [c2 ok2] q2 [Ha2 _]. unfold afterP in Ha2. cbn [fst snd] in Ha2.
      eapply triple_bind.
      - apply triple_mayPanic.
        apply (skipComment_triple p (budget d) c2 ok2 q2 Ha2).
        intros _. apply budget_enough. okres.
      - intros [c3 ok3] q3 Ha3. unfold afterP in Ha3. cbn [fst snd] in Ha3.
        eapply triple_weaken.
        + apply IH; okres.
        + intros r q4 H4 Hk. specialize (H4 Hk). okres. }
    destruct (c1 == "("%byte).
    { apply Hres, stringLoop_triple; [exact Hi1 | apply budget_enough; okres]. }
    apply wordBranch_triple. exact Hi1.
  - destruct H as [-> HL].
    eapply triple_bind; [apply triple_mayPanic, skipWhitespace_stop_triple|].
    intros x q1 [-> ->]. cbn [negb]. apply Hret. lia.
Qed.

Lemma nextToken_triple (previous : Token) (p : Z) :
  0 <= p ->
  triple (isInteger previous) p (nextToken d previous) (nextPost d p).
Proof.
  intros Hp. apply nextTokenRec_triple; [exact Hp|].
  unfold budget, len. lia.
Qed.

Lemma nextToken_negative (previous : Token) (p : Z) :
  p < 0 -> nextToken d previous p = Panic.
Proof.
  intros Hp. unfold nextToken, budget. cbn [nextTokenRec].
  unfold bind at 1. rewrite (read_negative p Hp). reflexivity.
Qed.

(** The budget of the model is never exhausted: whatever the data, the
    previous token and the position, [nextToken] returns or panics. *)
Theorem nextToken_never_starves (previous : Token) (p : Z) :
  nextToken d previous p <> OutOfFuel.
Proof.
  destruct (Z.lt_ge_cases p 0) as [Hp|Hp].
  - rewrite (nextToken_negative previous p Hp). discriminate.
  - pose proof (nextToken_triple previous p Hp) as H. unfold triple in H.
    intros E. rewrite E in H. exact H.
Qed.

(** When the previous token is no Integer and the position is not
    negative, [nextToken] returns. *)
Theorem nextToken_returns (previous : Token) (p : Z) :
  0 <= p -> Kind_ previous <> Integer ->
  exists r q, nextToken d previous p = Done (r, q) /\ nextPost d p r q.
Proof.
  intros Hp Hk. pose proof (nextToken_triple previous p Hp) as H.
  unfold triple in H.
  destruct (nextToken d previous p) as [[r q]| |].
  - exists r, q. split; [reflexivity | exact H].
  - unfold isInteger in H. apply Kind_eqb_eq in H. contradiction.
  - contradiction.
Qed.

(** Unless it returns a CharString, [nextToken] does not move back and
    stays within the data. *)
Theorem nextToken_position (previous : Token) (p q : Z) (r : result) :
  nextToken d previous p = Done (r, q) ->
  Kind_ (fst r) <> CharString ->
  0 <= p /\ p <= q <= Z.max p (len d).
Proof.
  intros E Hk. destruct (Z.lt_ge_cases p 0) as [Hp|Hp].
  - rewrite (nextToken_negative previous p Hp) in E. discriminate E.
  - split; [exact Hp|].
    pose proof (nextToken_triple previous p Hp) as H. unfold triple in H.
    rewrite E in H. exact (H Hk).
Qed.

End Safety.

(** ** The public operations: budget, panics, positions *)

Lemma SetPosition_never_starves (p : Z) (tk : Tokenizer) :
  SetPosition p tk <> OutOfFuel.
Proof.
  unfold SetPosition.
  pose proof (nextToken_never_starves (data tk) zeroToken p) as H1.
  destruct (nextToken (data tk) zeroToken p) as [[[a aErr] p1]| |];
    [|discriminate|contradiction].
  pose proof (nextToken_never_starves (data tk) a p1) as H2.
  destruct (nextToken (data tk) a p1) as [[[aa aaErr] p2]| |];
    [discriminate|discriminate|contradiction].
Qed.

Lemma NextToken_never_starves (pr : Tokenizer) : NextToken pr <> OutOfFuel.
Proof.
  unfold NextToken. destruct (startsBinary (aaToken pr)); [discriminate|].
  pose proof (nextToken_never_starves (data pr) (aaToken pr) (pos pr)) as H.
  destruct (nextToken (data pr) (aaToken pr) (pos pr)) as [[[t e] p]| |];
    [discriminate|discriminate|contradiction].
Qed.

(** X26: [NextToken] returns whenever the token in the +2 slot is no Integer:
    a panic needs [RD] or [-|] after an Integer. *)
Lemma NextToken_returns (pr : Tokenizer) :
  0 <= pos pr -> Kind_ (aaToken pr) <> Integer ->
  exists tk', NextToken pr = Done (PeekToken pr, tk').
Proof.
  intros Hp Hk. unfold NextToken.
  destruct (startsBinary (aaToken pr)); [eexists; reflexivity|].
  destruct (nextToken_returns (data pr) (aaToken pr) (pos pr) Hp Hk)
    as ([t e] & q & -> & _).
  eexists. reflexivity.
Qed.

(** X27: [SetPosition] at a position of the data establishes the invariant,
    unless a CharString is scanned. *)
Lemma SetPosition_ordered (p : Z) (tk tk' : Tokenizer) :
  0 <= p <= len (data tk) ->
  SetPosition p tk = Done tk' ->
  Kind_ (aToken tk') <> CharString -> Kind_ (aaToken tk') <> CharString ->
  ordered tk'.
Proof.
  unfold SetPosition. intros Hp H.
  destruct (nextToken (data tk) zeroToken p) as [[[a aErr] p1]| |] eqn:E1;
    try discriminate H.
  destruct (nextToken (data tk) a p1) as [[[aa aaErr] p2]| |] eqn:E2;
    try discriminate H.
  injection H as <-. unfold ordered. simpl. intros Ha Haa.
  pose proof (nextToken_position _ _ _ _ _ E1 Ha) as H1.
  pose proof (nextToken_position _ _ _ _ _ E2 Haa) as H2. lia.
Qed.

(** X28: [NextToken] keeps the invariant, unless it scans a CharString. *)
Lemma NextToken_ordered (pr pr' : Tokenizer) (r : result) :
  ordered pr ->
  NextToken pr = Done (r, pr') ->
  Kind_ (aaToken pr') <> CharString ->
  ordered pr'.
Proof.
  unfold ordered, NextToken. intros Ho.
  destruct (startsBinary (aaToken pr)).
  - intros H _. injection H as _ <-. simpl. lia.
  - destruct (nextToken (data pr) (aaToken pr) (pos pr))
      as [[[t e] p]| |] eqn:E; try discriminate.
    intros H. injection H as _ <-. simpl. intros Hk.
    pose proof (nextToken_position _ _ _ _ _ E Hk) as H1. lia.
Qed.

(** ** The stop before binary data *)

(** The guard of [NextToken]: when the token promoted to the +1 slot
    starts binary data, the +2 slot is [(EOF, nil)] and the position stays
    at the end of the operator word. *)
Lemma NextToken_stops_before_binary (pr pr' : Tokenizer) (r : result) :
  startsBinary (aaToken pr) = true ->
  NextToken pr = Done (r, pr') ->
  aToken pr' = aaToken pr /\
  PeekPeekToken pr' = (kindToken EOF, None) /\
  pos pr' = pos pr /\ nextPos pr' = pos pr.
Proof.
  unfold NextToken. intros ->. intros H. injection H as _ <-.
  repeat split.
Qed.

(** C1 (the code departs from it): [SetPosition], and so [NewTokenizer],
    fills the +2 slot by a scan whatever the +1 slot holds.  On
    [stream abc] the +1 slot holds [Other "stream"], the +2 slot holds
    [Other "abc"] and the position is 10, past the operator word that
    ends at 6. *)
Theorem C1_priming_scans_past_stream :
  exists tk,
    NewTokenizer (bytes "stream abc") = Done tk /\
    PeekToken tk = (mkToken (bytes "stream") Other, None) /\
    startsBinary (fst (PeekToken tk)) = true /\
    PeekPeekToken tk = (mkToken (bytes "abc") Other, None) /\
    nextPos tk = 6 /\ pos tk = 10.
Proof.
  run_concrete.
Qed.

(** ** A scan at a saved position

    [nextToken] takes the previous token as a parameter and reads it in
    one place only: when the operator word is [RD] or [-|]. *)

Lemma agree_refl (m : Scan result) : agree m m.
Proof. intros p r p' H _. exact H. Qed.

Lemma agree_bind {A : Type} (m : Scan A) (k k0 : A -> Scan result) :
  (forall a, agree (k a) (k0 a)) -> agree (bind m k) (bind m k0).
Proof.
  intros Hk p r p' H Hp. unfold bind in *.
  destruct (m p) as [[a q]| |]; try discriminate H.
  exact (Hk a q r p' H Hp).
Qed.

Ltac agree_step :=
  match goal with
  | |- agree (bind ?m _) (bind ?m _) => apply agree_bind; intros
  | |- agree (if ?b then _ else _) (if ?b then _ else _) => destruct b
  | |- agree (match ?x with _ => _ end) (match ?x with _ => _ end) =>
      destruct x
  | |- agree ?m ?m => apply agree_refl
  | |- _ => assumption
  end.

Section Agree.

Variable d : list byte.

Lemma wordToken_agree (previous : Token) (outBuf : list byte) :
  agree (wordToken d previous outBuf) (wordToken d zeroToken outBuf).
Proof.
  unfold wordToken. destruct (isCharStringCmd outBuf); [|apply agree_refl].
  change (Kind_eqb (Kind_ zeroToken) Integer) with false.
  destruct (Kind_eqb (Kind_ previous) Integer); [|apply agree_refl].
  intros p r p' H [HK HE]. exfalso.
  destruct (Token_Int previous) as [f [err|]].
  - injection H as <- _. exact (HE err eq_refl).
  - unfold bind in H.
    destruct (readCharString d f p) as [[t q]| |] eqn:E; try discriminate H.
    injection H as <- _. apply HK. simpl.
    exact (readCharString_kind _ _ _ _ _ E).
Qed.

Lemma wordBranch_agree (previous : Token) :
  agree (wordBranch d previous) (wordBranch d zeroToken).
Proof.
  pose proof (wordToken_agree previous) as HW.
  unfold wordBranch. repeat agree_step. apply HW.
Qed.

Lemma nextTokenRec_agree (fuel : nat) (previous : Token) :
  agree (nextTokenRec d fuel previous) (nextTokenRec d fuel zeroToken).
Proof.
  pose proof (wordBranch_agree previous) as HW.
  induction fuel as [|fuel IH]; [apply agree_refl|].
  cbn [nextTokenRec]. repeat agree_step.
Qed.

(** A scan whose result is plain does not depend on the previous
    token: [SetPosition], which passes [Token{}], finds the same. *)
Lemma nextToken_plain (previous : Token) (p p' : Z) (r : result) :
  nextToken d previous p = Done (r, p') -> plain r ->
  nextToken d zeroToken p = Done (r, p').
Proof. apply nextTokenRec_agree. Qed.

End Agree.

Lemma SetPosition_filled (p : Z) (tk tk' : Tokenizer) :
  SetPosition p tk = Done tk' ->
  data tk' = data tk /\ currentPos tk' = p /\
  filled (data tk) zeroToken p (aToken tk') (aError tk') (nextPos tk') /\
  filled (data tk) (aToken tk') (nextPos tk') (aaToken tk') (aaError tk') (pos tk').
Proof.
  unfold SetPosition. intros H.
  destruct (nextToken (data tk) zeroToken p) as [[[a aErr] p1]| |] eqn:E1;
    try discriminate H.
  destruct (nextToken (data tk) a p1) as [[[aa aaErr] p2]| |] eqn:E2;
    try discriminate H.
  injection H as <-. simpl. repeat split; left; assumption.
Qed.

Lemma NextToken_filled (tk tk' : Tokenizer) (r : result) :
  NextToken tk = Done (r, tk') ->
  r = PeekToken tk /\ data tk' = data tk /\
  currentPos tk' = nextPos tk /\ nextPos tk' = pos tk /\
  aToken tk' = aaToken tk /\ aError tk' = aaError tk /\
  filled (data tk) (aToken tk') (nextPos tk') (aaToken tk') (aaError tk') (pos tk').
Proof.
  unfold NextToken. destruct (startsBinary (aaToken tk)) eqn:B.
  - intros H. injection H as <- <-. simpl. repeat split. right. auto.
  - destruct (nextToken (data tk) (aaToken tk) (pos tk))
      as [[[t e] p]| |] eqn:E; try discriminate.
    intros H. injection H as <- <-. simpl. repeat split. left. exact E.
Qed.

Lemma forward_filled (k : nat) (d : list byte) (tk : Tokenizer) (prev : Token) :
  forward k d = Done (tk, prev) ->
  data tk = d /\
  filled d prev (currentPos tk) (aToken tk) (aError tk) (nextPos tk) /\
  filled d (aToken tk) (nextPos tk) (aaToken tk) (aaError tk) (pos tk).
Proof.
  revert tk prev. induction k as [|k IH]; intros tk prev; simpl.
  - destruct (NewTokenizer d) as [tk0| |] eqn:E; try discriminate.
    intros H. injection H as <- <-.
    destruct (SetPosition_filled _ _ _ E) as (Hd & Hc & HA & HB).
    simpl in *. rewrite Hc. auto.
  - destruct (forward k d) as [[tk0 prev0]| |] eqn:E; try discriminate.
    destruct (NextToken tk0) as [[[t e] tk1]| |] eqn:EN; try discriminate.
    intros H. injection H as <- <-.
    destruct (IH _ _ eq_refl) as (Hd & HA & HB).
    destruct (NextToken_filled _ _ _ EN)
      as (Hr & Hd1 & Hc & Hn & Ha & He & HB1).
    unfold PeekToken in Hr. injection Hr as -> ->.
    rewrite Hd in *. rewrite Hc, Ha, He, Hn.
    split; [congruence|]. split; [exact HB|].
    rewrite <- Ha, <- Hn. exact HB1.
Qed.

(** C2, as stated, fails: on [3 RD abc] the forward scan reaches
    position 1 after the first token and returns the CharString [abc]
    next, while [SetPosition(1)] followed by [NextToken] returns the error
    "expected INTEGER before -| or RD". *)
Lemma C2_scan_depends_on_previous_token :
  exists tk prev tk1 tk2,
    forward 1 (bytes "3 RD abc") = Done (tk, prev) /\
    CurrentPosition tk = 1 /\
    NextToken tk = Done ((mkToken (bytes "abc") CharString, None), tk1) /\
    SetPositionNextToken 1 tk = Done ((zeroToken, Some ErrExpectedInteger), tk2).
Proof.
  run_concrete.
Qed.

(** After [stream] the forward scan is served the [EOF] that [NextToken]
    put in the lookahead, while a scan from the same position reads the
    bytes that follow. *)
Example forward_EOF_after_stream :
  exists tk prev tk1 tk2,
    forward 2 (bytes "x stream abc") = Done (tk, prev) /\
    CurrentPosition tk = 8 /\
    NextToken tk = Done ((kindToken EOF, None), tk1) /\
    SetPositionNextToken 8 tk = Done ((mkToken (bytes "abc") Other, None), tk2).
Proof.
  run_concrete.
Qed.

(** When the token at the position is [stream], [SetPosition] scans on
    past it, and the [NextToken] that follows can panic where the one of
    the forward scan returns. *)
Example SetPosition_on_stream_panics :
  exists tk prev tk1,
    forward 1 (bytes "x stream 5 RD") = Done (tk, prev) /\
    CurrentPosition tk = 1 /\
    NextToken tk = Done ((mkToken (bytes "stream") Other, None), tk1) /\
    SetPositionNextToken 1 tk = Panic.
Proof.
  run_concrete.
Qed.

(** C2 (amended): let the forward scan from position 0 reach the token
    boundary [p] after [k] calls of [NextToken].  If neither the token
    consumed just before [p] nor the token at [p] starts binary data
    ([stream], [ID]), and the token at [p] is neither a CharString nor an
    invalid CharString length, then [SetPosition(p)], on any tokenizer
    over the same input, rebuilds the state of the forward scan; so
    [SetPosition(p)] followed by [NextToken] yields the same token and
    error as the [NextToken] call of the forward scan at [p]. *)
Theorem C2_SetPosition_at_boundary
  (d : list byte) (k : nat) (tk tk0 : Tokenizer) (prev : Token) :
  forward k d = Done (tk, prev) ->
  data tk0 = d ->
  startsBinary prev = false ->
  startsBinary (aToken tk) = false ->
  plain (PeekToken tk) ->
  SetPosition (CurrentPosition tk) tk0 = Done tk /\
  SetPositionNextToken (CurrentPosition tk) tk0 = NextToken tk.
Proof.
  intros Hf Hd Hprev Hcur Hplain.
  destruct (forward_filled _ _ _ _ Hf) as (Hdt & HA & HB).
  assert (HS : SetPosition (CurrentPosition tk) tk0 = Done tk).
  { destruct HA as [HA | [HA _]]; [|congruence].
    destruct HB as [HB | [HB _]]; [|congruence].
    apply nextToken_plain in HA; [|exact Hplain].
    unfold SetPosition, CurrentPosition. rewrite Hd, HA, HB.
    destruct tk; simpl in *. subst. reflexivity. }
  split; [exact HS|].
  unfold SetPositionNextToken. rewrite HS. reflexivity.
Qed.

Lemma C2_SetPosition_at_boundary_witness :
  SetPosition 2 (emptyTokenizer (bytes "12 /Name [")) = Done tkAfter12 /\
  SetPositionNextToken 2 (emptyTokenizer (bytes "12 /Name [")) =
    NextToken tkAfter12.
Proof.
  apply (C2_SetPosition_at_boundary (bytes "12 /Name [") 1 tkAfter12
           (emptyTokenizer (bytes "12 /Name ["))
           (mkToken (bytes "12") Integer)).
  - vm_compute. reflexivity.
  - reflexivity.
  - reflexivity.
  - reflexivity.
  - split; [discriminate | intros ne; discriminate].
Defined.

(** ** CharStrings *)

(** C3 (the code departs from it): [readCharString] bounds the slice it
    copies by the length of the data, then advances [pos] by the declared
    length.  On [9 RD ab] the CharString holds the two bytes left and
    [pos] is 14, while the data has 7 bytes. *)
Theorem C3_pos_exceeds_data_after_CharString :
  exists tk,
    NewTokenizer (bytes "9 RD ab") = Done tk /\
    PeekToken tk = (mkToken (bytes "9") Integer, None) /\
    PeekPeekToken tk = (mkToken (bytes "ab") CharString, None) /\
    pos tk = 14 /\ len (data tk) = 7 /\
    ~ (currentPos tk <= nextPos tk <= pos tk /\ pos tk <= len (data tk)).
Proof.
  eexists. repeat (split; [vm_compute; reflexivity|]).
  vm_compute. intros [_ H]. apply H. reflexivity.
Qed.

(** Two calls of [NextToken] later the current position is 14 as well,
    and [SkipBytes], which slices the data from it, panics. *)
Example SkipBytes_panics_past_the_data :
  exists tk prev,
    forward 2 (bytes "9 RD ab") = Done (tk, prev) /\
    CurrentPosition tk = 14 /\
    SkipBytes 0 tk = Panic.
Proof.
  run_concrete.
Qed.

(** C9 (the code departs from it): [NextToken] panics when it scans [RD]
    after an Integer that is negative, and when [RD] ends the input. *)
Theorem C9_NextToken_panics_on_CharString_length :
  (exists tk,
     NewTokenizer (bytes "1 -1 RD x") = Done tk /\ NextToken tk = Panic) /\
  (exists tk,
     NewTokenizer (bytes "1 3 RD") = Done tk /\ NextToken tk = Panic).
Proof.
  split; run_concrete.
Qed.

(** The slice expression of [readCharString] is where it panics: after
    [-1 RD] the upper bound is below the lower one. *)
Example readCharString_negative_length :
  readCharString (bytes "1 -1 RD x") (-1) 7 = Panic.
Proof. reflexivity. Qed.

(** ** Errors come with the zero token *)

Lemma errZero_ok (t : Token) : errZero (ret (t, None)).
Proof. intros p t' e p' H. discriminate H. Qed.

Lemma errZero_err (e : error) : errZero (ret (zeroToken, Some e)).
Proof. intros p t' e' p' H. injection H as <- _ _. reflexivity. Qed.

Lemma errZero_starved : errZero starved.
Proof. intros p t e p' H. discriminate H. Qed.

Lemma errZero_bind {A : Type} (m : Scan A) (k : A -> Scan result) :
  (forall a, errZero (k a)) -> errZero (bind m k).
Proof.
  intros Hk p t e p' H. unfold bind in H.
  destruct (m p) as [[a q]| |]; try discriminate H.
  exact (Hk a q t e p' H).
Qed.

Create HintDb errzero.
#[local] Hint Resolve errZero_ok errZero_err errZero_starved : errzero.

(** Walks down a scanner built from [bind], [if] and [match]. *)
Ltac errzero_step :=
  match goal with
  | |- errZero (bind _ _) => apply errZero_bind; intros
  | |- errZero (if ?b then _ else _) => destruct b
  | |- errZero (match ?x with _ => _ end) => destruct x
  | |- errZero (let (_, _) := ?x in _) => destruct x
  | |- _ => solve [auto with errzero]
  end.
Ltac errzero := repeat errzero_step.

Section ErrZero.

Variable d : list byte.

Lemma nameLoop_errZero (fuel : nat) :
  forall outBuf, errZero (nameLoop d fuel outBuf).
Proof. induction fuel as [|fuel IH]; intros outBuf; simpl; errzero. Qed.

Lemma hexLoop_errZero (fuel : nat) :
  forall v1 ok1 outBuf, errZero (hexLoop d fuel v1 ok1 outBuf).
Proof. induction fuel as [|fuel IH]; intros v1 ok1 outBuf; simpl; errzero. Qed.

Lemma stringEnd_errZero (ok : bool) (outBuf : list byte) :
  errZero (stringEnd ok outBuf).
Proof. unfold stringEnd. errzero. Qed.

#[local] Hint Resolve stringEnd_errZero : errzero.

Lemma stringLoop_errZero (fuel : nat) :
  forall nesting outBuf, errZero (stringLoop d fuel nesting outBuf).
Proof. induction fuel as [|fuel IH]; intros nesting outBuf; simpl; errzero. Qed.

Lemma wordToken_errZero (previous : Token) (outBuf : list byte) :
  errZero (wordToken d previous outBuf).
Proof. unfold wordToken. errzero. Qed.

#[local] Hint Resolve nameLoop_errZero hexLoop_errZero stringLoop_errZero
  wordToken_errZero : errzero.

Lemma wordBranch_errZero (previous : Token) : errZero (wordBranch d previous).
Proof. unfold wordBranch. errzero. Qed.

#[local] Hint Resolve wordBranch_errZero : errzero.

Lemma nextTokenRec_errZero (fuel : nat) (previous : Token) :
  errZero (nextTokenRec d fuel previous).
Proof.
  induction fuel as [|fuel IH]; [apply errZero_starved|].
  cbn [nextTokenRec]. errzero.
Qed.

(** Every error of [nextToken] is returned with [Token{}]. *)
Lemma nextToken_error_zero (previous t : Token) (e : error) (p p' : Z) :
  nextToken d previous p = Done ((t, Some e), p') -> t = zeroToken.
Proof. apply nextTokenRec_errZero. Qed.

End ErrZero.

Lemma SetPosition_slotsZero (p : Z) (tk tk' : Tokenizer) :
  SetPosition p tk = Done tk' -> slotsZero tk'.
Proof.
  unfold SetPosition. intros H.
  destruct (nextToken (data tk) zeroToken p) as [[[a aErr] p1]| |] eqn:E1;
    try discriminate H.
  destruct (nextToken (data tk) a p1) as [[[aa aaErr] p2]| |] eqn:E2;
    try discriminate H.
  injection H as <-. split; simpl; intros e ->.
  - exact (nextToken_error_zero _ _ _ _ _ _ E1).
  - exact (nextToken_error_zero _ _ _ _ _ _ E2).
Qed.

Lemma NextToken_slotsZero (tk tk' : Tokenizer) (r : result) :
  slotsZero tk -> NextToken tk = Done (r, tk') -> slotsZero tk'.
Proof.
  intros [_ HB]. unfold NextToken. destruct (startsBinary (aaToken tk)).
  - intros H. injection H as _ <-. split; simpl; [exact HB | discriminate].
  - destruct (nextToken (data tk) (aaToken tk) (pos tk))
      as [[[t e] p]| |] eqn:E; try discriminate.
    intros H. injection H as _ <-. split; simpl; [exact HB |].
    intros e' ->. exact (nextToken_error_zero _ _ _ _ _ _ E).
Qed.

Lemma reachable_slotsZero (tk : Tokenizer) : reachable tk -> slotsZero tk.
Proof.
  induction 1 as [d tk H | d tk tk' _ _ H | p tk tk' _ _ H
                 | tk r tk' _ IH H | n tk out tk' _ _ H].
  - exact (SetPosition_slotsZero _ _ _ H).
  - exact (SetPosition_slotsZero _ _ _ H).
  - exact (SetPosition_slotsZero _ _ _ H).
  - exact (NextToken_slotsZero _ _ _ IH H).
  - unfold SkipBytes in H.
    destruct ((0 <=? currentPos tk) && _); try discriminate H.
    match type of H with
    | match ?s with _ => _ end = _ => destruct s as [pr'| |] eqn:E
    end; try discriminate H.
    injection H as _ <-. exact (SetPosition_slotsZero _ _ _ E).
Qed.

Lemma tkLoneGt_new : NewTokenizer (bytes ">") = Done tkLoneGt.
Proof. reflexivity. Qed.

Lemma tkLoneGt_reachable : reachable tkLoneGt.
Proof. exact (reach_new _ _ tkLoneGt_new). Qed.

(** C4, as stated, fails: on the input [>] the token returned with the
    error has the zero Kind, which is not [EOF]. *)
Lemma C4_error_token_kind_is_not_EOF :
  exists tk t e,
    NewTokenizer (bytes ">") = Done tk /\
    PeekToken tk = (t, Some e) /\
    fst (PeekToken tk) = t /\
    Kind_ t <> EOF.
Proof.
  exists tkLoneGt, zeroToken, ErrGtNotExpected.
  repeat split; try reflexivity. discriminate.
Qed.

(** C4 (amended): whenever [NextToken], [PeekToken] or [PeekPeekToken]
    of a reachable tokenizer returns a non-nil error, the accompanying
    token is the zero token [Token{}]: its Value is empty and its Kind is
    the zero value of [Kind], which is not [EOF]. *)
Theorem C4_error_token_is_zero (tk : Tokenizer) :
  reachable tk ->
  (forall t e, PeekToken tk = (t, Some e) ->
     Value t = [] /\ Kind_value (Kind_ t) = 0 /\ Kind_ t <> EOF) /\
  (forall t e, PeekPeekToken tk = (t, Some e) ->
     Value t = [] /\ Kind_value (Kind_ t) = 0 /\ Kind_ t <> EOF) /\
  (forall t e tk', NextToken tk = Done ((t, Some e), tk') ->
     Value t = [] /\ Kind_value (Kind_ t) = 0 /\ Kind_ t <> EOF).
Proof.
  intros Hr. destruct (reachable_slotsZero tk Hr) as [HA HB].
  assert (Z0 : Value zeroToken = [] /\ Kind_value (Kind_ zeroToken) = 0 /\
               Kind_ zeroToken <> EOF)
    by (repeat split; discriminate).
  assert (P : forall t e, PeekToken tk = (t, Some e) -> t = zeroToken).
  { unfold PeekToken. intros t e H. injection H as <- He. exact (HA e He). }
  split; [|split].
  - intros t e H. rewrite (P t e H). exact Z0.
  - unfold PeekPeekToken. intros t e H. injection H as <- He.
    rewrite (HB e He). exact Z0.
  - intros t e tk' H.
    assert (Hp : PeekToken tk = (t, Some e)).
    { unfold NextToken in H. destruct (startsBinary (aaToken tk)).
      - injection H as H1 H2 _. unfold PeekToken. congruence.
      - destruct (nextToken (data tk) (aaToken tk) (pos tk))
          as [[[t0 e0] p0]| |]; try discriminate H.
        injection H as H1 H2 _. unfold PeekToken. congruence. }
    rewrite (P t e Hp). exact Z0.
Qed.

Lemma C4_error_token_is_zero_witness :
  reachable tkLoneGt /\
  Kind_ (fst (PeekToken tkLoneGt)) <> EOF.
Proof.
  split; [exact tkLoneGt_reachable|].
  destruct (C4_error_token_is_zero tkLoneGt tkLoneGt_reachable) as [H _].
  apply (H zeroToken ErrGtNotExpected). reflexivity.
Defined.

(** C10: whenever the +1 slot of a reachable tokenizer holds a non-nil
    error, [IsEOF] returns false: the token stored with the error is the
    zero token, whose Kind is not [EOF]. *)
Theorem C10_IsEOF_false_on_error (tk : Tokenizer) :
  reachable tk ->
  snd (PeekToken tk) <> None ->
  IsEOF tk = false /\ Kind_ (fst (PeekToken tk)) <> EOF.
Proof.
  intros Hr He. destruct (reachable_slotsZero tk Hr) as [HA _].
  unfold IsEOF, PeekToken in *. simpl in *.
  destruct (aError tk) as [e|] eqn:E; [|contradiction].
  rewrite (HA e eq_refl). split; [reflexivity | discriminate].
Qed.

Lemma C10_IsEOF_false_on_error_witness :
  snd (PeekToken tkLoneGt) = Some ErrGtNotExpected /\ IsEOF tkLoneGt = false.
Proof.
  split; [reflexivity|].
  apply (C10_IsEOF_false_on_error tkLoneGt tkLoneGt_reachable).
  discriminate.
Defined.

(** ** Radix numbers *)

(** C5 (the code departs from it): after [#], [readNumber] requires and
    reads decimal digits only.  On [16#FFFE] it declines and rewinds, and
    the bytes become the operator word [Other "16#FFFE"]. *)
Theorem C5_radix_letters_not_accepted :
  readNumber (bytes "16#FFFE") 0 = Done ((zeroToken, false), 0) /\
  nextToken (bytes "16#FFFE") zeroToken 0 =
    Done ((mkToken (bytes "16#FFFE") Other, None), 7) /\
  strconv.ParseInt (bytes "FFFE") 16 = (65534, None).
Proof. vm_compute. repeat split. Qed.

(** With decimal digits after [#] the radix form is read: [8#17] is the
    Integer [15]. *)
Example radix_decimal_digits :
  nextToken (bytes "8#17") zeroToken 0 =
    Done ((mkToken (bytes "15") Integer, None), 4).
Proof. reflexivity. Qed.

(** A letter ends the digits: of [16#1F] the scanner takes [16#1]. *)
Example radix_stops_at_letter :
  nextToken (bytes "16#1F") zeroToken 0 =
    Done ((mkToken (bytes "1") Integer, None), 4).
Proof. reflexivity. Qed.

(** ** Numbers that start with a dot *)

Lemma suffixAt_start (pre tail : list byte) :
  suffixAt (pre ++ tail) (offs pre) tail.
Proof. exists pre. split; reflexivity. Qed.

Lemma read_cons (d : list byte) (p : Z) (c : byte) (tail : list byte) :
  suffixAt d p (c :: tail) ->
  read d p = Done ((c, true), p + 1) /\ suffixAt d (p + 1) tail.
Proof.
  intros (pre & -> & ->). unfold read, len, offs. split.
  - rewrite length_app. simpl List.length.
    destruct (Z.leb_spec (Z.of_nat (List.length pre + S (List.length tail)))
                (Z.of_nat (List.length pre))) as [?|_]; [lia|].
    destruct (Z.ltb_spec (Z.of_nat (List.length pre)) 0) as [?|_]; [lia|].
    rewrite Nat2Z.id, nth_middle. reflexivity.
  - exists (pre ++ [c]). rewrite <- app_assoc. split; [reflexivity|].
    unfold offs. rewrite length_app. simpl List.length. lia.
Qed.

Lemma read_nil (d : list byte) (p : Z) :
  suffixAt d p [] -> read d p = Done ((x00, false), p).
Proof.
  intros (pre & -> & ->). unfold read, len, offs. rewrite app_nil_r.
  rewrite Z.leb_refl. reflexivity.
Qed.

Lemma read_peek (d : list byte) (p : Z) (rest : list byte) :
  suffixAt d p rest ->
  read d p = Done ((peekByte rest, peekOk rest), p + peekStep rest).
Proof.
  destruct rest as [|c rest]; intros H; simpl.
  - rewrite Z.add_0_r. exact (read_nil _ _ H).
  - exact (proj1 (read_cons _ _ _ _ H)).
Qed.

Lemma readDigits_stop (d : list byte) (fuel : nat) (sb : list byte)
  (c : byte) (ok h : bool) (p : Z) :
  isDigit c = false ->
  readDigits d fuel sb c ok h p = Done ((sb, c, ok, h), p).
Proof. intros H. destruct fuel; simpl; rewrite H; reflexivity. Qed.

(** The digit loop takes the whole run of digits. *)
Lemma readDigits_run (d : list byte) (ds : list byte) :
  forall (rest sb : list byte) (c : byte) (ok h : bool) (p : Z) (fuel : nat),
    suffixAt d p (ds ++ rest) ->
    isDigit c = true -> forallb isDigit ds = true -> stops rest ->
    (List.length ds < fuel)%nat ->
    readDigits d fuel sb c ok h p =
      Done ((sb ++ c :: ds, peekByte rest, peekOk rest, true),
            p + offs ds + peekStep rest).
Proof.
  induction ds as [|x ds IH]; intros rest sb c ok h p fuel Hs Hc Hds Hr Hf;
    (destruct fuel as [|fuel]; [simpl in Hf; lia|]);
    simpl readDigits; rewrite Hc; unfold bind.
  - simpl in Hs. rewrite (read_peek _ _ _ Hs).
    rewrite readDigits_stop.
    + unfold offs. simpl. rewrite Z.add_0_r. reflexivity.
    + destruct rest; [reflexivity | exact Hr].
  - simpl in Hs, Hds. apply andb_true_iff in Hds as [Hx Hds].
    destruct (read_cons _ _ _ _ Hs) as [-> Hs'].
    rewrite (IH rest (sb ++ [c]) x true true (p + 1) fuel Hs' Hx Hds Hr);
      [|simpl in Hf; lia].
    rewrite <- app_assoc. simpl. unfold offs. simpl List.length.
    f_equal. f_equal. lia.
Qed.

Lemma suffixAt_length (d : list byte) (p : Z) (tail : list byte) :
  suffixAt d p tail -> (List.length tail <= List.length d)%nat.
Proof. intros (pre & -> & _). rewrite length_app. lia. Qed.

(** After the dot: the digits that follow, if any, end the Float. *)
Lemma readNumberTail_fraction (d : list byte) (markedPos : Z)
  (sb ds rest : list byte) (p : Z) :
  suffixAt d p (ds ++ rest) ->
  forallb isDigit ds = true -> stops rest ->
  bind (read d)
    (fun x => let (c', ok') := x in
              readNumberTail d markedPos [] sb c' ok' false) p =
    Done ((mkToken (sb ++ ds) Float, true), p + offs ds).
Proof.
  intros Hs Hds Hr. destruct ds as [|x ds].
  - simpl in Hs. rewrite (bind_Done _ _ _ _ _ (read_peek _ _ _ Hs)).
    unfold readNumberTail. cbn [andb].
    assert (Hp : isDigit (peekByte rest) = false)
      by (destruct rest; [reflexivity | exact Hr]).
    rewrite (bind_Done _ _ _ _ _ (readDigits_stop d _ sb _ _ false _ Hp)).
    rewrite app_nil_r. unfold offs. simpl List.length.
    destruct rest as [|c rest]; simpl; unfold bind, unread, ret; simpl;
      apply Done_eq; [reflexivity | lia | reflexivity | lia].
  - simpl in Hs, Hds. apply andb_true_iff in Hds as [Hx Hds].
    destruct (read_cons _ _ _ _ Hs) as [Hread Hs'].
    rewrite (bind_Done _ _ _ _ _ Hread).
    unfold readNumberTail. cbn [andb].
    assert (Hf : (List.length ds < budget d)%nat).
    { unfold budget. apply suffixAt_length in Hs'.
      rewrite length_app in Hs'. lia. }
    rewrite (bind_Done _ _ _ _ _
               (readDigits_run d ds rest sb x true false (p + 1) (budget d)
                  Hs' Hx Hds Hr Hf)).
    unfold offs. simpl List.length.
    destruct rest as [|c rest]; simpl; unfold bind, unread, ret; simpl;
      apply Done_eq; [reflexivity | lia | reflexivity | lia].
Qed.

(** C6, as stated, fails: [readNumber] accepts [.], [.5] and [+.5]; it
    returns a Float and does not rewind. *)
Lemma C6_leading_dot_is_a_Float :
  readNumber (bytes ".") 0 = Done ((mkToken (bytes ".") Float, true), 1) /\
  readNumber (bytes ".5") 0 = Done ((mkToken (bytes ".5") Float, true), 2) /\
  readNumber (bytes "+.5") 0 = Done ((mkToken (bytes "+.5") Float, true), 3) /\
  nextToken (bytes ".5") zeroToken 0 =
    Done ((mkToken (bytes ".5") Float, None), 2).
Proof. repeat split. Qed.

(** A sign, a dot and digits: a Float. *)
Lemma readNumber_leading_dot (pre sign ds rest : list byte) :
  sign = [] \/ sign = ["+"%byte] \/ sign = ["-"%byte] ->
  forallb isDigit ds = true ->
  stops rest ->
  readNumber (pre ++ sign ++ "."%byte :: ds ++ rest) (offs pre) =
    Done ((mkToken (sign ++ "."%byte :: ds) Float, true),
          offs pre + offs sign + 1 + offs ds).
Proof.
  intros Hsign Hds Hr.
  pose proof (suffixAt_start pre (sign ++ "."%byte :: ds ++ rest)) as Hs.
  set (d := pre ++ sign ++ "."%byte :: ds ++ rest) in *.
  set (p := offs pre) in *.
  unfold readNumber, getPos.
  rewrite (bind_Done _ _ p p p eq_refl).
  destruct Hsign as [-> | Hsign].
  - simpl app in Hs. destruct (read_cons _ _ _ _ Hs) as [Hread Hs1].
    rewrite (bind_Done _ _ _ _ _ Hread).
    change (("."%byte == "+"%byte) || ("."%byte == "-"%byte)) with false.
    cbv iota. unfold ret at 1.
    rewrite (bind_Done _ _ (p + 1) (p + 1) ([], "."%byte) eq_refl).
    rewrite (bind_Done _ _ _ _ _ (readDigits_stop d _ [] "."%byte true false _ eq_refl)).
    change ("."%byte == "."%byte) with true. cbv iota.
    rewrite (readNumberTail_fraction d p _ ds rest (p + 1) Hs1 Hds Hr).
    unfold offs. simpl List.length. apply Done_eq; [reflexivity | lia].
  - assert (exists s, sign = [s] /\ ((s == "+"%byte) || (s == "-"%byte)) = true)
      as (s & -> & Hsgn)
      by (destruct Hsign as [-> | ->]; eexists; split; reflexivity).
    simpl app in Hs. destruct (read_cons _ _ _ _ Hs) as [Hread Hs1].
    destruct (read_cons _ _ _ _ Hs1) as [Hread1 Hs2].
    rewrite (bind_Done _ _ _ _ _ Hread). rewrite Hsgn.
    assert (E : bind (read d)
                  (fun x : byte * bool =>
                     let (c', _) := x in ret ([] ++ [s], c')) (p + 1)
                = Done (([s], "."%byte), p + 1 + 1))
      by (rewrite (bind_Done _ _ _ _ _ Hread1); reflexivity).
    rewrite (bind_Done _ _ _ _ _ E).
    rewrite (bind_Done _ _ _ _ _ (readDigits_stop d _ [s] "."%byte true false _ eq_refl)).
    change ("."%byte == "."%byte) with true. cbv iota.
    rewrite (readNumberTail_fraction d p _ ds rest (p + 1 + 1) Hs2 Hds Hr).
    unfold offs. simpl List.length. apply Done_eq; [reflexivity | lia].
Qed.

(** Anything else than a digit, a dot or [#] after the optional sign:
    [readNumber] declines and rewinds. *)
Lemma readNumber_declines (pre sign rest : list byte) :
  sign = [] \/ sign = ["+"%byte] \/ sign = ["-"%byte] ->
  opensNoNumber sign rest ->
  readNumber (pre ++ sign ++ rest) (offs pre) =
    Done ((zeroToken, false), offs pre).
Proof.
  intros Hsign (Hdig & Hdot & Hhash & Hsgn0).
  pose proof (suffixAt_start pre (sign ++ rest)) as Hs.
  set (d := pre ++ sign ++ rest) in *.
  set (p := offs pre) in *.
  set (c := peekByte rest) in *.
  unfold readNumber, getPos.
  rewrite (bind_Done _ _ p p p eq_refl).
  destruct Hsign as [-> | Hsign].
  - simpl app in Hs. rewrite (bind_Done _ _ _ _ _ (read_peek _ _ _ Hs)).
    fold c. destruct (Hsgn0 eq_refl) as [Hp Hm].
    rewrite (beq_neq _ _ Hp), (beq_neq _ _ Hm). cbn [orb]. unfold ret at 1.
    rewrite (bind_Done _ _ _ _ ([], c) eq_refl).
    rewrite (bind_Done _ _ _ _ _
               (readDigits_stop d _ [] c (peekOk rest) false _ Hdig)).
    rewrite (beq_neq _ _ Hdot), (beq_neq _ _ Hhash). reflexivity.
  - assert (exists s, sign = [s] /\ ((s == "+"%byte) || (s == "-"%byte)) = true)
      as (s & -> & Hsgn)
      by (destruct Hsign as [-> | ->]; eexists; split; reflexivity).
    simpl app in Hs. destruct (read_cons _ _ _ _ Hs) as [Hread Hs1].
    rewrite (bind_Done _ _ _ _ _ Hread). rewrite Hsgn.
    assert (E : bind (read d)
                  (fun x : byte * bool =>
                     let (c', _) := x in ret ([] ++ [s], c')) (p + 1)
                = Done (([s], c), p + 1 + peekStep rest))
      by (rewrite (bind_Done _ _ _ _ _ (read_peek _ _ _ Hs1)); reflexivity).
    rewrite (bind_Done _ _ _ _ _ E).
    rewrite (bind_Done _ _ _ _ _
               (readDigits_stop d _ [s] c true false _ Hdig)).
    rewrite (beq_neq _ _ Hdot), (beq_neq _ _ Hhash). reflexivity.
Qed.

(** No digit is needed before [#] either: [#5] is read as the Float [5]
    and [+#5] as the Integer [5]. *)
Example hash_without_base :
  readNumber (bytes "#5") 0 = Done ((mkToken (bytes "5") Float, true), 2) /\
  readNumber (bytes "+#5") 0 = Done ((mkToken (bytes "5") Integer, true), 3).
Proof. split; reflexivity. Qed.

(** C6 (amended): the number scanner requires no digit before [.].  For
    every input in which an optional sign is followed by [.], whatever
    comes before, [readNumber] accepts: it takes the sign, the dot and the
    decimal digits that follow, returns them as a Float, and leaves the
    position after them.  It declines and rewinds to the entry position
    when the optional sign is followed by a byte that is no digit, no [.]
    and no [#], or by nothing; so a digit is required before the exponent
    marker. *)
Theorem C6_readNumber_leading_dot_or_decline (pre sign : list byte) :
  sign = [] \/ sign = ["+"%byte] \/ sign = ["-"%byte] ->
  (forall ds rest,
     forallb isDigit ds = true -> stops rest ->
     readNumber (pre ++ sign ++ "."%byte :: ds ++ rest) (offs pre) =
       Done ((mkToken (sign ++ "."%byte :: ds) Float, true),
             offs pre + offs sign + 1 + offs ds)) /\
  (forall rest,
     opensNoNumber sign rest ->
     readNumber (pre ++ sign ++ rest) (offs pre) =
       Done ((zeroToken, false), offs pre)).
Proof.
  intros Hsign. split.
  - intros ds rest. exact (readNumber_leading_dot pre sign ds rest Hsign).
  - intros rest. exact (readNumber_declines pre sign rest Hsign).
Qed.

Lemma C6_readNumber_leading_dot_or_decline_witness :
  readNumber (bytes "x +.25 y") 2 =
    Done ((mkToken (bytes "+.25") Float, true), 6) /\
  readNumber (bytes "x +e5 y") 2 = Done ((zeroToken, false), 2).
Proof.
  destruct (C6_readNumber_leading_dot_or_decline (bytes "x ") (bytes "+"))
    as [Hdot Hdecl].
  - right. left. reflexivity.
  - split.
    + apply (Hdot (bytes "25") (bytes " y")); reflexivity.
    + apply (Hdecl (bytes "e5 y")).
      repeat split; try reflexivity; discriminate.
Defined.

(** ** The start of a stream *)

(** C7, as stated, fails: in [stream\rabc], after [stream] is consumed
    the current position is 6, the byte there is CR, the next byte is not
    LF, and [StreamPosition] returns 7. *)
Lemma C7_StreamPosition_skips_lone_CR :
  exists tk prev,
    forward 1 (bytes "stream" ++ [CR] ++ bytes "abc") = Done (tk, prev) /\
    CurrentPosition tk = 6 /\
    nth 6 (data tk) x00 = CR /\
    nth 7 (data tk) x00 <> LF /\
    StreamPosition tk = Done 7 /\
    StreamPosition tk <> Done (CurrentPosition tk).
Proof.
  do 2 eexists. split; [vm_compute; reflexivity|].
  split; [reflexivity|]. split; [reflexivity|].
  split; [vm_compute; discriminate|].
  split; [reflexivity | vm_compute; discriminate].
Qed.

(** C7 (amended): if the byte at [CurrentPosition] is CR and the byte
    after it is not LF (or there is none), [StreamPosition] returns
    [CurrentPosition + 1]: it advances past the lone CR. *)
Theorem C7_StreamPosition_lone_CR (pr : Tokenizer) :
  0 <= CurrentPosition pr < len (data pr) ->
  nth (Z.to_nat (CurrentPosition pr)) (data pr) x00 = CR ->
  (CurrentPosition pr + 1 < len (data pr) ->
   nth (Z.to_nat (CurrentPosition pr + 1)) (data pr) x00 <> LF) ->
  StreamPosition pr = Done (CurrentPosition pr + 1).
Proof.
  unfold StreamPosition, CurrentPosition. intros [H0 H1] HCR HLF.
  destruct (Z.ltb_spec (currentPos pr) 0) as [?|_]; [lia|].
  destruct (Z.ltb_spec (currentPos pr) (len (data pr))) as [_|?]; [|lia].
  rewrite HCR, beq_refl. simpl.
  destruct (Z.ltb_spec (currentPos pr + 1) (len (data pr))) as [H2|_];
    [|reflexivity].
  rewrite (beq_neq _ _ (HLF H2)). reflexivity.
Qed.

Lemma C7_StreamPosition_lone_CR_witness :
  StreamPosition
    (mkTokenizer (bytes "stream" ++ [CR] ++ bytes "abc")
       None (mkToken (bytes "abc") Other) None (kindToken EOF) 10 6 10)
  = Done 7.
Proof.
  apply (C7_StreamPosition_lone_CR
    (mkTokenizer (bytes "stream" ++ [CR] ++ bytes "abc")
       None (mkToken (bytes "abc") Other) None (kindToken EOF) 10 6 10)).
  - vm_compute. split; [discriminate | reflexivity].
  - reflexivity.
  - intros _. vm_compute. discriminate.
Defined.

(** ** Line ends inside a literal string *)

Lemma read_inside (d : list byte) (p : Z) :
  0 <= p < len d ->
  read d p = Done ((nth (Z.to_nat p) d x00, true), p + 1).
Proof.
  intros [H0 H1]. unfold read.
  destruct (Z.leb_spec (len d) p) as [?|_]; [lia|].
  destruct (Z.ltb_spec p 0) as [?|_]; [lia|]. reflexivity.
Qed.

(** A whole string with a bare CR and a CR LF. *)
Example string_with_line_ends :
  nextToken (bytes "(a" ++ [CR] ++ bytes "b" ++ [CR; LF] ++ bytes "c) x")
    zeroToken 0 =
    Done ((mkToken (bytes "a" ++ [LF] ++ bytes "b" ++ [LF] ++ bytes "c") String,
           None), 8).
Proof. vm_compute. reflexivity. Qed.

(** * Further properties *)

(** ** The end of the data *)

Lemma wrap64_small (z : Z) : - 2 ^ 63 <= z < 2 ^ 63 -> wrap64 z = z.
Proof. intros H. unfold wrap64. rewrite Z.mod_small; lia. Qed.

Lemma skipWhitespace_nonws (d : list byte) (fuel : nat) (c : byte)
  (ok : bool) (p : Z) :
  IsAsciiWhitespace c = false ->
  skipWhitespace d fuel c ok p = Done ((c, ok), p).
Proof.
  intros H. destruct fuel; simpl; rewrite H, andb_false_r; reflexivity.
Qed.

Lemma read_past (d : list byte) (p : Z) :
  len d <= p -> read d p = Done ((x00, false), p).
Proof.
  intros H. unfold read. destruct (Z.leb_spec (len d) p); [reflexivity | lia].
Qed.

Lemma nextToken_past (d : list byte) (previous : Token) (p : Z) :
  len d <= p ->
  nextToken d previous p = Done ((kindToken EOF, None), p).
Proof.
  intros H. unfold nextToken, budget. cbn [nextTokenRec].
  rewrite (bind_Done _ _ _ _ _ (read_past d p H)).
  rewrite (bind_Done _ _ _ _ _ (skipWhitespace_stop d _ x00 p)).
  reflexivity.
Qed.

(** X1: At the end of the data, or past it, [nextToken] returns [(EOF, nil)]
    and leaves the position where it is, whatever the previous token. *)
Theorem nextToken_at_end (d : list byte) (previous : Token) (p : Z) :
  len d <= p ->
  nextToken d previous p = Done ((kindToken EOF, None), p).
Proof. exact (nextToken_past d previous p). Qed.

Lemma nextToken_at_end_witness :
  nextToken (bytes "/A") (mkToken (bytes "3") Integer) 2 =
    Done ((kindToken EOF, None), 2).
Proof. apply nextToken_at_end. vm_compute. discriminate. Defined.

Lemma NextToken_exhausted (tk : Tokenizer) :
  exhausted tk ->
  exists tk', NextToken tk = Done ((kindToken EOF, None), tk') /\ exhausted tk'.
Proof.
  intros (HA & HB & HL). unfold PeekPeekToken in HB. injection HB as HB1 HB2.
  unfold NextToken. rewrite HA, HB1.
  change (startsBinary (kindToken EOF)) with false. cbv iota.
  rewrite (nextToken_past _ _ _ HL).
  eexists. split; [reflexivity|].
  unfold exhausted, PeekToken, PeekPeekToken. simpl.
  rewrite HB2. repeat split. exact HL.
Qed.

Lemma NextTokens_exhausted (k : nat) :
  forall tk, exhausted tk ->
    exists tk', NextTokens k tk = Done (repeat (kindToken EOF, None) k, tk') /\
                exhausted tk'.
Proof.
  induction k as [|k IH]; intros tk H; simpl.
  - exists tk. split; [reflexivity | exact H].
  - destruct (NextToken_exhausted tk H) as (tk1 & -> & H1).
    destruct (IH tk1 H1) as (tk2 & -> & H2).
    exists tk2. split; [reflexivity | exact H2].
Qed.

(** X2: Once the scanning position has reached the end of the data, the two
    buffered tokens are returned and every later call of [NextToken]
    returns [(EOF, nil)], as often as it is called. *)
Theorem NextToken_EOF_forever (tk : Tokenizer) (k : nat) :
  len (data tk) <= pos tk ->
  exists tk',
    NextTokens (2 + k) tk =
      Done (PeekToken tk :: PeekPeekToken tk ::
            repeat (kindToken EOF, None) k, tk').
Proof.
  intros HL.
  assert (H1 : exists tk1, NextToken tk = Done (PeekToken tk, tk1) /\
                 aToken tk1 = aaToken tk /\ aError tk1 = aaError tk /\
                 PeekPeekToken tk1 = (kindToken EOF, None) /\
                 pos tk1 = pos tk /\ data tk1 = data tk).
  { unfold NextToken. destruct (startsBinary (aaToken tk)).
    - eexists. split; [reflexivity|]. repeat split.
    - rewrite (nextToken_past _ _ _ HL). eexists.
      split; [reflexivity|]. repeat split. }
  destruct H1 as (tk1 & E1 & Ha & He & HB & Hp & Hd).
  assert (H2 : exists tk2, NextToken tk1 = Done (PeekPeekToken tk, tk2) /\
                 exhausted tk2).
  { unfold PeekPeekToken in HB. injection HB as HB1 HB2.
    unfold NextToken, PeekToken. rewrite HB1, Ha, He.
    change (startsBinary (kindToken EOF)) with false. cbv iota.
    rewrite (nextToken_past (data tk1) _ (pos tk1));
      [|rewrite Hp, Hd; exact HL].
    eexists. split; [reflexivity|].
    unfold exhausted, PeekToken, PeekPeekToken. simpl. rewrite HB2.
    repeat split. rewrite Hp, Hd. exact HL. }
  destruct H2 as (tk2 & E2 & Hx).
  destruct (NextTokens_exhausted k tk2 Hx) as (tk3 & E3 & _).
  exists tk3. change (2 + k)%nat with (S (S k)).
  cbn [NextTokens]. rewrite E1, E2, E3. reflexivity.
Qed.

Lemma NextToken_EOF_forever_witness :
  exists tk',
    NextTokens 5 (mkTokenizer (bytes "12 /Name [")
                    None (kindToken StartArray) None (kindToken EOF) 10 8 10) =
      Done ([(kindToken StartArray, None); (kindToken EOF, None);
             (kindToken EOF, None); (kindToken EOF, None);
             (kindToken EOF, None)], tk').
Proof.
  apply (NextToken_EOF_forever
           (mkTokenizer (bytes "12 /Name [")
              None (kindToken StartArray) None (kindToken EOF) 10 8 10) 3).
  vm_compute. discriminate.
Defined.

(** ** The delimiters *)

Lemma byteAt_past (d : list byte) (p : Z) : len d <= p -> byteAt d p = x00.
Proof.
  intros H. unfold byteAt. apply nth_overflow. unfold len in H. lia.
Qed.

(** [read] at a position that is not negative. *)
Lemma read_byteAt (d : list byte) (p : Z) :
  0 <= p ->
  read d p = Done ((byteAt d p, p <? len d), if p <? len d then p + 1 else p).
Proof.
  intros H. destruct (Z.ltb_spec p (len d)) as [H1|H1].
  - apply read_inside. lia.
  - rewrite (byteAt_past d p H1). apply read_past. exact H1.
Qed.

(** Evaluates the comparisons of two known bytes. *)
Ltac eval_beq :=
  repeat match goal with
         | |- context [beq ?a ?b] =>
             let r := eval vm_compute in (beq a b) in
             match r with
             | true => change (beq a b) with true
             | false => change (beq a b) with false
             end
         end;
  cbv iota.

(** Enters [nextToken] at a byte that is known and no whitespace. *)
Ltac enter_token d p Hp Hc :=
  unfold nextToken, budget; cbn [nextTokenRec];
  rewrite (bind_Done _ _ _ _ _ (read_inside d p Hp)); fold (byteAt d p);
  rewrite Hc;
  match goal with
  | |- context [skipWhitespace d ?f ?c true] =>
      rewrite (bind_Done _ _ _ _ _
                 (skipWhitespace_nonws d f c true (p + 1) eq_refl))
  end;
  cbn [negb]; eval_beq.

(** X3: The brackets and braces are tokens of one byte: [StartArray],
    [EndArray], [StartProc] and [EndProc], whatever follows and whatever
    the previous token. *)
Theorem nextToken_brackets (d : list byte) (previous : Token) (p : Z) :
  0 <= p < len d ->
  (byteAt d p = "["%byte ->
   nextToken d previous p = Done ((kindToken StartArray, None), p + 1)) /\
  (byteAt d p = "]"%byte ->
   nextToken d previous p = Done ((kindToken EndArray, None), p + 1)) /\
  (byteAt d p = "{"%byte ->
   nextToken d previous p = Done ((kindToken StartProc, None), p + 1)) /\
  (byteAt d p = "}"%byte ->
   nextToken d previous p = Done ((kindToken EndProc, None), p + 1)).
Proof.
  intros Hp. repeat split; intros Hc; enter_token d p Hp Hc; reflexivity.
Qed.

Lemma nextToken_brackets_witness :
  nextToken (bytes "a]b") zeroToken 1 = Done ((kindToken EndArray, None), 2).
Proof.
  refine (proj1 (proj2 (nextToken_brackets (bytes "a]b") zeroToken 1 _)) _).
  - vm_compute. split; [discriminate | reflexivity].
  - reflexivity.
Defined.

(** X4: The dictionary delimiters take two bytes: [<<] is [StartDic] and [>>]
    is [EndDic]; a [>] that no second [>] follows is the error
    "'>' not expected", with the zero token. *)
Theorem nextToken_dictionary (d : list byte) (previous : Token) (p : Z) :
  0 <= p < len d ->
  (byteAt d p = "<"%byte -> byteAt d (p + 1) = "<"%byte ->
   nextToken d previous p = Done ((kindToken StartDic, None), p + 2)) /\
  (byteAt d p = ">"%byte -> byteAt d (p + 1) = ">"%byte ->
   nextToken d previous p = Done ((kindToken EndDic, None), p + 2)) /\
  (byteAt d p = ">"%byte -> byteAt d (p + 1) <> ">"%byte ->
   nextToken d previous p =
     Done ((zeroToken, Some ErrGtNotExpected), Z.min (p + 2) (len d))).
Proof.
  intros Hp.
  assert (Hin : forall c, byteAt d (p + 1) = c -> c <> x00 -> p + 1 < len d).
  { intros c Hc Hx. destruct (Z.lt_ge_cases (p + 1) (len d)) as [?|H];
      [assumption|]. rewrite (byteAt_past d _ H) in Hc. congruence. }
  repeat split; intros Hc Hc2; enter_token d p Hp Hc;
    rewrite (bind_Done _ _ _ _ _ (read_byteAt d (p + 1) ltac:(lia))).
  - rewrite Hc2. eval_beq.
    pose proof (Hin _ Hc2 ltac:(discriminate)) as H1.
    destruct (Z.ltb_spec (p + 1) (len d)); [|lia].
    apply Done_eq; [reflexivity | lia].
  - rewrite Hc2. eval_beq. cbn [negb].
    pose proof (Hin _ Hc2 ltac:(discriminate)) as H1.
    destruct (Z.ltb_spec (p + 1) (len d)); [|lia].
    apply Done_eq; [reflexivity | lia].
  - rewrite (beq_neq _ _ Hc2). cbn [negb].
    destruct (Z.ltb_spec (p + 1) (len d));
      (apply Done_eq; [reflexivity | lia]).
Qed.

Lemma nextToken_dictionary_witness :
  nextToken (bytes "<</A>") zeroToken 0 = Done ((kindToken StartDic, None), 2) /\
  nextToken (bytes "<</A>") zeroToken 4 =
    Done ((zeroToken, Some ErrGtNotExpected), 5).
Proof.
  split.
  - refine (proj1 (nextToken_dictionary (bytes "<</A>") zeroToken 0 _) _ _).
    + vm_compute. split; [discriminate | reflexivity].
    + reflexivity.
    + reflexivity.
  - refine (proj2 (proj2 (nextToken_dictionary (bytes "<</A>") zeroToken 4 _))
              _ _).
    + vm_compute. split; [discriminate | reflexivity].
    + reflexivity.
    + vm_compute. discriminate.
Defined.

(** ** The classifier *)

(** X18: Every end-of-line byte is a whitespace and every whitespace is a
    delimiter; no decimal or hexadecimal digit is a delimiter. *)
Theorem classifier_inclusions (c : byte) :
  (isEOL c = true -> IsAsciiWhitespace c = true) /\
  (IsAsciiWhitespace c = true -> isDelimiter c = true) /\
  (isDigit c = true -> isDelimiter c = false) /\
  (snd (IsHexChar c) = true -> isDelimiter c = false).
Proof.
  destruct c; vm_compute; repeat split; intros H;
    first [reflexivity | discriminate H].
Qed.

Lemma classifier_inclusions_witness :
  IsAsciiWhitespace CR = true /\ isDelimiter "F" = false.
Proof.
  split.
  - apply (proj1 (classifier_inclusions CR)). reflexivity.
  - apply (proj2 (proj2 (proj2 (classifier_inclusions "F")))). reflexivity.
Defined.

(** X19: [IsHexChar] decodes the hexadecimal digits and nothing else: the
    digit of a value below 16, in either case, gives that value back; a
    byte it accepts is the digit of the value it returns; a byte it
    refuses is returned as it is. *)
Theorem IsHexChar_hexDigit (c : byte) :
  (forall upper v, 0 <= v < 16 ->
     IsHexChar (hexDigit upper v) = (uint8 v, true)) /\
  (snd (IsHexChar c) = true ->
   code (fst (IsHexChar c)) < 16 /\
   (c = hexDigit true (code (fst (IsHexChar c))) \/
    c = hexDigit false (code (fst (IsHexChar c))))) /\
  (snd (IsHexChar c) = false -> fst (IsHexChar c) = c).
Proof.
  split; [|split].
  - intros upper v Hv.
    assert (Hc : v = 0 \/ v = 1 \/ v = 2 \/ v = 3 \/ v = 4 \/ v = 5 \/ v = 6 \/
                 v = 7 \/ v = 8 \/ v = 9 \/ v = 10 \/ v = 11 \/ v = 12 \/
                 v = 13 \/ v = 14 \/ v = 15) by lia.
    destruct upper;
      repeat (destruct Hc as [-> | Hc]; [reflexivity|]); subst; reflexivity.
  - destruct c; vm_compute; intros H; try discriminate H;
      (split; [reflexivity | first [left; reflexivity | right; reflexivity]]).
  - destruct c; vm_compute; intros H; first [reflexivity | discriminate H].
Qed.

Lemma IsHexChar_hexDigit_witness :
  IsHexChar (hexDigit false 11) = (uint8 11, true) /\
  code (fst (IsHexChar "E")) < 16.
Proof.
  split.
  - apply (proj1 (IsHexChar_hexDigit x00)). lia.
  - apply (proj1 (proj2 (IsHexChar_hexDigit "E"))). reflexivity.
Defined.

(** ** Positions in the data *)

Lemma byteAt_inside (d : list byte) (p : Z) :
  byteAt d p <> x00 -> 0 <= p -> p < len d.
Proof.
  intros H Hp. destruct (Z.lt_ge_cases p (len d)) as [?|H1]; [assumption|].
  elim H. exact (byteAt_past d p H1).
Qed.

(** X20: [StreamPosition] skips the end of line that follows [stream]: one
    byte for LF, two bytes for CR LF; where the byte at the current
    position is neither CR nor LF, or the data ends, it returns the
    current position. *)
Theorem StreamPosition_line_end (pr : Tokenizer) :
  0 <= CurrentPosition pr ->
  (byteAt (data pr) (CurrentPosition pr) = LF ->
   StreamPosition pr = Done (CurrentPosition pr + 1)) /\
  (byteAt (data pr) (CurrentPosition pr) = CR ->
   byteAt (data pr) (CurrentPosition pr + 1) = LF ->
   StreamPosition pr = Done (CurrentPosition pr + 2)) /\
  (byteAt (data pr) (CurrentPosition pr) <> CR ->
   byteAt (data pr) (CurrentPosition pr) <> LF ->
   StreamPosition pr = Done (CurrentPosition pr)).
Proof.
  unfold StreamPosition, CurrentPosition. intros H0.
  destruct (Z.ltb_spec (currentPos pr) 0) as [?|_]; [lia|].
  fold (byteAt (data pr) (currentPos pr)).
  split; [|split].
  - intros HLF.
    assert (H1 : currentPos pr < len (data pr))
      by (apply byteAt_inside; [rewrite HLF; discriminate | exact H0]).
    destruct (Z.ltb_spec (currentPos pr) (len (data pr))); [|lia].
    rewrite HLF. change (LF == CR) with false. simpl.
    destruct (Z.ltb_spec (currentPos pr) (len (data pr))); [|lia].
    fold (byteAt (data pr) (currentPos pr)). rewrite HLF, beq_refl.
    reflexivity.
  - intros HCR HLF.
    assert (H1 : currentPos pr + 1 < len (data pr))
      by (apply byteAt_inside; [rewrite HLF; discriminate | lia]).
    destruct (Z.ltb_spec (currentPos pr) (len (data pr))); [|lia].
    rewrite HCR, beq_refl. simpl.
    destruct (Z.ltb_spec (currentPos pr + 1) (len (data pr))); [|lia].
    fold (byteAt (data pr) (currentPos pr + 1)). rewrite HLF, beq_refl.
    simpl. f_equal. lia.
  - intros HCR HLF. rewrite (beq_neq _ _ HCR), andb_false_r.
    fold (byteAt (data pr) (currentPos pr)).
    rewrite (beq_neq _ _ HLF), andb_false_r. reflexivity.
Qed.

Lemma StreamPosition_line_end_witness :
  StreamPosition
    (mkTokenizer (bytes "stream" ++ [CR; LF] ++ bytes "abc")
       None (mkToken (bytes "abc") Other) None (kindToken EOF) 11 6 11)
  = Done 8.
Proof.
  refine (proj1 (proj2 (StreamPosition_line_end
    (mkTokenizer (bytes "stream" ++ [CR; LF] ++ bytes "abc")
       None (mkToken (bytes "abc") Other) None (kindToken EOF) 11 6 11) _))
    _ _).
  - vm_compute. discriminate.
  - reflexivity.
  - reflexivity.
Defined.

Lemma length_skipn_Z (d : list byte) (p : Z) :
  0 <= p <= len d ->
  Z.of_nat (List.length (skipn (Z.to_nat p) d)) = len d - p.
Proof. intros H. rewrite length_skipn. unfold len in *. lia. Qed.

Lemma readCharString_run (d : list byte) (length p : Z) :
  0 <= p <= len d -> p + 1 < 2 ^ 63 ->
  - 2 ^ 63 <= p + 1 + length < 2 ^ 63 ->
  readCharString d length p =
    if (0 <=? length) && (p <? len d) then
      Done (mkToken (firstn (Z.to_nat length) (skipn (Z.to_nat (p + 1)) d))
              CharString, p + 1 + length)
    else Panic.
Proof.
  intros Hp HL Hn. unfold readCharString.
  rewrite (wrap64_small (p + 1)) by lia.
  rewrite (wrap64_small (p + 1 + length)) by lia.
  destruct (Z.leb_spec 0 (p + 1)) as [_|?]; [|lia]. cbn [andb].
  destruct (Z.leb_spec 0 length) as [H0|H0];
    destruct (Z.ltb_spec p (len d)) as [H1|H1]; cbn [andb].
  - destruct (Z.leb_spec (len d) (p + 1 + length)) as [H2|H2].
    + destruct (Z.leb_spec (p + 1) (len d)) as [_|?]; [|lia].
      apply Done_eq; [|reflexivity]. f_equal. unfold slice.
      rewrite !firstn_all2; [reflexivity| |];
        pose proof (length_skipn_Z d (p + 1) ltac:(lia)); lia.
    + destruct (Z.leb_spec (p + 1) (p + 1 + length)) as [_|?]; [|lia].
      apply Done_eq; [|reflexivity]. f_equal. unfold slice.
      f_equal. f_equal. lia.
  - destruct (Z.leb_spec (len d) (p + 1 + length)) as [H2|H2].
    + destruct (Z.leb_spec (p + 1) (len d)) as [?|_]; [lia | reflexivity].
    + lia.
  - destruct (Z.leb_spec (len d) (p + 1 + length)) as [H2|H2]; [lia|].
    destruct (Z.leb_spec (p + 1) (p + 1 + length)) as [?|_];
      [lia | reflexivity].
  - destruct (Z.leb_spec (len d) (p + 1 + length)) as [H2|H2].
    + destruct (Z.leb_spec (p + 1) (len d)) as [?|_]; [lia | reflexivity].
    + destruct (Z.leb_spec (p + 1) (p + 1 + length)) as [?|_];
        [lia | reflexivity].
Qed.

(** X17: [readCharString] from a position inside the data, with a length
    that is not negative: one byte is passed over, the token holds the
    bytes that follow, [length] of them or as many as are left, and the
    position moves by [length + 1] in any case.  With a negative length,
    or at the end of the data, it panics. *)
Theorem readCharString_copies (d : list byte) (length p : Z) :
  0 <= p <= len d -> p + 1 < 2 ^ 63 ->
  - 2 ^ 63 <= p + 1 + length < 2 ^ 63 ->
  readCharString d length p =
    if (0 <=? length) && (p <? len d) then
      Done (mkToken (firstn (Z.to_nat length) (skipn (Z.to_nat (p + 1)) d))
              CharString, p + 1 + length)
    else Panic.
Proof. exact (readCharString_run d length p). Qed.

Lemma readCharString_copies_witness :
  readCharString (bytes "3 RD abcdef") 3 4 =
    Done (mkToken (bytes "abc") CharString, 8) /\
  readCharString (bytes "9 RD ab") 9 4 =
    Done (mkToken (bytes "ab") CharString, 14).
Proof.
  split.
  - apply (readCharString_copies (bytes "3 RD abcdef") 3 4);
      vm_compute; split; first [reflexivity | discriminate].
  - apply (readCharString_copies (bytes "9 RD ab") 9 4);
      vm_compute; split; first [reflexivity | discriminate].
Defined.

(** ** Skipping bytes *)

Lemma SetPosition_position (p : Z) (tk tk' : Tokenizer) :
  SetPosition p tk = Done tk' -> data tk' = data tk /\ currentPos tk' = p.
Proof.
  intros H. destruct (SetPosition_filled p tk tk' H) as (H1 & H2 & _).
  split; assumption.
Qed.

Lemma Bytes_suffix (pr : Tokenizer) :
  0 <= currentPos pr ->
  Bytes pr = Done (skipn (Z.to_nat (currentPos pr)) (data pr)).
Proof.
  intros H. unfold Bytes.
  destruct (Z.leb_spec (len (data pr)) (currentPos pr)) as [H1|H1].
  - rewrite skipn_all2; [reflexivity|]. unfold len in H1. lia.
  - destruct (Z.ltb_spec (currentPos pr) 0); [lia | reflexivity].
Qed.

Lemma SkipBytes_run (n : Z) (pr pr' : Tokenizer) (out : list byte) :
  0 <= CurrentPosition pr <= len (data pr) ->
  0 <= n -> CurrentPosition pr + n < 2 ^ 63 ->
  SkipBytes n pr = Done (out, pr') ->
  out = firstn (Z.to_nat n) (skipn (Z.to_nat (CurrentPosition pr)) (data pr)) /\
  Z.of_nat (List.length out) = Z.min n (len (data pr) - CurrentPosition pr) /\
  CurrentPosition pr' = CurrentPosition pr + Z.of_nat (List.length out) /\
  data pr' = data pr.
Proof.
  unfold CurrentPosition, SkipBytes. intros Hc Hn Hw.
  rewrite (wrap64_small (currentPos pr + n)) by lia.
  set (target := if len (data pr) <? currentPos pr + n
                 then len (data pr) else currentPos pr + n).
  assert (Ht : target = Z.min (currentPos pr + n) (len (data pr)))
    by (unfold target;
        destruct (Z.ltb_spec (len (data pr)) (currentPos pr + n)); lia).
  destruct ((0 <=? currentPos pr) && (currentPos pr <=? target));
    [|discriminate].
  destruct (SetPosition target pr) as [tk| |] eqn:E; try discriminate.
  intros H. injection H as <- <-.
  destruct (SetPosition_position _ _ _ E) as [Hd Hp].
  assert (Hout : slice (data pr) (currentPos pr) target =
                 firstn (Z.to_nat n)
                   (skipn (Z.to_nat (currentPos pr)) (data pr))).
  { unfold slice.
    pose proof (length_skipn_Z (data pr) (currentPos pr) Hc) as HL.
    destruct (Z.le_gt_cases (currentPos pr + n) (len (data pr))) as [H1|H1].
    - f_equal. lia.
    - rewrite !firstn_all2; [reflexivity | lia | lia]. }
  rewrite Hout. split; [reflexivity|].
  assert (HL : Z.of_nat
                 (List.length
                    (firstn (Z.to_nat n)
                       (skipn (Z.to_nat (currentPos pr)) (data pr)))) =
               Z.min n (len (data pr) - currentPos pr)).
  { rewrite length_firstn.
    pose proof (length_skipn_Z (data pr) (currentPos pr) Hc). lia. }
  rewrite HL. split; [reflexivity|]. split; [lia | exact Hd].
Qed.



(** X22: The bytes [SkipBytes] returns, followed by the bytes [Bytes] returns
    afterwards, are the bytes [Bytes] returned before: nothing is lost and
    nothing is read twice. *)
Theorem SkipBytes_then_Bytes (n : Z) (pr pr' : Tokenizer) (out : list byte) :
  0 <= CurrentPosition pr <= len (data pr) ->
  0 <= n -> CurrentPosition pr + n < 2 ^ 63 ->
  SkipBytes n pr = Done (out, pr') ->
  exists before rest,
    Bytes pr = Done before /\ Bytes pr' = Done rest /\ before = out ++ rest.
Proof.
  intros Hc Hn Hw H.
  destruct (SkipBytes_run n pr pr' out Hc Hn Hw H) as (Hout & Hlen & Hpos & Hd).
  unfold CurrentPosition in *.
  exists (skipn (Z.to_nat (currentPos pr)) (data pr)),
         (skipn (Z.to_nat (currentPos pr')) (data pr')).
  split; [apply Bytes_suffix; lia|].
  split; [apply Bytes_suffix; lia|].
  rewrite Hd, Hpos, Hout.
  set (l := skipn (Z.to_nat (currentPos pr)) (data pr)).
  replace (Z.to_nat (currentPos pr + Z.of_nat (List.length (firstn (Z.to_nat n) l))))
    with (List.length (firstn (Z.to_nat n) l) + Z.to_nat (currentPos pr))%nat
    by lia.
  rewrite <- skipn_skipn. fold l.
  rewrite length_firstn.
  destruct (Nat.le_gt_cases (Z.to_nat n) (List.length l)) as [H1|H1].
  - rewrite Nat.min_l by exact H1. symmetry. apply firstn_skipn.
  - rewrite Nat.min_r by lia. rewrite firstn_all2 by lia.
    rewrite skipn_all. rewrite app_nil_r. reflexivity.
Qed.

Lemma SkipBytes_then_Bytes_witness :
  exists pr' rest,
    SkipBytes 3 (mkTokenizer (bytes "ID abc EI")
                   None (mkToken (bytes "abc") Other) None
                   (mkToken (bytes "EI") Other) 9 2 6)
    = Done (bytes " ab", pr') /\
    Bytes pr' = Done rest /\ bytes " abc EI" = bytes " ab" ++ rest.
Proof.
  set (tk := mkTokenizer (bytes "ID abc EI")
                   None (mkToken (bytes "abc") Other) None
                   (mkToken (bytes "EI") Other) 9 2 6).
  assert (Hc : 0 <= CurrentPosition tk <= len (data tk))
    by (vm_compute; split; intro H; discriminate H).
  destruct (SkipBytes 3 tk)
    as [[out pr']| |] eqn:E; try (vm_compute in E; discriminate E).
  destruct (SkipBytes_then_Bytes 3 tk pr' out Hc
              ltac:(lia) ltac:(vm_compute; reflexivity) E)
    as (before & rest & Hb & Hr & Heq).
  assert (Hout : out = bytes " ab")
    by (vm_compute in E; injection E as <- _; reflexivity).
  exists pr', rest. subst out. split; [reflexivity|]. split; [exact Hr|].
  rewrite <- Heq. vm_compute in Hb. injection Hb as <-. reflexivity.
Defined.

(** X23: [SkipBytes] with a negative count panics: the slice it takes would
    end before it starts. *)
Theorem SkipBytes_negative (n : Z) (pr : Tokenizer) :
  0 <= CurrentPosition pr < 2 ^ 63 ->
  - 2 ^ 63 <= n < 0 ->
  SkipBytes n pr = Panic.
Proof.
  unfold CurrentPosition, SkipBytes. intros Hc Hn.
  rewrite (wrap64_small (currentPos pr + n)) by lia.
  destruct (Z.ltb_spec (len (data pr)) (currentPos pr + n)) as [H1|H1].
  - destruct (Z.leb_spec (currentPos pr) (len (data pr))) as [?|_]; [lia|].
    rewrite andb_false_r. reflexivity.
  - destruct (Z.leb_spec (currentPos pr) (currentPos pr + n)) as [?|_]; [lia|].
    rewrite andb_false_r. reflexivity.
Qed.

Lemma SkipBytes_negative_witness :
  SkipBytes (-1) (mkTokenizer (bytes "ID abc EI")
                    None (mkToken (bytes "abc") Other) None
                    (mkToken (bytes "EI") Other) 9 2 6) = Panic.
Proof.
  apply SkipBytes_negative; vm_compute; split;
    first [reflexivity | intro H; discriminate H].
Defined.

(** ** The line end before a token *)

Lemma isEOL_whitespace (c : byte) :
  isEOL c = true -> IsAsciiWhitespace c = true.
Proof. destruct c; vm_compute; intros H; first [reflexivity | discriminate H]. Qed.

Lemma nth_offs (pre : list byte) (c : byte) (tail : list byte) :
  nth (Z.to_nat (offs pre)) (pre ++ c :: tail) x00 = c.
Proof. unfold offs. rewrite Nat2Z.id. apply nth_middle. Qed.

Lemma eolLoop_run (rest w : list byte) :
  forall (pre : list byte) (fuel : nat),
    forallb isBlank w = true ->
    headIs (fun c => negb (isBlank c)) rest ->
    (List.length w < fuel)%nat ->
    eolLoop fuel (pre ++ w ++ rest) (offs pre) = Done (isEOL (peekByte rest)).
Proof.
  induction w as [|x w IH]; intros pre fuel Hw Hr Hf;
    (destruct fuel as [|fuel]; [simpl in Hf; lia|]).
  - cbn [app eolLoop]. unfold len, offs. rewrite length_app.
    destruct rest as [|c rest].
    + simpl List.length.
      destruct (Z.ltb_spec (Z.of_nat (List.length pre))
                  (Z.of_nat (List.length pre + 0))) as [?|_]; [lia|].
      reflexivity.
    + simpl List.length.
      destruct (Z.ltb_spec (Z.of_nat (List.length pre))
                  (Z.of_nat (List.length pre + S (List.length rest))))
        as [_|?]; [|lia].
      destruct (Z.ltb_spec (Z.of_nat (List.length pre)) 0) as [?|_]; [lia|].
      fold (offs pre). rewrite nth_offs. cbn [peekByte hd].
      simpl in Hr. unfold isBlank in Hr.
      destruct (IsAsciiWhitespace c) eqn:E1; cbn [negb].
      * destruct (isEOL c); [reflexivity | discriminate Hr].
      * destruct (isEOL c) eqn:E2; [|reflexivity].
        rewrite (isEOL_whitespace c E2) in E1. discriminate E1.
  - simpl in Hw. apply andb_true_iff in Hw as [Hx Hw].
    unfold isBlank in Hx. apply andb_true_iff in Hx as [Hx1 Hx2].
    apply negb_true_iff in Hx2.
    cbn [app eolLoop]. unfold len. rewrite length_app. simpl List.length.
    unfold offs at 1 2.
    destruct (Z.ltb_spec (Z.of_nat (List.length pre))
                (Z.of_nat (List.length pre + S (List.length (w ++ rest)))))
      as [_|?]; [|lia].
    destruct (Z.ltb_spec (Z.of_nat (List.length pre)) 0) as [?|_]; [lia|].
    fold (offs pre). rewrite nth_offs. rewrite Hx1, Hx2. cbn [negb].
    replace (offs pre + 1) with (offs (pre ++ [x]))
      by (unfold offs; rewrite length_app; simpl; lia).
    replace (pre ++ x :: w ++ rest) with ((pre ++ [x]) ++ w ++ rest)
      by (rewrite <- app_assoc; reflexivity).
    apply IH; [exact Hw | exact Hr | simpl in Hf; lia].
Qed.

(** X24: [HasEOLBeforeToken] looks at the bytes from the current position on:
    after the whitespace that ends no line, it answers true when the next
    byte is CR or LF, and false when it is another byte or the data
    ends. *)
Theorem HasEOLBeforeToken_blanks (pr : Tokenizer) (pre w rest : list byte) :
  data pr = pre ++ w ++ rest ->
  CurrentPosition pr = offs pre ->
  forallb isBlank w = true ->
  headIs (fun c => negb (isBlank c)) rest ->
  HasEOLBeforeToken pr = Done (isEOL (peekByte rest)).
Proof.
  unfold HasEOLBeforeToken, CurrentPosition. intros -> -> Hw Hr.
  apply eolLoop_run; [exact Hw | exact Hr|].
  unfold budget. rewrite !length_app. lia.
Qed.

Lemma HasEOLBeforeToken_blanks_witness :
  HasEOLBeforeToken
    (mkTokenizer (bytes "12  " ++ [LF] ++ bytes "ab")
       None (mkToken (bytes "ab") Other) None (kindToken EOF) 7 2 7)
  = Done true /\
  HasEOLBeforeToken
    (mkTokenizer (bytes "12  ab")
       None (mkToken (bytes "ab") Other) None (kindToken EOF) 6 2 6)
  = Done false.
Proof.
  split.
  - apply (HasEOLBeforeToken_blanks _ (bytes "12") (bytes "  ")
             (LF :: bytes "ab")); reflexivity.
  - apply (HasEOLBeforeToken_blanks _ (bytes "12") (bytes "  ")
             (bytes "ab")); reflexivity.
Defined.

(** ** Whitespace and comments *)

Lemma bind_more {A B : Type} (m : Scan A) (k k' : A -> Scan B) (p : Z) :
  bind m k p <> OutOfFuel ->
  (forall a q, m p = Done (a, q) -> k a q <> OutOfFuel -> k' a q = k a q) ->
  bind m k' p = bind m k p.
Proof.
  unfold bind. destruct (m p) as [[a q]| |]; intros H Hk;
    [apply (Hk a q eq_refl H) | reflexivity | reflexivity].
Qed.

Lemma skipWhitespace_S (d : list byte) (fuel : nat) (c : byte) (ok : bool) :
  skipWhitespace d (S fuel) c ok =
    if ok && IsAsciiWhitespace c then
      '(ch', ok') <- read d ;; skipWhitespace d fuel ch' ok'
    else ret (c, ok).
Proof. reflexivity. Qed.

(** More budget does not change what the whitespace loop returns. *)
Lemma skipWhitespace_more (d : list byte) (fuel : nat) :
  forall c ok q,
    skipWhitespace d fuel c ok q <> OutOfFuel ->
    skipWhitespace d (S fuel) c ok q = skipWhitespace d fuel c ok q.
Proof.
  induction fuel as [|fuel IH]; intros c ok q H.
  - rewrite skipWhitespace_S. simpl in *.
    destruct (ok && IsAsciiWhitespace c); [elim H; reflexivity | reflexivity].
  - rewrite (skipWhitespace_S d (S fuel)). rewrite (skipWhitespace_S d fuel) in *.
    destruct (ok && IsAsciiWhitespace c); [|reflexivity].
    apply bind_more; [exact H|]. intros [c' ok'] q' _ H'. apply IH. exact H'.
Qed.

(** One byte of whitespace before a token changes nothing. *)
Lemma nextToken_skip_one (d : list byte) (previous : Token) (p : Z) :
  0 <= p < len d ->
  IsAsciiWhitespace (byteAt d p) = true ->
  nextToken d previous p = nextToken d previous (p + 1).
Proof.
  intros Hp Hw. unfold nextToken, budget. cbn [nextTokenRec].
  rewrite (bind_Done _ _ _ _ _ (read_inside d p Hp)). fold (byteAt d p).
  unfold budget at 1. rewrite skipWhitespace_S, Hw. cbn [andb].
  unfold bind. cbv beta.
  rewrite (read_byteAt d (p + 1)) by lia.
  destruct (Z.ltb_spec (p + 1) (len d)) as [H1|H1]; cbv iota.
  - change (budget d) with (S (List.length d)).
    rewrite skipWhitespace_more; [reflexivity|].
    pose proof (skipWhitespace_triple d p (List.length d)
                  (byteAt d (p + 1)) true (p + 1 + 1)) as T.
    unfold triple in T. intros E. rewrite E in T. apply T.
    + unfold after. repeat split; try lia; discriminate.
    + intros _. unfold len in *. lia.
  - rewrite !skipWhitespace_stop. reflexivity.
Qed.

(** X5: Whitespace before a token is skipped: the scan from the start of a
    run of whitespace gives what the scan from its end gives. *)
Theorem nextToken_skips_whitespace (pre w rest : list byte)
  (previous : Token) :
  forallb IsAsciiWhitespace w = true ->
  nextToken (pre ++ w ++ rest) previous (offs pre) =
  nextToken (pre ++ w ++ rest) previous (offs (pre ++ w)).
Proof.
  revert pre. induction w as [|x w IH]; intros pre Hw.
  - rewrite app_nil_r. reflexivity.
  - simpl in Hw. apply andb_true_iff in Hw as [Hx Hw].
    rewrite (nextToken_skip_one (pre ++ (x :: w) ++ rest) previous (offs pre)).
    + replace (offs pre + 1) with (offs (pre ++ [x]))
        by (unfold offs; rewrite length_app; simpl; lia).
      replace (pre ++ (x :: w) ++ rest) with ((pre ++ [x]) ++ w ++ rest)
        by (rewrite <- app_assoc; reflexivity).
      rewrite (IH (pre ++ [x]) Hw). rewrite <- !app_assoc. reflexivity.
    + unfold len, offs. rewrite length_app. simpl List.length. lia.
    + unfold byteAt. cbn [app]. rewrite nth_offs. exact Hx.
Qed.

Lemma nextToken_skips_whitespace_witness :
  nextToken (bytes "a  " ++ [x09; LF] ++ bytes "/b") zeroToken 1 =
  nextToken (bytes "a  " ++ [x09; LF] ++ bytes "/b") zeroToken 5.
Proof.
  apply (nextToken_skips_whitespace (bytes "a") (bytes "  " ++ [x09; LF])
           (bytes "/b") zeroToken).
  reflexivity.
Defined.

Lemma skipComment_stop (d : list byte) (fuel : nat) (c : byte) (ok : bool)
  (p : Z) :
  ok && negb (c == CR) && negb (c == LF) = false ->
  skipComment d fuel c ok p = Done ((c, ok), p).
Proof. intros H. destruct fuel; simpl; rewrite H; reflexivity. Qed.

Lemma skipComment_S (d : list byte) (fuel : nat) (c : byte) (ok : bool) :
  skipComment d (S fuel) c ok =
    if ok && negb (c == CR) && negb (c == LF) then
      '(ch', ok') <- read d ;; skipComment d fuel ch' ok'
    else ret (c, ok).
Proof. reflexivity. Qed.

Lemma isEOL_split (c : byte) :
  negb (isEOL c) = negb (c == CR) && negb (c == LF).
Proof. unfold isEOL. destruct (c == LF), (c == CR); reflexivity. Qed.

(** The comment loop takes the bytes up to the end of the line. *)
Lemma skipComment_run (d rest body : list byte) :
  forall (p : Z) (fuel : nat),
    suffixAt d p (body ++ rest) ->
    forallb (fun c => negb (isEOL c)) body = true ->
    headIs isEOL rest ->
    (List.length body < fuel)%nat ->
    skipComment d fuel (peekByte (body ++ rest)) (peekOk (body ++ rest))
      (p + peekStep (body ++ rest)) =
      Done ((peekByte rest, peekOk rest), p + offs body + peekStep rest).
Proof.
  induction body as [|x body IH]; intros p fuel Hs Hb Hr Hf.
  - cbn [app]. rewrite skipComment_stop.
    + apply Done_eq; [reflexivity | unfold offs; simpl; lia].
    + destruct rest as [|c rest]; [reflexivity|]. simpl in Hr.
      cbn [peekByte peekOk hd andb]. rewrite <- isEOL_split, Hr. reflexivity.
  - destruct fuel as [|fuel]; [simpl in Hf; lia|].
    simpl in Hb. apply andb_true_iff in Hb as [Hx Hb].
    cbn [app peekByte peekOk peekStep hd] in *.
    rewrite skipComment_S. cbn [andb]. rewrite <- isEOL_split, Hx.
    destruct (read_cons _ _ _ _ Hs) as [_ Hs'].
    rewrite (bind_Done _ _ _ _ _ (read_peek _ _ _ Hs')).
    rewrite (IH (p + 1) fuel Hs' Hb Hr); [|simpl in Hf; lia].
    apply Done_eq; [reflexivity|]. unfold offs. simpl List.length. lia.
Qed.

(** More budget does not change what [nextToken] returns. *)
Lemma nextTokenRec_more (d : list byte) (previous : Token) (fuel : nat) :
  forall (fuel' : nat) (q : Z),
    nextTokenRec d fuel previous q <> OutOfFuel ->
    (fuel <= fuel')%nat ->
    nextTokenRec d fuel' previous q = nextTokenRec d fuel previous q.
Proof.
  induction fuel as [|fuel IH]; intros fuel' q H Hf;
    [elim H; reflexivity|].
  destruct fuel' as [|fuel']; [lia|].
  cbn [nextTokenRec] in *.
  apply bind_more; [exact H|]. clear H. intros [c ok] q1 _.
  intros H. apply bind_more; [exact H|]. clear H. intros [c1 ok1] q2 _.
  repeat match goal with
         | |- (if ?b then ret ?x else _) _ <> OutOfFuel -> _ =>
             destruct b; [intros _; reflexivity|]
         end.
  destruct (c1 == "/"%byte); [intros _; reflexivity|].
  destruct (c1 == ">"%byte); [intros _; reflexivity|].
  destruct (c1 == "<"%byte); [intros _; reflexivity|].
  destruct (c1 == "%"%byte); [|intros _; reflexivity].
  intros H. apply bind_more; [exact H|]. clear H. intros [c2 ok2] q3 _.
  intros H. apply bind_more; [exact H|]. clear H. intros [c3 ok3] q4 _.
  intros H. apply IH; [exact H | lia].
Qed.

(** X6: A comment is skipped: the scan from [%] gives what the scan from the
    byte after the end of its line gives (from the end of the data, when
    no line end follows). *)
Theorem nextToken_skips_comment (pre body rest : list byte)
  (previous : Token) :
  forallb (fun c => negb (isEOL c)) body = true ->
  headIs isEOL rest ->
  nextToken (pre ++ "%"%byte :: body ++ rest) previous (offs pre) =
  nextToken (pre ++ "%"%byte :: body ++ rest) previous
    (offs pre + 1 + offs body + peekStep rest).
Proof.
  intros Hb Hr.
  pose proof (suffixAt_start pre ("%"%byte :: body ++ rest)) as Hs.
  set (d := pre ++ "%"%byte :: body ++ rest) in *.
  set (p := offs pre) in *.
  destruct (read_cons _ _ _ _ Hs) as [Hread Hs1].
  unfold nextToken at 1. unfold budget at 1. cbn [nextTokenRec].
  rewrite (bind_Done _ _ _ _ _ Hread).
  rewrite (bind_Done _ _ _ _ _
             (skipWhitespace_nonws d _ "%"%byte true (p + 1) eq_refl)).
  cbn [negb]. eval_beq.
  rewrite (bind_Done _ _ _ _ _ (read_peek _ _ _ Hs1)).
  assert (Hf : (List.length body < budget d)%nat).
  { unfold budget. apply suffixAt_length in Hs1.
    rewrite length_app in Hs1. lia. }
  rewrite (bind_Done _ _ _ _ _
             (skipComment_run d rest body (p + 1) (budget d) Hs1 Hb Hr Hf)).
  symmetry. apply nextTokenRec_more; [|unfold budget; lia].
  pose proof (nextTokenRec_triple d (List.length d) previous
                (p + 1 + offs body + peekStep rest)) as T.
  unfold triple in T. intros E. rewrite E in T. apply T.
  - unfold p, offs. destruct rest; simpl peekStep; lia.
  - apply suffixAt_length in Hs. simpl List.length in Hs.
    unfold len, p, offs. destruct rest; simpl peekStep; lia.
Qed.

Lemma nextToken_skips_comment_witness :
  nextToken (bytes "1 % one" ++ [LF] ++ bytes "2") zeroToken 2 =
  nextToken (bytes "1 % one" ++ [LF] ++ bytes "2") zeroToken 8.
Proof.
  apply (nextToken_skips_comment (bytes "1 ") (bytes " one") (LF :: bytes "2")
           zeroToken); reflexivity.
Defined.

(** ** Names *)

Lemma nameLoop_body (d tail body : list byte) :
  nameBody body ->
  forall (out : list byte) (p : Z) (fuel : nat),
    suffixAt d p (body ++ tail) ->
    (List.length body <= fuel)%nat ->
    exists fuel',
      (fuel - List.length body <= fuel')%nat /\
      nameLoop d fuel out p = nameLoop d fuel' (out ++ body) (p + offs body).
Proof.
  induction 1 as [|c l Hc Hh _ IH|h1 h2 l H1 H2 _ IH];
    intros out p fuel Hs Hf.
  - exists fuel. split; [lia|]. rewrite app_nil_r. unfold offs. simpl.
    rewrite Z.add_0_r. reflexivity.
  - destruct fuel as [|fuel]; [simpl in Hf; lia|].
    cbn [app] in Hs. destruct (read_cons _ _ _ _ Hs) as [Hread Hs1].
    destruct (IH (out ++ [c]) (p + 1) fuel Hs1 ltac:(simpl in Hf; lia))
      as (fuel' & Hf' & E).
    exists fuel'. split; [simpl; lia|].
    cbn [nameLoop]. rewrite (bind_Done _ _ _ _ _ Hread).
    rewrite Hc. cbn [negb orb]. rewrite (beq_neq _ _ Hh).
    rewrite E. rewrite <- app_assoc. unfold offs. simpl List.length.
    f_equal. lia.
  - destruct fuel as [|fuel]; [simpl in Hf; lia|].
    cbn [app] in Hs. destruct (read_cons _ _ _ _ Hs) as [Hread Hs1].
    destruct (read_cons _ _ _ _ Hs1) as [Hread1 Hs2].
    destruct (read_cons _ _ _ _ Hs2) as [Hread2 Hs3].
    destruct (IH ((out ++ ["#"%byte]) ++ [h1; h2]) (p + 1 + 1 + 1) fuel Hs3
                ltac:(simpl in Hf; lia)) as (fuel' & Hf' & E).
    exists fuel'. split; [simpl; lia|].
    cbn [nameLoop]. rewrite (bind_Done _ _ _ _ _ Hread).
    cbn [negb orb]. eval_beq.
    change (isDelimiter "#"%byte) with false. cbv iota.
    rewrite (bind_Done _ _ _ _ _ Hread1). rewrite (bind_Done _ _ _ _ _ Hread2).
    unfold hexDecodeFails. rewrite H1, H2. cbn [andb negb].
    rewrite E. rewrite <- !app_assoc. unfold offs. simpl List.length.
    f_equal. lia.
Qed.

Lemma nameLoop_end (d rest : list byte) (fuel : nat) (out : list byte)
  (p : Z) :
  suffixAt d p rest -> headIs isDelimiter rest ->
  nameLoop d (S fuel) out p = Done ((mkToken out Name, None), p).
Proof.
  intros Hs Hr. cbn [nameLoop]. rewrite (bind_Done _ _ _ _ _ (read_peek _ _ _ Hs)).
  destruct rest as [|c rest]; cbn [peekByte peekOk peekStep hd negb orb].
  - unfold bind, when, ret. apply Done_eq; [reflexivity | lia].
  - simpl in Hr. rewrite Hr. unfold bind, when, unread, ret.
    apply Done_eq; [reflexivity | lia].
Qed.

Lemma nameLoop_corrupted (d rest : list byte) (fuel : nat) (out : list byte)
  (p : Z) :
  suffixAt d p ("#"%byte :: rest) ->
  hexDecodeFails (peekByte rest) (peekByte (tl rest)) = true ->
  nameLoop d (S fuel) out p =
    Done ((zeroToken, Some ErrCorruptedName),
          p + 1 + peekStep rest + peekStep (tl rest)).
Proof.
  intros Hs Hh. destruct (read_cons _ _ _ _ Hs) as [Hread Hs1].
  cbn [nameLoop]. rewrite (bind_Done _ _ _ _ _ Hread).
  cbn [negb orb]. eval_beq. change (isDelimiter "#"%byte) with false. cbv iota.
  rewrite (bind_Done _ _ _ _ _ (read_peek _ _ _ Hs1)).
  assert (Hs2 : suffixAt d (p + 1 + peekStep rest) (tl rest)).
  { destruct rest as [|h rest]; cbn [tl peekStep].
    - rewrite Z.add_0_r. exact Hs1.
    - exact (proj2 (read_cons _ _ _ _ Hs1)). }
  rewrite (bind_Done _ _ _ _ _ (read_peek _ _ _ Hs2)).
  rewrite Hh. reflexivity.
Qed.

(** Enters [nextToken] at the first byte of [c :: tail], which is no
    whitespace. *)
Ltac enter_at Hs :=
  let Hread := fresh "Hread" in
  let Hs1 := fresh "Hs" in
  destruct (read_cons _ _ _ _ Hs) as [Hread Hs1];
  unfold nextToken; unfold budget at 1; cbn [nextTokenRec];
  rewrite (bind_Done _ _ _ _ _ Hread);
  match goal with
  | |- context [skipWhitespace ?d ?f ?c true] =>
      rewrite (bind_Done _ _ _ _ _
                 (skipWhitespace_nonws d f c true _ eq_refl))
  end;
  cbn [negb]; eval_beq.

(** X7: A name is [/] and the bytes up to the next delimiter or the end of
    the data; the delimiter is left to be read.  The value is the bytes
    after [/] as they are: [#] and its two hexadecimal digits are kept,
    not decoded. *)
Theorem nextToken_name (pre body rest : list byte) (previous : Token) :
  nameBody body ->
  headIs isDelimiter rest ->
  nextToken (pre ++ "/"%byte :: body ++ rest) previous (offs pre) =
    Done ((mkToken body Name, None), offs pre + 1 + offs body).
Proof.
  intros Hb Hr.
  pose proof (suffixAt_start pre ("/"%byte :: body ++ rest)) as Hs.
  set (d := pre ++ "/"%byte :: body ++ rest) in *.
  set (p := offs pre) in *.
  enter_at Hs.
  assert (Hf : (List.length body <= budget d)%nat).
  { unfold budget. apply suffixAt_length in Hs0.
    rewrite length_app in Hs0. lia. }
  destruct (nameLoop_body d rest body Hb [] (p + 1) (budget d) Hs0 Hf)
    as (fuel' & Hf' & ->).
  destruct fuel' as [|fuel'].
  - unfold budget in Hf'. apply suffixAt_length in Hs0.
    rewrite length_app in Hs0. lia.
  - apply nameLoop_end with (rest := rest); [|exact Hr].
    destruct Hs0 as (pre0 & E & Ep). exists (pre0 ++ body).
    rewrite <- app_assoc. split; [exact E|].
    unfold offs in *. rewrite length_app. lia.
Qed.

Lemma nextToken_name_witness :
  nextToken (bytes "<</Type#20A/Font>>") zeroToken 2 =
    Done ((mkToken (bytes "Type#20A") Name, None), 11).
Proof.
  apply (nextToken_name (bytes "<<") (bytes "Type#20A") (bytes "/Font>>")
           zeroToken).
  - repeat first [ apply nameBody_end
                 | apply nameBody_escape; [reflexivity | reflexivity |]
                 | apply nameBody_byte; [reflexivity | discriminate |] ].
  - reflexivity.
Defined.

(** X8: A [#] in a name that is not followed by two hexadecimal digits is
    the error "corrupted name object", with the zero token; the two bytes
    after [#], or those that are left, are consumed. *)
Theorem nextToken_name_corrupted (pre body rest : list byte)
  (previous : Token) :
  nameBody body ->
  hexDecodeFails (peekByte rest) (peekByte (tl rest)) = true ->
  nextToken (pre ++ "/"%byte :: body ++ "#"%byte :: rest) previous (offs pre) =
    Done ((zeroToken, Some ErrCorruptedName),
          offs pre + 1 + offs body + 1 + peekStep rest + peekStep (tl rest)).
Proof.
  intros Hb Hh.
  pose proof (suffixAt_start pre ("/"%byte :: body ++ "#"%byte :: rest)) as Hs.
  set (d := pre ++ "/"%byte :: body ++ "#"%byte :: rest) in *.
  set (p := offs pre) in *.
  enter_at Hs.
  assert (Hf : (List.length body <= budget d)%nat).
  { unfold budget. apply suffixAt_length in Hs0.
    rewrite length_app in Hs0. lia. }
  destruct (nameLoop_body d ("#"%byte :: rest) body Hb [] (p + 1) (budget d)
              Hs0 Hf) as (fuel' & Hf' & ->).
  destruct fuel' as [|fuel'].
  - unfold budget in Hf'. apply suffixAt_length in Hs0.
    rewrite length_app in Hs0. lia.
  - apply nameLoop_corrupted; [|exact Hh].
    destruct Hs0 as (pre0 & E & Ep). exists (pre0 ++ body).
    rewrite <- app_assoc. split; [exact E|].
    unfold offs in *. rewrite length_app. lia.
Qed.

Lemma nextToken_name_corrupted_witness :
  nextToken (bytes "/A#2G ") zeroToken 0 =
    Done ((zeroToken, Some ErrCorruptedName), 5) /\
  nextToken (bytes "/A#2") zeroToken 0 =
    Done ((zeroToken, Some ErrCorruptedName), 4).
Proof.
  split.
  - apply (nextToken_name_corrupted [] (bytes "A") (bytes "2G ") zeroToken).
    + apply nameBody_byte; [reflexivity | discriminate | apply nameBody_end].
    + reflexivity.
  - apply (nextToken_name_corrupted [] (bytes "A") (bytes "2") zeroToken).
    + apply nameBody_byte; [reflexivity | discriminate | apply nameBody_end].
    + reflexivity.
Defined.

(** ** Literal strings *)

Lemma stringLoop_body (d tail body : list byte) :
  forall (n m : Z) (out : list byte) (p : Z) (fuel : nat),
    nestingAfter n body = Some m -> 0 <= n ->
    suffixAt d p (body ++ tail) ->
    0 <= m /\
    stringLoop d (List.length body + fuel) n out p =
      stringLoop d fuel m (out ++ body) (p + offs body).
Proof.
  induction body as [|c body IH]; intros n m out p fuel Hn H0 Hs.
  - simpl in Hn. injection Hn as <-. split; [exact H0|].
    rewrite app_nil_r. unfold offs. simpl. rewrite Z.add_0_r. reflexivity.
  - cbn [app] in Hs. destruct (read_cons _ _ _ _ Hs) as [Hread Hs1].
    cbn [List.length Nat.add stringLoop].
    rewrite (bind_Done _ _ _ _ _ Hread). cbn [negb].
    assert (Hpos : p + 1 + offs body = p + offs (c :: body))
      by (unfold offs; simpl List.length; lia).
    assert (Hout : forall x : list byte, (out ++ [c]) ++ x = out ++ c :: x)
      by (intros x; rewrite <- app_assoc; reflexivity).
    simpl in Hn. destruct (c == "("%byte).
    { destruct (IH (n + 1) m (out ++ [c]) (p + 1) fuel Hn ltac:(lia) Hs1)
        as [Hm E].
      split; [exact Hm|].
      destruct (Z.eqb_spec (n + 1) (-1)) as [?|_]; [lia|].
      rewrite E, Hout, Hpos. reflexivity. }
    destruct (c == ")"%byte).
    { destruct (Z.ltb_spec 0 n) as [Hlt|_]; [|discriminate Hn].
      destruct (IH (n - 1) m (out ++ [c]) (p + 1) fuel Hn ltac:(lia) Hs1)
        as [Hm E].
      split; [exact Hm|].
      destruct (Z.eqb_spec (n - 1) (-1)) as [?|_]; [lia|].
      rewrite E, Hout, Hpos. reflexivity. }
    destruct (c == "\"%byte); [discriminate Hn|].
    destruct (c == CR); [discriminate Hn|]. cbn [orb] in Hn.
    destruct (IH n m (out ++ [c]) (p + 1) fuel Hn H0 Hs1) as [Hm E].
    split; [exact Hm|].
    destruct (Z.eqb_spec n (-1)) as [?|_]; [lia|].
    rewrite E, Hout, Hpos. reflexivity.
Qed.

Lemma budget_split (d tail body : list byte) (p : Z) :
  suffixAt d p (body ++ tail) ->
  exists fuel, budget d = (List.length body + S fuel)%nat.
Proof.
  intros Hs. apply suffixAt_length in Hs. rewrite length_app in Hs.
  exists (List.length d - List.length body)%nat. unfold budget. lia.
Qed.

Lemma suffixAt_app (d : list byte) (p : Z) (body tail : list byte) :
  suffixAt d p (body ++ tail) -> suffixAt d (p + offs body) tail.
Proof.
  intros (pre & E & Ep). exists (pre ++ body). rewrite <- app_assoc.
  split; [exact E|]. unfold offs in *. rewrite length_app. lia.
Qed.

(** X9: A literal string is the bytes between [(] and the [)] that closes
    it: bytes other than a backslash and CR are taken as they are, the
    parentheses nested inside included. *)
Theorem nextToken_string (pre body rest : list byte) (previous : Token) :
  nestingAfter 0 body = Some 0 ->
  nextToken (pre ++ "("%byte :: body ++ ")"%byte :: rest) previous (offs pre) =
    Done ((mkToken body String, None), offs pre + 1 + offs body + 1).
Proof.
  intros Hb.
  pose proof (suffixAt_start pre ("("%byte :: body ++ ")"%byte :: rest)) as Hs.
  set (d := pre ++ "("%byte :: body ++ ")"%byte :: rest) in *.
  set (p := offs pre) in *.
  enter_at Hs.
  destruct (budget_split d _ body _ Hs0) as (fuel & ->).
  destruct (stringLoop_body d _ body 0 0 [] (p + 1) (S fuel) Hb ltac:(lia) Hs0)
    as [_ ->].
  apply suffixAt_app in Hs0. destruct (read_cons _ _ _ _ Hs0) as [Hread1 _].
  cbn [stringLoop]. rewrite (bind_Done _ _ _ _ _ Hread1).
  cbn [negb]. eval_beq. reflexivity.
Qed.

Lemma nextToken_string_witness :
  nextToken (bytes "[(a (b) c)]") zeroToken 1 =
    Done ((mkToken (bytes "a (b) c") String, None), 10).
Proof.
  apply (nextToken_string (bytes "[") (bytes "a (b) c") (bytes "]") zeroToken).
  reflexivity.
Defined.

(** ** Hexadecimal strings *)

Lemma hexDigit_pair (upper : bool) (b : byte) :
  let h1 := hexDigit upper (code b / 16) in
  let h2 := hexDigit upper (code b mod 16) in
  IsAsciiWhitespace h1 = false /\ IsAsciiWhitespace h2 = false /\
  (h1 == ">") = false /\ (h2 == ">") = false /\ (h1 == "<") = false /\
  snd (IsHexChar h1) = true /\ snd (IsHexChar h2) = true /\
  uint8 (code (uint8 (Z.shiftl (code (fst (IsHexChar h1))) 4)) +
         code (fst (IsHexChar h2))) = b.
Proof. destruct upper, b; vm_compute; repeat split. Qed.

Lemma hexLoop_body (d tail : list byte) (upper : bool) (body : list byte) :
  forall (out : list byte) (p : Z) (fuel : nat),
    suffixAt d p (hexEncode upper body ++ tail) ->
    bind (read d)
      (fun x => let (v1, ok1) := x in
                hexLoop d (List.length body + fuel) v1 ok1 out) p =
    bind (read d)
      (fun x => let (v1, ok1) := x in
                hexLoop d fuel v1 ok1 (out ++ body)) (p + 2 * offs body).
Proof.
  induction body as [|b body IH]; intros out p fuel Hs.
  - rewrite app_nil_r. unfold offs. simpl. rewrite Z.add_0_r. reflexivity.
  - cbn [hexEncode flat_map app] in Hs. fold (hexEncode upper body) in Hs.
    destruct (read_cons _ _ _ _ Hs) as [Hread Hs1].
    destruct (read_cons _ _ _ _ Hs1) as [Hread1 Hs2].
    destruct (hexDigit_pair upper b)
      as (W1 & W2 & G1 & G2 & _ & X1 & X2 & Eb).
    rewrite (bind_Done _ _ _ _ _ Hread).
    cbn [List.length Nat.add hexLoop].
    rewrite (bind_Done _ _ _ _ _ (skipWhitespace_nonws d _ _ true _ W1)).
    rewrite G1.
    destruct (IsHexChar (hexDigit upper (code b / 16))) as [v1 o1] eqn:E1.
    cbn [fst snd] in X1, Eb. subst o1. cbn [negb].
    rewrite (bind_Done _ _ _ _ _ Hread1).
    rewrite (bind_Done _ _ _ _ _ (skipWhitespace_nonws d _ _ true _ W2)).
    rewrite G2.
    destruct (IsHexChar (hexDigit upper (code b mod 16))) as [v2 o2] eqn:E2.
    cbn [fst snd] in X2, Eb. subst o2. cbn [negb].
    rewrite Eb. rewrite (IH (out ++ [b]) (p + 1 + 1) fuel Hs2).
    rewrite <- app_assoc. unfold offs. simpl List.length.
    replace (p + 1 + 1 + 2 * Z.of_nat (List.length body))
      with (p + 2 * Z.of_nat (S (List.length body))) by lia.
    reflexivity.
Qed.

(** X11: A hexadecimal string decodes what was encoded: [<], two hexadecimal
    digits for each byte, all in upper or all in lower case, and [>] give
    the StringHex token of these bytes. *)
Theorem nextToken_hex_string (upper : bool) (pre body rest : list byte)
  (previous : Token) :
  nextToken (pre ++ "<"%byte :: hexEncode upper body ++ ">"%byte :: rest)
    previous (offs pre) =
    Done ((mkToken body StringHex, None), offs pre + 1 + 2 * offs body + 1).
Proof.
  pose proof (suffixAt_start pre
                ("<"%byte :: hexEncode upper body ++ ">"%byte :: rest)) as Hs.
  set (d := pre ++ "<"%byte :: hexEncode upper body ++ ">"%byte :: rest) in *.
  set (p := offs pre) in *.
  enter_at Hs.
  assert (Hlen : List.length (hexEncode upper body) =
                 (2 * List.length body)%nat).
  { clear. induction body as [|b body IH]; [reflexivity|].
    cbn [hexEncode flat_map app List.length]. fold (hexEncode upper body).
    rewrite IH. lia. }
  assert (Hf : exists fuel, budget d = (List.length body + S fuel)%nat).
  { apply suffixAt_length in Hs0. rewrite length_app, Hlen in Hs0.
    exists (List.length d - List.length body)%nat. unfold budget. lia. }
  destruct Hf as (fuel & Hf).
  (* the byte after [<] is a hexadecimal digit or [>], and no [<] *)
  assert (Hnot : (peekByte (hexEncode upper body ++ ">"%byte :: rest)
                    == "<"%byte) = false).
  { destruct body as [|b body]; [reflexivity|].
    cbn [hexEncode flat_map app peekByte hd].
    exact (proj1 (proj2 (proj2 (proj2 (proj2 (hexDigit_pair upper b)))))). }
  assert (E : forall k : byte * bool -> Scan result,
             bind (read d)
               (fun x => let (v1, ok1) := x in
                         if v1 == "<"%byte then ret (kindToken StartDic, None)
                         else k (v1, ok1)) (p + 1) =
             bind (read d) k (p + 1)).
  { intros k. rewrite !(bind_Done _ _ _ _ _ (read_peek _ _ _ Hs0)).
    rewrite Hnot. reflexivity. }
  transitivity
    (bind (read d)
       (fun x => let (v1, ok1) := x in hexLoop d (budget d) v1 ok1 []) (p + 1)).
  { rewrite <- (E (fun x => let (v1, ok1) := x in
                            hexLoop d (budget d) v1 ok1 [])).
    unfold bind. destruct (read d (p + 1)) as [[[v1 ok1] q]| |]; reflexivity. }
  rewrite Hf. rewrite (hexLoop_body d _ upper body [] (p + 1) (S fuel) Hs0).
  apply suffixAt_app in Hs0.
  replace (p + 1 + offs (hexEncode upper body))
    with (p + 1 + 2 * offs body) in Hs0
    by (unfold offs; rewrite Hlen; lia).
  destruct (read_cons _ _ _ _ Hs0) as [Hread1 _].
  rewrite (bind_Done _ _ _ _ _ Hread1). cbn [hexLoop].
  rewrite (bind_Done _ _ _ _ _
             (skipWhitespace_nonws d _ ">"%byte true _ eq_refl)).
  eval_beq. reflexivity.
Qed.

Lemma nextToken_hex_string_witness :
  nextToken (bytes "[<4E6F7A>]") zeroToken 1 =
    Done ((mkToken (bytes "Noz") StringHex, None), 9).
Proof.
  exact (nextToken_hex_string true (bytes "[") (bytes "Noz") (bytes "]")
           zeroToken).
Defined.

(** ** Numbers and operator words *)

(** A byte that opens a word sends [nextToken] to its default branch. *)
Lemma nextToken_default (d : list byte) (previous : Token) (p : Z) (c : byte)
  (tail : list byte) :
  suffixAt d p (c :: tail) -> opensWord c = true ->
  nextToken d previous p = wordBranch d previous (p + 1).
Proof.
  intros Hs Hc. destruct (read_cons _ _ _ _ Hs) as [Hread _].
  assert (H : IsAsciiWhitespace c = false /\
              (c == "["%byte) = false /\ (c == "]"%byte) = false /\
              (c == "{"%byte) = false /\ (c == "}"%byte) = false /\
              (c == "/"%byte) = false /\ (c == ">"%byte) = false /\
              (c == "<"%byte) = false /\ (c == "%"%byte) = false /\
              (c == "("%byte) = false)
    by (destruct c; try discriminate Hc; repeat split).
  destruct H as (W & E1 & E2 & E3 & E4 & E5 & E6 & E7 & E8 & E9).
  unfold nextToken. unfold budget at 1. cbn [nextTokenRec].
  rewrite (bind_Done _ _ _ _ _ Hread).
  rewrite (bind_Done _ _ _ _ _ (skipWhitespace_nonws d _ c true _ W)).
  cbn [negb]. rewrite E1, E2, E3, E4, E5, E6, E7, E8, E9. reflexivity.
Qed.

Lemma isDigit_opensWord (c : byte) : isDigit c = true -> opensWord c = true.
Proof. destruct c; vm_compute; intros H; first [reflexivity | discriminate H]. Qed.

(** An optional sign and digits, followed by a byte that carries on no
    number: an Integer. *)
Lemma readNumber_integer (pre sign ds rest : list byte) (c : byte) :
  sign = [] \/ sign = ["+"%byte] \/ sign = ["-"%byte] ->
  isDigit c = true -> forallb isDigit ds = true ->
  continuesNumber (peekByte rest) = false ->
  readNumber (pre ++ sign ++ c :: ds ++ rest) (offs pre) =
    Done ((mkToken (sign ++ c :: ds) Integer, true),
          offs pre + offs sign + 1 + offs ds).
Proof.
  intros Hsign Hc Hds Hr.
  unfold continuesNumber in Hr.
  apply orb_false_iff in Hr as [Hr He]. apply orb_false_iff in Hr as [Hr HE].
  apply orb_false_iff in Hr as [Hr Hhash].
  apply orb_false_iff in Hr as [Hdig Hdot].
  assert (Hstop : stops rest) by (destruct rest; [exact I | exact Hdig]).
  pose proof (suffixAt_start pre (sign ++ c :: ds ++ rest)) as Hs.
  set (d := pre ++ sign ++ c :: ds ++ rest) in *.
  set (p := offs pre) in *.
  assert (Hf : (List.length ds < budget d)%nat).
  { unfold budget. apply suffixAt_length in Hs.
    rewrite !length_app in Hs. simpl List.length in Hs.
    rewrite length_app in Hs. lia. }
  assert (HL : forall sb : list byte,
             Nat.eqb (List.length (sb ++ c :: ds)) 0 = false)
    by (intros sb; rewrite length_app; simpl List.length;
        apply Nat.eqb_neq; lia).
  unfold readNumber, getPos.
  rewrite (bind_Done _ _ p p p eq_refl).
  destruct Hsign as [-> | Hsign].
  - cbn [app] in Hs. destruct (read_cons _ _ _ _ Hs) as [Hread Hs1].
    rewrite (bind_Done _ _ _ _ _ Hread).
    assert (Hns : ((c == "+"%byte) || (c == "-"%byte)) = false)
      by (destruct c; try discriminate Hc; reflexivity).
    rewrite Hns. unfold ret at 1.
    rewrite (bind_Done _ _ (p + 1) (p + 1) ([], c) eq_refl).
    rewrite (bind_Done _ _ _ _ _
               (readDigits_run d ds rest [] c true false (p + 1) (budget d)
                  Hs1 Hc Hds Hstop Hf)).
    rewrite Hdot, Hhash, HE, He, HL. cbn [orb negb].
    destruct rest as [|x rest]; cbn [peekOk peekStep when];
      unfold bind, unread, ret; apply Done_eq; try reflexivity;
      unfold offs; simpl List.length; lia.
  - assert (exists s, sign = [s] /\ ((s == "+"%byte) || (s == "-"%byte)) = true)
      as (s & -> & Hsgn)
      by (destruct Hsign as [-> | ->]; eexists; split; reflexivity).
    cbn [app] in Hs. destruct (read_cons _ _ _ _ Hs) as [Hread Hs1].
    destruct (read_cons _ _ _ _ Hs1) as [Hread1 Hs2].
    rewrite (bind_Done _ _ _ _ _ Hread). rewrite Hsgn.
    assert (E : bind (read d)
                  (fun x : byte * bool =>
                     let (c', _) := x in ret ([] ++ [s], c')) (p + 1)
                = Done (([s], c), p + 1 + 1))
      by (rewrite (bind_Done _ _ _ _ _ Hread1); reflexivity).
    rewrite (bind_Done _ _ _ _ _ E).
    rewrite (bind_Done _ _ _ _ _
               (readDigits_run d ds rest [s] c true false (p + 1 + 1)
                  (budget d) Hs2 Hc Hds Hstop Hf)).
    rewrite Hdot, Hhash, HE, He, HL. cbn [orb negb].
    destruct rest as [|x rest]; cbn [peekOk peekStep when];
      unfold bind, unread, ret; apply Done_eq; try reflexivity;
      unfold offs; simpl List.length; lia.
Qed.

(** X12: An optional sign and decimal digits are an Integer token, which ends
    where the digits end: before the end of the data or before a byte
    that is no digit, no [.], no [#] and no exponent marker, delimiter or
    not. *)
Theorem nextToken_integer (pre sign ds rest : list byte) (c : byte)
  (previous : Token) :
  sign = [] \/ sign = ["+"%byte] \/ sign = ["-"%byte] ->
  isDigit c = true -> forallb isDigit ds = true ->
  continuesNumber (peekByte rest) = false ->
  nextToken (pre ++ sign ++ c :: ds ++ rest) previous (offs pre) =
    Done ((mkToken (sign ++ c :: ds) Integer, None),
          offs pre + offs sign + 1 + offs ds).
Proof.
  intros Hsign Hc Hds Hr.
  pose proof (readNumber_integer pre sign ds rest c Hsign Hc Hds Hr) as HN.
  pose proof (suffixAt_start pre (sign ++ c :: ds ++ rest)) as Hs.
  set (d := pre ++ sign ++ c :: ds ++ rest) in *.
  set (p := offs pre) in *.
  assert (Hfirst : exists x tail,
             sign ++ c :: ds ++ rest = x :: tail /\ opensWord x = true).
  { destruct Hsign as [-> | [-> | ->]].
    - exists c, (ds ++ rest). split; [reflexivity|].
      exact (isDigit_opensWord c Hc).
    - eexists _, _. split; reflexivity.
    - eexists _, _. split; reflexivity. }
  destruct Hfirst as (x & tail & Ex & Hx). rewrite Ex in Hs.
  rewrite (nextToken_default d previous p x tail Hs Hx).
  unfold wordBranch. unfold bind at 1, unread at 1.
  replace (p + 1 - 1) with p by lia.
  rewrite (bind_Done _ _ _ _ _ HN). reflexivity.
Qed.

Lemma nextToken_integer_witness :
  nextToken (bytes "[-12abc") zeroToken 1 =
    Done ((mkToken (bytes "-12") Integer, None), 4).
Proof.
  apply (nextToken_integer (bytes "[") (bytes "-") (bytes "2") (bytes "abc")
           "1"%byte zeroToken).
  - right. right. reflexivity.
  - reflexivity.
  - reflexivity.
  - reflexivity.
Defined.

Lemma wordLoop_halt (d : list byte) (fuel : nat) (out : list byte) (c : byte)
  (ok : bool) (p : Z) :
  isDelimiter c = true ->
  wordLoop d fuel out c ok p = Done ((out, c, ok), p).
Proof. intros H. destruct fuel; simpl; rewrite H; reflexivity. Qed.

Lemma wordLoop_S (d : list byte) (fuel : nat) (out : list byte) (c : byte)
  (ok : bool) :
  wordLoop d (S fuel) out c ok =
    if negb (isDelimiter c) then
      '(ch', ok') <- read d ;; wordLoop d fuel (out ++ [c]) ch' ok'
    else ret (out, c, ok).
Proof. reflexivity. Qed.

Lemma headIs_isDelimiter (rest : list byte) :
  headIs isDelimiter rest -> isDelimiter (peekByte rest) = true.
Proof. destruct rest; [reflexivity | exact (fun H => H)]. Qed.

(** The word loop takes the bytes up to the next delimiter. *)
Lemma wordLoop_run (d rest w : list byte) :
  forall (out : list byte) (p : Z) (fuel : nat),
    suffixAt d p (w ++ rest) ->
    forallb (fun x => negb (isDelimiter x)) w = true ->
    headIs isDelimiter rest ->
    (List.length w < fuel)%nat ->
    wordLoop d fuel out (peekByte (w ++ rest)) (peekOk (w ++ rest))
      (p + peekStep (w ++ rest)) =
      Done ((out ++ w, peekByte rest, peekOk rest),
            p + offs w + peekStep rest).
Proof.
  induction w as [|x w IH]; intros out p fuel Hs Hw Hr Hf.
  - cbn [app]. rewrite (wordLoop_halt _ _ _ _ _ _ (headIs_isDelimiter _ Hr)).
    rewrite app_nil_r. apply Done_eq; [reflexivity|].
    unfold offs. simpl. lia.
  - destruct fuel as [|fuel]; [simpl in Hf; lia|].
    simpl in Hw. apply andb_true_iff in Hw as [Hx Hw].
    cbn [app peekByte peekOk peekStep hd] in *.
    rewrite wordLoop_S, Hx.
    destruct (read_cons _ _ _ _ Hs) as [_ Hs'].
    rewrite (bind_Done _ _ _ _ _ (read_peek _ _ _ Hs')).
    rewrite (IH (out ++ [x]) (p + 1) fuel Hs' Hw Hr); [|simpl in Hf; lia].
    rewrite <- app_assoc.
    apply Done_eq; [reflexivity|]. unfold offs. simpl List.length. lia.
Qed.

(** When [readNumber] declines, the default branch reads a word: its
    first byte, whatever it is, and the bytes up to the next delimiter. *)
Lemma wordBranch_run (d w rest : list byte) (c : byte) (previous : Token)
  (p : Z) :
  suffixAt d p (c :: w ++ rest) ->
  readNumber d p = Done ((zeroToken, false), p) ->
  forallb (fun x => negb (isDelimiter x)) w = true ->
  headIs isDelimiter rest ->
  wordBranch d previous (p + 1) =
    wordToken d previous (c :: w) (p + 1 + offs w).
Proof.
  intros Hs HN Hw Hr. unfold wordBranch. unfold bind at 1, unread at 1.
  replace (p + 1 - 1) with p by lia.
  rewrite (bind_Done _ _ _ _ _ HN).
  destruct (read_cons _ _ _ _ Hs) as [Hread Hs1].
  rewrite (bind_Done _ _ _ _ _ Hread).
  rewrite (bind_Done _ _ _ _ _ (read_peek _ _ _ Hs1)).
  assert (Hf : (List.length w < budget d)%nat).
  { unfold budget. apply suffixAt_length in Hs1.
    rewrite length_app in Hs1. lia. }
  rewrite (bind_Done _ _ _ _ _
             (wordLoop_run d rest w [c] (p + 1) (budget d) Hs1 Hw Hr Hf)).
  destruct rest as [|x rest]; cbn [peekOk peekStep when app];
    unfold bind at 1; [unfold ret at 1 | unfold unread at 1]; f_equal; lia.
Qed.

(** X13: An operator word is the bytes up to the next delimiter or the end of
    the data, the first byte apart, which may be a delimiter that opens no
    token, as [)].  It is an Other token, unless it is [RD] or [-|]. *)
Theorem nextToken_word (pre w rest : list byte) (c : byte)
  (previous : Token) :
  opensWord c = true -> opensNumber c = false ->
  forallb (fun x => negb (isDelimiter x)) w = true ->
  headIs isDelimiter rest ->
  isCharStringCmd (c :: w) = false ->
  nextToken (pre ++ c :: w ++ rest) previous (offs pre) =
    Done ((mkToken (c :: w) Other, None), offs pre + 1 + offs w).
Proof.
  intros Hc Hn Hw Hr Hcmd.
  assert (HN : opensNoNumber [] (c :: w ++ rest)).
  { unfold opensNumber in Hn. unfold opensNoNumber. cbn [peekByte hd].
    destruct c; try discriminate Hn;
      (split; [reflexivity|]); repeat split; discriminate. }
  pose proof (readNumber_declines pre [] (c :: w ++ rest)
                (or_introl eq_refl) HN) as HD.
  cbn [app] in HD.
  pose proof (suffixAt_start pre (c :: w ++ rest)) as Hs.
  set (d := pre ++ c :: w ++ rest) in *.
  set (p := offs pre) in *.
  rewrite (nextToken_default d previous p c _ Hs Hc).
  rewrite (wordBranch_run d w rest c previous p Hs HD Hw Hr).
  unfold wordToken. rewrite Hcmd. reflexivity.
Qed.

Lemma nextToken_word_witness :
  nextToken (bytes "1 0 obj<<") zeroToken 4 =
    Done ((mkToken (bytes "obj") Other, None), 7) /\
  nextToken (bytes "a )b c") zeroToken 2 =
    Done ((mkToken (bytes ")b") Other, None), 4).
Proof.
  split.
  - apply (nextToken_word (bytes "1 0 ") (bytes "bj") (bytes "<<") "o"%byte
             zeroToken); reflexivity.
  - apply (nextToken_word (bytes "a ") (bytes "b") (bytes " c") ")"%byte
             zeroToken); reflexivity.
Defined.

Lemma firstn_skipn_middle (pre body rest : list byte) :
  firstn (List.length body) (skipn (List.length pre) (pre ++ body ++ rest)) =
    body.
Proof.
  rewrite skipn_app, skipn_all, Nat.sub_diag. cbn [app skipn].
  rewrite firstn_app, firstn_all, Nat.sub_diag. cbn [firstn].
  apply app_nil_r.
Qed.

(** X14: After an Integer, [RD] and [-|] return the binary data that follows:
    the delimiter after the word is passed over and the next bytes, as
    many as the Integer says, are the value of a CharString token. *)
Theorem nextToken_CharString (pre cmd body rest : list byte) (sep : byte)
  (previous : Token) :
  cmd = bytes "RD" \/ cmd = bytes "-|" ->
  isDelimiter sep = true ->
  Kind_ previous = Integer ->
  Token_Int previous = (offs body, None) ->
  offs (pre ++ cmd ++ sep :: body ++ rest) < 2 ^ 63 ->
  nextToken (pre ++ cmd ++ sep :: body ++ rest) previous (offs pre) =
    Done ((mkToken body CharString, None), offs pre + 3 + offs body).
Proof.
  intros Hcmd Hsep Hk Hint Hlen.
  assert (Hw : exists c x sign tail,
             cmd = [c; x] /\ opensWord c = true /\
             isDelimiter x = false /\ isCharStringCmd cmd = true /\
             (sign = [] \/ sign = ["+"%byte] \/ sign = ["-"%byte]) /\
             (forall l : list byte, cmd ++ l = sign ++ tail ++ l) /\
             (forall l : list byte, opensNoNumber sign (tail ++ l))).
  { destruct Hcmd as [-> | ->].
    - exists "R"%byte, "D"%byte, [], (bytes "RD").
      repeat split; try reflexivity; try discriminate.
      left. reflexivity.
    - exists "-"%byte, "|"%byte, ["-"%byte], ["|"%byte].
      repeat split; try reflexivity; try discriminate.
      right. right. reflexivity. }
  destruct Hw as (c & x & sign & tail & -> & Hc & Hx & Hcs & Hsign & Hsplit & Hno).
  pose proof (readNumber_declines pre sign (tail ++ sep :: body ++ rest)
                Hsign (Hno _)) as HD.
  rewrite <- Hsplit in HD.
  pose proof (suffixAt_start pre ([c; x] ++ sep :: body ++ rest)) as Hs.
  set (d := pre ++ [c; x] ++ sep :: body ++ rest) in *.
  set (p := offs pre) in *.
  cbn [app] in Hs.
  rewrite (nextToken_default d previous p c _ Hs Hc).
  rewrite (wordBranch_run d [x] (sep :: body ++ rest) c previous p Hs HD).
  - unfold wordToken. rewrite Hcs.
    rewrite (proj2 (Kind_eqb_eq _ _) Hk), Hint.
    unfold bind.
    assert (HL : len d = p + 3 + offs body + offs rest).
    { unfold len, d, p, offs. rewrite !length_app. simpl List.length.
      rewrite length_app. lia. }
    change (offs d) with (len d) in Hlen.
    assert (H0 : 0 <= p /\ 0 <= offs body /\ 0 <= offs rest)
      by (unfold p, offs; lia).
    rewrite (readCharString_run d (offs body) (p + 1 + offs [x]));
      [| unfold offs; simpl List.length; lia
       | unfold offs in *; simpl List.length; lia
       | unfold offs in *; simpl List.length; lia].
    destruct (Z.leb_spec 0 (offs body)) as [_|?]; [|lia].
    destruct (Z.ltb_spec (p + 1 + offs [x]) (len d)) as [_|?];
      [|unfold offs in *; simpl List.length in *; lia].
    cbn [andb]. unfold ret. apply Done_eq.
    + f_equal. f_equal.
      replace (Z.to_nat (offs body)) with (List.length body)
        by (unfold offs; lia).
      replace (Z.to_nat (p + 1 + offs [x] + 1))
        with (List.length (pre ++ [c; x; sep]))
        by (unfold p, offs; rewrite length_app; simpl List.length; lia).
      replace d with ((pre ++ [c; x; sep]) ++ body ++ rest)
        by (unfold d; rewrite <- app_assoc; reflexivity).
      apply firstn_skipn_middle.
    + unfold offs. simpl List.length. lia.
  - cbn [forallb]. rewrite Hx. reflexivity.
  - exact Hsep.
Qed.

Lemma nextToken_CharString_witness :
  nextToken (bytes "3 RD abc def") (mkToken (bytes "3") Integer) 2 =
    Done ((mkToken (bytes "abc") CharString, None), 8).
Proof.
  apply (nextToken_CharString (bytes "3 ") (bytes "RD") (bytes "abc")
           (bytes " def") " "%byte (mkToken (bytes "3") Integer)).
  - left. reflexivity.
  - reflexivity.
  - reflexivity.
  - reflexivity.
  - reflexivity.
Defined.

(** ** Reading all the tokens *)

(** Unfolds the conditions on the positions and leaves arithmetic. *)
Ltac bounds :=
  unfold okResult, afterP, after, inside, readPost in *;
  cbn [fst snd Kind_] in *;
  repeat match goal with
         | H : _ /\ _ |- _ => destruct H
         | H : if ?b then _ else _ |- _ => destruct b
         end;
  repeat split; intros; try lia; try discriminate; try congruence.

Section Advance.

Variable d : list byte.
Hypothesis Hsmall : len d < 2 ^ 63.

Lemma wrap64_next (q : Z) :
  0 <= q <= len d -> 0 <= wrap64 (q + 1) -> wrap64 (q + 1) = q + 1.
Proof.
  intros Hq Hw. destruct (Z.eq_dec (q + 1) (2 ^ 63)) as [E|E].
  - rewrite E in Hw. vm_compute in Hw. elim Hw. reflexivity.
  - apply wrap64_small. lia.
Qed.

Lemma wrap64_range (z : Z) : - 2 ^ 63 <= wrap64 z < 2 ^ 63.
Proof.
  unfold wrap64.
  pose proof (Z.mod_pos_bound (z + 2 ^ 63) (2 ^ 64) ltac:(lia)). lia.
Qed.

Lemma readCharString_advance (f q q' : Z) (t : Token) :
  0 <= q <= len d ->
  readCharString d f q = Done (t, q') -> q < q'.
Proof.
  intros Hq. unfold readCharString.
  destruct (0 <=? wrap64 (q + 1)) eqn:E0; cbn [andb]; [|discriminate].
  apply Z.leb_le in E0. rewrite (wrap64_next q Hq E0).
  destruct (Z.leb_spec (len d) (wrap64 (q + 1 + f))) as [H1|H1].
  - destruct (Z.leb_spec (q + 1) (len d)) as [H2|H2]; [|discriminate].
    intros H. injection H as _ <-. lia.
  - destruct (Z.leb_spec (q + 1) (wrap64 (q + 1 + f))) as [H2|H2];
      [|discriminate].
    intros H. injection H as _ <-. lia.
Qed.

Lemma wordToken_advance (b q : Z) (previous : Token) (outBuf : list byte) :
  inside d b q ->
  triple (isInteger previous) q (wordToken d previous outBuf)
    (fun _ q' => b < q').
Proof.
  intros Hi. unfold wordToken, isInteger.
  assert (Hret : forall (t : Token) (e : option error),
             triple (Kind_eqb (Kind_ previous) Integer) q (ret (t, e))
               (fun _ q' => b < q')).
  { intros t e. apply triple_ret. unfold inside in Hi. lia. }
  destruct (isCharStringCmd outBuf); [|apply Hret].
  destruct (Kind_eqb (Kind_ previous) Integer); [|apply Hret].
  destruct (Token_Int previous) as [f [err|]]; [apply Hret|].
  unfold triple, bind.
  destruct (readCharString d f q) as [[t q']| |] eqn:E.
  - unfold ret. unfold inside in Hi.
    pose proof (readCharString_advance f q q' t ltac:(lia) E). lia.
  - reflexivity.
  - unfold readCharString in E.
    destruct ((0 <=? wrap64 (q + 1)) && _) in E; discriminate E.
Qed.

Lemma wordBranch_advance (b q : Z) (previous : Token) :
  inside d b q ->
  triple (isInteger previous) q (wordBranch d previous) (fun _ q' => b < q').
Proof.
  intros Hi. unfold wordBranch.
  eapply triple_bind; [apply triple_mayPanic, unread_triple|].
  intros u q0 ->.
  assert (Hq : 0 <= q - 1 < len d) by bounds.
  eapply triple_bind; [apply triple_mayPanic, (readNumber_triple d (q - 1) Hq)|].
  intros [token [|]] q1 H1; unfold numberPost in H1; cbn [fst snd] in H1.
  - apply triple_ret. bounds.
  - subst q1.
    eapply triple_bind;
      [apply triple_mayPanic, (read_first_triple d (q - 1) (proj1 Hq))|].
    intros [c [|]] q1 H1; cbn [fst snd] in H1; [|lia].
    destruct H1 as [Ha1 ->]. replace (q - 1 + 1) with q by lia.
    eapply triple_bind; [apply triple_mayPanic, (read_inside_triple d b q Hi)|].
    intros [c2 [|]] q2 [Ha2 Hr2].
    + assert (Ha2' : after d q c2 true q2) by bounds.
      eapply triple_bind.
      * apply triple_mayPanic.
        apply (wordLoop_triple d q (budget d) [c] c2 true q2 Ha2').
        intros _. apply budget_enough. bounds.
      * intros [[outBuf c3] ok3] q3 Ha3. cbn [fst snd] in Ha3.
        eapply triple_bind.
        -- instantiate (1 := fun _ q' => inside d b q').
           destruct ok3; unfold when, triple, unread, ret; bounds.
        -- intros u' q4 Hi4. apply wordToken_advance. exact Hi4.
    + assert (c2 = x00 /\ q2 = q) as [-> ->] by bounds.
      unfold triple at 1. unfold bind at 1. rewrite wordLoop_stop.
      cbn [when]. unfold bind at 1, ret at 1.
      apply (wordToken_advance b q previous [c] Hi).
Qed.

Lemma nextTokenRec_advance (fuel : nat) (previous : Token) :
  forall p,
    0 <= p -> Z.max 0 (len d - p) < Z.of_nat fuel ->
    triple (isInteger previous) p (nextTokenRec d fuel previous)
      (advancePost d p).
Proof.
  induction fuel as [|fuel IH]; intros p Hp Hf; [lia|].
  cbn [nextTokenRec].
  assert (Hret : forall q (t : Token) (e : option error),
             p < len d -> p < q ->
             triple (isInteger previous) q (ret (t, e)) (advancePost d p)).
  { intros q t e H1 H2. apply triple_ret. right. split; assumption. }
  assert (Hres : forall q (m : Scan result),
             triple false q m (okResult d p) ->
             triple (isInteger previous) q m (advancePost d p)).
  { intros q m H. apply triple_mayPanic.
    apply (triple_weaken _ _ _ _ _ H).
    intros r q' [Hi _]. right. unfold inside in Hi. lia. }
  eapply triple_bind; [apply triple_mayPanic, (read_first_triple d p Hp)|].
  intros [c [|]] q H; cbn [fst snd] in H.
  - destruct H as [Ha ->].
    eapply triple_bind;
      [apply triple_mayPanic, (skipWhitespace_mono d p c true (p + 1) Ha)|].
    intros [c1 ok1] q1 [Ha1 Hq1]. unfold afterP in Ha1. cbn [fst snd] in Ha1.
    assert (Hi1 : inside d p q1) by exact (after_inside _ _ _ _ _ Ha1).
    assert (Hb1 : p < len d /\ p < q1) by bounds.
    destruct Hb1 as [Hb0 Hb1].
    destruct ok1; cbn [negb]; [|apply Hret; assumption].
    repeat match goal with
           | |- triple _ _ (if ?t then ret _ else _) _ =>
               destruct t; [apply Hret; assumption|]
           end.
    destruct (c1 == "/"%byte).
    { apply Hres, nameLoop_triple; [exact Hi1 | apply budget_enough; bounds]. }
    destruct (c1 == ">"%byte).
    { eapply triple_bind;
        [apply triple_mayPanic, (read_inside_triple d p q1 Hi1)|].
      intros [c2 ok2] q2 [Ha2 _].
      destruct (negb (c2 == ">"%byte)); apply Hret; bounds. }
    destruct (c1 == "<"%byte).
    { eapply triple_bind;
        [apply triple_mayPanic, (read_inside_triple d p q1 Hi1)|].
      intros [v1 ok1] q2 [Ha2 _]. unfold afterP in Ha2. cbn [fst snd] in Ha2.
      destruct (v1 == "<"%byte); [apply Hret; bounds|].
      apply Hres, hexLoop_triple; [exact Ha2 | apply budget_enough; bounds]. }
    destruct (c1 == "%"%byte).
    { eapply triple_bind;
        [apply triple_mayPanic, (read_inside_triple d p q1 Hi1)|].
      intros [c2 ok2] q2 [Ha2 _]. unfold afterP in Ha2. cbn [fst snd] in Ha2.
      eapply triple_bind.
      - apply triple_mayPanic.
        apply (skipComment_triple d p (budget d) c2 ok2 q2 Ha2).
        intros _. apply budget_enough. bounds.
      - intros [c3 ok3] q3 Ha3. unfold afterP in Ha3. cbn [fst snd] in Ha3.
        eapply triple_weaken.
        + apply IH; bounds.
        + intros r q4 H4. right. split; [exact Hb0|].
          unfold advancePost in H4. bounds. }
    destruct (c1 == "("%byte).
    { apply Hres, stringLoop_triple; [exact Hi1 | apply budget_enough; bounds]. }
    apply (triple_weaken _ _ _ _ _ (wordBranch_advance p q1 previous Hi1)).
    intros r q2 H2. right. split; assumption.
  - destruct H as [-> HL].
    eapply triple_bind; [apply triple_mayPanic, skipWhitespace_stop_triple|].
    intros x q1 [-> ->]. cbn [negb]. apply triple_ret.
    left. repeat split. exact HL.
Qed.

Lemma nextToken_advance (previous : Token) (p q : Z) (t : Token)
  (e : option error) :
  nextToken d previous p = Done ((t, e), q) -> slotAdv d p t q.
Proof.
  intros E. destruct (Z.lt_ge_cases p 0) as [Hp|Hp].
  - rewrite (nextToken_negative d previous p Hp) in E. discriminate E.
  - pose proof (nextTokenRec_advance (budget d) previous p Hp
                  ltac:(unfold budget, len; lia)) as T.
    unfold triple in T. fold (nextToken d previous) in T. rewrite E in T.
    destruct T as [(_ & _ & Hr) | [H1 H2]].
    + left. injection Hr as -> _. reflexivity.
    + right. lia.
Qed.

Lemma NewTokenizer_primed (tk : Tokenizer) :
  NewTokenizer d = Done tk -> primed d tk /\ currentPos tk = 0.
Proof.
  unfold NewTokenizer, SetPosition. cbn [data emptyTokenizer].
  destruct (nextToken d zeroToken 0) as [[[a aErr] p1]| |] eqn:E1;
    try discriminate.
  destruct (nextToken d a p1) as [[[aa aaErr] p2]| |] eqn:E2;
    try discriminate.
  intros H. injection H as <-. unfold primed. cbn.
  repeat split.
  - exact (nextToken_advance _ _ _ _ _ E1).
  - exact (nextToken_advance _ _ _ _ _ E2).
Qed.

Lemma NextToken_primed (tk tk' : Tokenizer) (t : Token) (e : option error) :
  primed d tk ->
  NextToken tk = Done ((t, e), tk') ->
  t = aToken tk /\ currentPos tk' = nextPos tk /\ primed d tk'.
Proof.
  intros (Hd & Ha & Haa). unfold NextToken, PeekToken.
  destruct (startsBinary (aaToken tk)).
  - intros H. injection H as <- _ <-. unfold primed. cbn.
    repeat split; try assumption. left. reflexivity.
  - destruct (nextToken (data tk) (aaToken tk) (pos tk))
      as [[[t' e'] q]| |] eqn:E; try discriminate.
    intros H. injection H as <- _ <-. unfold primed. cbn.
    repeat split; try assumption.
    rewrite Hd in E. exact (nextToken_advance _ _ _ _ _ E).
Qed.

(** The loop of [readAll] returns within its budget; it appends tokens
    that are not EOF, one for each byte from [s] on at most. *)
Lemma readAllLoop_returns (fuel : nat) :
  forall (tk : Tokenizer) (s : Z) (t : Token) (err : option error)
         (out : list Token),
    primed d tk -> slotAdv d s t (currentPos tk) ->
    (Kind_ t <> EOF -> len d - s <= Z.of_nat fuel) ->
    match readAllLoop fuel tk t err out with
    | Done (out', _) =>
        exists more,
          out' = out ++ more /\
          Forall (fun x => Kind_ x <> EOF) more /\
          Z.of_nat (List.length more) <= Z.max 0 (len d - s)
    | Panic => True
    | OutOfFuel => False
    end.
Proof.
  induction fuel as [|fuel IH]; intros tk s t err out Hp Hs Hf;
    cbn [readAllLoop];
    (destruct (negb (Kind_eqb (Kind_ t) EOF) && isNil err) eqn:Ec;
     [| exists []; rewrite app_nil_r; repeat split;
        [constructor | simpl; lia]]);
    apply andb_true_iff in Ec as [Ek _]; apply negb_true_iff in Ek;
    assert (Hk : Kind_ t <> EOF)
      by (intros Hk; apply Kind_eqb_eq in Hk; congruence);
    specialize (Hf Hk);
    (destruct Hs as [Hs|[Hs1 Hs2]]; [contradiction|]).
  - lia.
  - destruct (NextToken tk) as [[[t' err'] tk']| |] eqn:E.
    + destruct (NextToken_primed tk tk' t' err' Hp E) as (-> & Hc & Hp').
      pose proof (IH tk' (currentPos tk) (aToken tk) err' (out ++ [t]) Hp')
        as H. rewrite Hc in H.
      specialize (H (proj1 (proj2 Hp)) ltac:(intros _; lia)).
      destruct (readAllLoop fuel tk' (aToken tk) err' (out ++ [t]))
        as [[out' e']| |]; [|exact I|exact H].
      destruct H as (more & -> & HF & HL).
      exists (t :: more). rewrite <- app_assoc. repeat split.
      * constructor; assumption.
      * simpl List.length. lia.
    + exact I.
    + exact (NextToken_never_starves tk E).
Qed.

End Advance.

(** X30: [Tokenize] returns: the loop that collects the tokens ends within the
    budget of the model, whatever the data.  The tokens it returns are
    not EOF, and there are no more of them than bytes in the data. *)
Theorem Tokenize_returns (d : list byte) :
  len d < 2 ^ 63 ->
  Tokenize d <> OutOfFuel /\
  forall out err,
    Tokenize d = Done (out, err) ->
    Forall (fun t => Kind_ t <> EOF) out /\
    Z.of_nat (List.length out) <= len d.
Proof.
  intros Hsmall.
  assert (H : match Tokenize d with
              | Done (out, _) =>
                  Forall (fun t => Kind_ t <> EOF) out /\
                  Z.of_nat (List.length out) <= len d
              | Panic => True
              | OutOfFuel => False
              end).
  { unfold Tokenize.
    destruct (NewTokenizer d) as [tk| |] eqn:E0;
      [|exact I|exact (SetPosition_never_starves _ _ E0)].
    destruct (NewTokenizer_primed d Hsmall tk E0) as [Hp Hc].
    unfold readAll.
    destruct (NextToken tk) as [[[t err] tk']| |] eqn:E1;
      [|exact I|exact (NextToken_never_starves tk E1)].
    destruct (NextToken_primed d Hsmall tk tk' t err Hp E1) as (-> & Hc' & Hp').
    pose proof (readAllLoop_returns d Hsmall (budget (data tk)) tk' 0
                  (aToken tk) err [] Hp') as H.
    rewrite Hc' in H. destruct Hp as (Hd & Ha & _). rewrite Hc in Ha.
    specialize (H Ha).
    rewrite Hd in H. specialize (H ltac:(intros _; unfold budget, len; lia)).
    rewrite Hd.
    destruct (readAllLoop (budget d) tk' (aToken tk) err [])
      as [[out e]| |]; [|exact I|exact H].
    destruct H as (more & -> & HF & HL). cbn [app].
    split; [exact HF|]. unfold len in *. lia. }
  split.
  - intros E. rewrite E in H. exact H.
  - intros out err E. rewrite E in H. exact H.
Qed.

Lemma Tokenize_returns_witness :
  Tokenize (bytes "/a [1 (b)] % c") <> OutOfFuel /\
  forall out err,
    Tokenize (bytes "/a [1 (b)] % c") = Done (out, err) ->
    Forall (fun t => Kind_ t <> EOF) out /\
    Z.of_nat (List.length out) <= 14.
Proof.
  apply (Tokenize_returns (bytes "/a [1 (b)] % c")). reflexivity.
Defined.

(** ** The public operations, again *)

Lemma eolLoop_never_starves (d : list byte) (fuel : nat) :
  forall i : Z,
    (1 <= fuel)%nat -> (0 <= i -> len d - i < Z.of_nat fuel) ->
    eolLoop fuel d i <> OutOfFuel.
Proof.
  induction fuel as [|fuel IH]; intros i H1 Hf; [lia|].
  cbn [eolLoop].
  destruct (Z.ltb_spec i (len d)) as [Hi|Hi]; [|discriminate].
  destruct (Z.ltb_spec i 0) as [H0|H0]; [discriminate|].
  destruct (negb (IsAsciiWhitespace (nth (Z.to_nat i) d x00)));
    [discriminate|].
  destruct (isEOL (nth (Z.to_nat i) d x00)); [discriminate|].
  specialize (Hf H0). apply IH; [|intros _]; lia.
Qed.

(** X29: Every loop of the tokenizer ends: no public operation exhausts the
    budget the model gives to its loops, whatever the data and the state.
    An operation returns, or panics as the Go code does. *)
Theorem operations_within_budget (tk : Tokenizer) (d : list byte) (p n : Z) :
  NewTokenizer d <> OutOfFuel /\
  Reset d tk <> OutOfFuel /\
  SetPosition p tk <> OutOfFuel /\
  NextToken tk <> OutOfFuel /\
  SkipBytes n tk <> OutOfFuel /\
  HasEOLBeforeToken tk <> OutOfFuel.
Proof.
  repeat split.
  - apply SetPosition_never_starves.
  - apply SetPosition_never_starves.
  - apply SetPosition_never_starves.
  - apply NextToken_never_starves.
  - unfold SkipBytes.
    destruct ((0 <=? currentPos tk) && _); [|discriminate].
    match goal with
    | |- match SetPosition ?t tk with _ => _ end <> _ =>
        pose proof (SetPosition_never_starves t tk) as H;
        destruct (SetPosition t tk);
          [discriminate | discriminate | elim H; reflexivity]
    end.
  - unfold HasEOLBeforeToken. apply eolLoop_never_starves.
    + unfold budget. lia.
    + intros H. unfold budget, len. lia.
Qed.

(** X25: What [PeekToken] and [PeekPeekToken] show is what the next two calls
    of [NextToken] return. *)
Theorem NextTokens_lookahead (tk tk' : Tokenizer) (rs : list result) :
  NextTokens 2 tk = Done (rs, tk') ->
  rs = [PeekToken tk; PeekPeekToken tk].
Proof.
  cbn [NextTokens].
  assert (H1 : forall pr r pr',
             NextToken pr = Done (r, pr') ->
             r = PeekToken pr /\ PeekToken pr' = PeekPeekToken pr).
  { intros pr r pr'. unfold NextToken.
    destruct (startsBinary (aaToken pr)).
    - intros H. injection H as <- <-. split; reflexivity.
    - destruct (nextToken (data pr) (aaToken pr) (pos pr)) as [[[t e] q]| |];
        try discriminate.
      intros H. injection H as <- <-. split; reflexivity. }
  destruct (NextToken tk) as [[r1 tk1]| |] eqn:E1; try discriminate.
  destruct (NextToken tk1) as [[r2 tk2]| |] eqn:E2; try discriminate.
  intros H. injection H as <- _.
  destruct (H1 _ _ _ E1) as [-> Hn]. destruct (H1 _ _ _ E2) as [-> _].
  rewrite Hn. reflexivity.
Qed.

Lemma NextTokens_lookahead_witness :
  exists tk',
    NextTokens 2 tkAfter12 =
      Done ([(mkToken (bytes "Name") Name, None);
             (kindToken StartArray, None)], tk').
Proof.
  destruct (NextTokens 2 tkAfter12) as [[rs tk']| |] eqn:E;
    try (vm_compute in E; discriminate E).
  exists tk'. rewrite (NextTokens_lookahead tkAfter12 tk' rs E). reflexivity.
Defined.

Lemma NextToken_returns_witness :
  exists tk', NextToken tkAfter12 = Done (PeekToken tkAfter12, tk').
Proof.
  apply NextToken_returns.
  - vm_compute. discriminate.
  - discriminate.
Defined.

Lemma SetPosition_ordered_witness :
  exists tk', SetPosition 2 tkAfter12 = Done tk' /\ ordered tk'.
Proof.
  destruct (SetPosition 2 tkAfter12) as [tk'| |] eqn:E;
    try (vm_compute in E; discriminate E).
  exists tk'. split; [reflexivity|].
  apply (SetPosition_ordered 2 tkAfter12 tk').
  - vm_compute. split; intros H; discriminate H.
  - exact E.
  - vm_compute in E. injection E as <-. discriminate.
  - vm_compute in E. injection E as <-. discriminate.
Defined.

Lemma NextToken_ordered_witness :
  exists r tk', NextToken tkAfter12 = Done (r, tk') /\ ordered tk'.
Proof.
  destruct (NextToken tkAfter12) as [[r tk']| |] eqn:E;
    try (vm_compute in E; discriminate E).
  exists r, tk'. split; [reflexivity|].
  apply (NextToken_ordered tkAfter12 tk' r).
  - vm_compute. repeat split; intros H; discriminate H.
  - exact E.
  - vm_compute in E. injection E as _ <-. discriminate.
Defined.

(** ** More errors *)

Lemma hexEncode_length (upper : bool) (body : list byte) :
  List.length (hexEncode upper body) = (2 * List.length body)%nat.
Proof.
  induction body as [|b body IH]; [reflexivity|].
  cbn [hexEncode flat_map app List.length]. fold (hexEncode upper body).
  rewrite IH. lia.
Qed.

(** The scan of [<] and of the digits of [body], up to the byte after
    them. *)
Lemma hexString_enter (upper : bool) (pre body tail : list byte)
  (previous : Token) :
  (peekByte (hexEncode upper body ++ tail) == "<"%byte) = false ->
  let d := pre ++ "<"%byte :: hexEncode upper body ++ tail in
  exists fuel,
    nextToken d previous (offs pre) =
      bind (read d)
        (fun x => let (v1, ok1) := x in hexLoop d (S fuel) v1 ok1 body)
        (offs pre + 1 + 2 * offs body) /\
    suffixAt d (offs pre + 1 + 2 * offs body) tail.
Proof.
  intros Hnot d.
  pose proof (suffixAt_start pre ("<"%byte :: hexEncode upper body ++ tail))
    as Hs.
  fold d in Hs. set (p := offs pre) in *.
  assert (Hf : exists fuel, budget d = (List.length body + S fuel)%nat).
  { apply suffixAt_length in Hs. simpl List.length in Hs.
    rewrite length_app, hexEncode_length in Hs.
    exists (List.length d - List.length body)%nat. unfold budget. lia. }
  destruct Hf as (fuel & Hf). exists fuel.
  enter_at Hs.
  split.
  - transitivity
      (bind (read d)
         (fun x => let (v1, ok1) := x in hexLoop d (budget d) v1 ok1 [])
         (p + 1)).
    { rewrite !(bind_Done _ _ _ _ _ (read_peek _ _ _ Hs0)).
      rewrite Hnot. reflexivity. }
    rewrite Hf.
    exact (hexLoop_body d _ upper body [] (p + 1) (S fuel) Hs0).
  - apply suffixAt_app in Hs0.
    replace (p + 1 + 2 * offs body)
      with (p + 1 + offs (hexEncode upper body))
      by (unfold offs; rewrite hexEncode_length; lia).
    exact Hs0.
Qed.

(** X16: In a hexadecimal string, a byte in the place of the first digit of
    a pair that is no hexadecimal digit, no whitespace and no [>] is the
    error "invalid hex char", which carries the byte, with the zero
    token. *)
Theorem nextToken_hex_string_invalid (upper : bool)
  (pre body rest : list byte) (c : byte) (previous : Token) :
  snd (IsHexChar c) = false -> IsAsciiWhitespace c = false ->
  c <> ">"%byte -> c <> "<"%byte ->
  nextToken (pre ++ "<"%byte :: hexEncode upper body ++ c :: rest)
    previous (offs pre) =
    Done ((zeroToken, Some (ErrInvalidHexChar1 c)),
          offs pre + 1 + 2 * offs body + 1).
Proof.
  intros Hx Hw Hgt Hlt.
  assert (Hnot : (peekByte (hexEncode upper body ++ c :: rest) == "<"%byte)
                 = false).
  { destruct body as [|b body]; [exact (beq_neq _ _ Hlt)|].
    cbn [hexEncode flat_map app peekByte hd].
    exact (proj1 (proj2 (proj2 (proj2 (proj2 (hexDigit_pair upper b)))))). }
  destruct (hexString_enter upper pre body (c :: rest) previous Hnot)
    as (fuel & -> & Hs).
  destruct (read_cons _ _ _ _ Hs) as [Hread _].
  rewrite (bind_Done _ _ _ _ _ Hread). cbn [hexLoop].
  rewrite (bind_Done _ _ _ _ _ (skipWhitespace_nonws _ _ c true _ Hw)).
  rewrite (beq_neq _ _ Hgt).
  assert (Hc : IsHexChar c = (c, false)).
  { clear - Hx. destruct c; vm_compute in Hx; try discriminate Hx;
      reflexivity. }
  rewrite Hc. reflexivity.
Qed.

Lemma nextToken_hex_string_invalid_witness :
  nextToken (bytes "<4EG>") zeroToken 0 =
    Done ((zeroToken, Some (ErrInvalidHexChar1 "G")), 4).
Proof.
  apply (nextToken_hex_string_invalid true [] (bytes "N") (bytes ">") "G"%byte
           zeroToken); first [reflexivity | discriminate].
Defined.

(** X15: [RD] and [-|] need an Integer before them: after any other token,
    or at the start, they are the error "expected INTEGER before -| or
    RD", with the zero token, and the position is after the word. *)
Theorem nextToken_CharString_needs_Integer (pre cmd rest : list byte)
  (previous : Token) :
  cmd = bytes "RD" \/ cmd = bytes "-|" ->
  headIs isDelimiter rest ->
  Kind_ previous <> Integer ->
  nextToken (pre ++ cmd ++ rest) previous (offs pre) =
    Done ((zeroToken, Some ErrExpectedInteger), offs pre + 2).
Proof.
  intros Hcmd Hr Hk.
  assert (Hw : exists c x sign tail,
             cmd = [c; x] /\ opensWord c = true /\
             isDelimiter x = false /\ isCharStringCmd cmd = true /\
             (sign = [] \/ sign = ["+"%byte] \/ sign = ["-"%byte]) /\
             (forall l : list byte, cmd ++ l = sign ++ tail ++ l) /\
             (forall l : list byte, opensNoNumber sign (tail ++ l))).
  { destruct Hcmd as [-> | ->].
    - exists "R"%byte, "D"%byte, [], (bytes "RD").
      repeat split; try reflexivity; try discriminate.
      left. reflexivity.
    - exists "-"%byte, "|"%byte, ["-"%byte], ["|"%byte].
      repeat split; try reflexivity; try discriminate.
      right. right. reflexivity. }
  destruct Hw as (c & x & sign & tail & -> & Hc & Hx & Hcs & Hsign & Hsplit & Hno).
  pose proof (readNumber_declines pre sign (tail ++ rest) Hsign (Hno _)) as HD.
  rewrite <- Hsplit in HD.
  pose proof (suffixAt_start pre ([c; x] ++ rest)) as Hs.
  set (d := pre ++ [c; x] ++ rest) in *.
  set (p := offs pre) in *.
  cbn [app] in Hs.
  rewrite (nextToken_default d previous p c _ Hs Hc).
  rewrite (wordBranch_run d [x] rest c previous p Hs HD).
  - unfold wordToken. rewrite Hcs.
    destruct (Kind_eqb (Kind_ previous) Integer) eqn:E.
    + apply Kind_eqb_eq in E. contradiction.
    + unfold ret. apply Done_eq; [reflexivity|].
      unfold offs. simpl List.length. lia.
  - cbn [forallb]. rewrite Hx. reflexivity.
  - exact Hr.
Qed.

Lemma nextToken_CharString_needs_Integer_witness :
  nextToken (bytes "/a RD abc") (mkToken (bytes "a") Name) 3 =
    Done ((zeroToken, Some ErrExpectedInteger), 5).
Proof.
  apply (nextToken_CharString_needs_Integer (bytes "/a ") (bytes "RD")
           (bytes " abc") (mkToken (bytes "a") Name)).
  - left. reflexivity.
  - reflexivity.
  - discriminate.
Defined.

(** ** Every literal string *)

Lemma isOctal_inv (o : byte) :
  isOctal o = true ->
  o = "0"%byte \/ o = "1"%byte \/ o = "2"%byte \/ o = "3"%byte \/
  o = "4"%byte \/ o = "5"%byte \/ o = "6"%byte \/ o = "7"%byte.
Proof.
  destruct o; vm_compute; intros H; try discriminate H;
    repeat match goal with
           | |- _ \/ _ => first [left; reflexivity | right]
           end; reflexivity.
Qed.

(** An octal digit is none of the bytes that the escapes test first. *)
Lemma isOctal_tests (o : byte) :
  isOctal o = true ->
  (o == "n"%byte) = false /\ (o == "r"%byte) = false /\
  (o == "t"%byte) = false /\ (o == "b"%byte) = false /\
  (o == "f"%byte) = false /\ (o == "("%byte) = false /\
  (o == ")"%byte) = false /\ (o == "\"%byte) = false /\
  (o == CR) = false /\ (o == LF) = false.
Proof.
  destruct o; vm_compute; intros H; try discriminate H; repeat split.
Qed.

Lemma octal1_value (o1 : byte) :
  uint8 (code o1 - code "0") = octalByte [o1].
Proof. unfold octalByte. cbn [fold_left]. f_equal; lia. Qed.

Lemma octal2_value (o1 o2 : byte) :
  isOctal o1 = true -> isOctal o2 = true ->
  uint8 (Z.shiftl (code (uint8 (code o1 - code "0"))) 3 +
         code o2 - code "0") = octalByte [o1; o2].
Proof.
  intros H1 H2.
  destruct (isOctal_inv o1 H1) as [->|[->|[->|[->|[->|[->|[->| ->]]]]]]];
    destruct (isOctal_inv o2 H2) as [->|[->|[->|[->|[->|[->|[->| ->]]]]]]];
    reflexivity.
Qed.

Lemma octal3_value (o1 o2 o3 : byte) :
  isOctal o1 = true -> isOctal o2 = true -> isOctal o3 = true ->
  uint8 (Z.land
           (code (uint8 (Z.shiftl
                           (code (uint8 (Z.shiftl
                                           (code (uint8 (code o1 - code "0")))
                                           3 + code o2 - code "0")))
                           3 + code o3 - code "0"))) 255) =
    octalByte [o1; o2; o3].
Proof.
  intros H1 H2 H3.
  destruct (isOctal_inv o1 H1) as [->|[->|[->|[->|[->|[->|[->| ->]]]]]]];
    destruct (isOctal_inv o2 H2) as [->|[->|[->|[->|[->|[->|[->| ->]]]]]]];
    destruct (isOctal_inv o3 H3) as [->|[->|[->|[->|[->|[->|[->| ->]]]]]]];
    reflexivity.
Qed.

(** [read] before bytes of which the first is known to be there. *)
Lemma read_next (d : list byte) (p : Z) (after : list byte) :
  suffixAt d p after -> peekOk after = true ->
  read d p = Done ((peekByte after, true), p + 1).
Proof.
  intros Hs Hok. destruct after as [|c after]; [discriminate Hok|].
  exact (proj1 (read_cons _ _ _ _ Hs)).
Qed.

(** A backslash and a byte that is no line end and no octal digit. *)
Lemma readEscape_escaped (d : list byte) (p : Z) (c : byte)
  (tail : list byte) :
  suffixAt d p (c :: tail) ->
  (c == CR) = false -> (c == LF) = false -> isOctal c = false ->
  readEscape d p = Done ((unescape c, true, false), p + 1).
Proof.
  intros Hs H1 H2 H3. destruct (read_cons _ _ _ _ Hs) as [Hr _].
  unfold readEscape. rewrite (bind_Done _ _ _ _ _ Hr). unfold unescape.
  destruct (c == "n"%byte); [reflexivity|].
  destruct (c == "r"%byte); [reflexivity|].
  destruct (c == "t"%byte); [reflexivity|].
  destruct (c == "b"%byte); [reflexivity|].
  destruct (c == "f"%byte); [reflexivity|].
  destruct ((c == "("%byte) || (c == ")"%byte) || (c == "\"%byte));
    [reflexivity|].
  rewrite H1, H2, H3. reflexivity.
Qed.

(** A backslash and a line end: the line break is taken, nothing else. *)
Lemma readEscape_continued (d : list byte) (p : Z) (e : lineEnd)
  (after : list byte) :
  suffixAt d p (endBytes e ++ after) ->
  (e = EndCR -> peekOk after = true /\ (peekByte after == LF) = false) ->
  exists c ok,
    readEscape d p = Done ((c, ok, true), p + offs (endBytes e)).
Proof.
  intros Hs He. destruct e; cbn [endBytes app] in Hs;
    destruct (read_cons _ _ _ _ Hs) as [Hr Hs1];
    unfold readEscape; rewrite (bind_Done _ _ _ _ _ Hr); eval_beq;
    cbn [orb].
  - destruct (He eq_refl) as [Hok Hlf].
    rewrite (bind_Done _ _ _ _ _ (read_next _ _ _ Hs1 Hok)).
    rewrite Hlf. cbn [negb when]. unfold bind, unread, ret.
    eexists _, _. apply Done_eq; [reflexivity|].
    unfold offs. simpl List.length. lia.
  - destruct (read_cons _ _ _ _ Hs1) as [Hr1 _].
    rewrite (bind_Done _ _ _ _ _ Hr1). eval_beq. cbn [negb when].
    unfold bind, ret.
    eexists _, _. apply Done_eq; [reflexivity|].
    unfold offs. simpl List.length. lia.
  - unfold ret. eexists _, _. reflexivity.
Qed.

(** A backslash and octal digits. *)
Lemma readEscape_octal (d : list byte) (p : Z) (ds after : list byte) :
  octalOk ds after = true ->
  suffixAt d p (ds ++ after) ->
  readEscape d p = Done ((octalByte ds, true, false), p + offs ds).
Proof.
  intros Hok Hs.
  destruct ds as [|o1 [|o2 [|o3 [|o4 ds]]]]; try discriminate Hok;
    cbn [octalOk] in Hok; cbn [app] in Hs.
  - apply andb_true_iff in Hok as [H1 Hend].
    apply andb_true_iff in Hend as [Hnext Hno].
    destruct (read_cons _ _ _ _ Hs) as [Hr Hs1].
    destruct (isOctal_tests o1 H1)
      as (T1 & T2 & T3 & T4 & T5 & T6 & T7 & T8 & T9 & T10).
    unfold readEscape. rewrite (bind_Done _ _ _ _ _ Hr).
    rewrite T1, T2, T3, T4, T5, T6, T7, T8, T9, T10, H1. cbn [orb negb].
    rewrite (bind_Done _ _ _ _ _ (read_next _ _ _ Hs1 Hnext)).
    rewrite Hno. unfold bind, unread, ret.
    rewrite octal1_value. apply Done_eq; [reflexivity|].
    unfold offs. simpl List.length. lia.
  - apply andb_true_iff in Hok as [Hok Hend].
    apply andb_true_iff in Hok as [H1 H2].
    apply andb_true_iff in Hend as [Hnext Hno].
    destruct (read_cons _ _ _ _ Hs) as [Hr Hs1].
    destruct (read_cons _ _ _ _ Hs1) as [Hr1 Hs2].
    destruct (isOctal_tests o1 H1)
      as (T1 & T2 & T3 & T4 & T5 & T6 & T7 & T8 & T9 & T10).
    unfold readEscape. rewrite (bind_Done _ _ _ _ _ Hr).
    rewrite T1, T2, T3, T4, T5, T6, T7, T8, T9, T10, H1. cbn [orb negb].
    rewrite (bind_Done _ _ _ _ _ Hr1). rewrite H2. cbn [negb].
    rewrite (bind_Done _ _ _ _ _ (read_next _ _ _ Hs2 Hnext)).
    rewrite Hno. unfold bind, unread, ret.
    rewrite (octal2_value o1 o2 H1 H2). apply Done_eq; [reflexivity|].
    unfold offs. simpl List.length. lia.
  - apply andb_true_iff in Hok as [Hok H3].
    apply andb_true_iff in Hok as [H1 H2].
    destruct (read_cons _ _ _ _ Hs) as [Hr Hs1].
    destruct (read_cons _ _ _ _ Hs1) as [Hr1 Hs2].
    destruct (read_cons _ _ _ _ Hs2) as [Hr2 _].
    destruct (isOctal_tests o1 H1)
      as (T1 & T2 & T3 & T4 & T5 & T6 & T7 & T8 & T9 & T10).
    unfold readEscape. rewrite (bind_Done _ _ _ _ _ Hr).
    rewrite T1, T2, T3, T4, T5, T6, T7, T8, T9, T10, H1. cbn [orb negb].
    rewrite (bind_Done _ _ _ _ _ Hr1). rewrite H2. cbn [negb].
    rewrite (bind_Done _ _ _ _ _ Hr2). rewrite H3. cbn [negb].
    unfold ret. rewrite (octal3_value o1 o2 o3 H1 H2 H3).
    apply Done_eq; [reflexivity|].
    unfold offs. simpl List.length. lia.
Qed.

(** One turn of the loop of a literal string reads one item: the
    nesting follows the parentheses and the value of the item is
    appended. *)
Lemma stringLoop_item (d : list byte) (it : item) (after : list byte)
  (n n' : Z) (out : list byte) (p : Z) (f : nat) :
  stepItem n it after = Some n' -> 0 <= n ->
  suffixAt d p (encodeItem it ++ after) -> (1 <= f)%nat ->
  0 <= n' /\
  stringLoop d (S f) n out p =
    stringLoop d f n' (out ++ valueItem it) (p + offs (encodeItem it)).
Proof.
  intros Hstep Hn Hs Hf.
  assert (Hnot : (n =? -1) = false) by (apply Z.eqb_neq; lia).
  destruct it as [c|e|c|e|ds]; cbn [stepItem] in Hstep;
    cbn [encodeItem valueItem] in *.
  - (* a plain byte *)
    cbn [app] in Hs. destruct (read_cons _ _ _ _ Hs) as [Hr _].
    cbn [stringLoop]. rewrite (bind_Done _ _ _ _ _ Hr). cbn [negb].
    destruct (c == "("%byte).
    { injection Hstep as <-. split; [lia|].
      destruct (Z.eqb_spec (n + 1) (-1)) as [?|_]; [lia | reflexivity]. }
    destruct (c == ")"%byte).
    { destruct (Z.ltb_spec 0 n) as [Hlt|_]; [|discriminate Hstep].
      injection Hstep as <-. split; [lia|].
      destruct (Z.eqb_spec (n - 1) (-1)) as [?|_]; [lia | reflexivity]. }
    destruct (c == "\"%byte); [discriminate Hstep|].
    destruct (c == CR); [discriminate Hstep|].
    injection Hstep as <-. split; [exact Hn|]. rewrite Hnot. reflexivity.
  - (* a line end *)
    destruct e; cbn [endBytes app] in *;
      destruct (read_cons _ _ _ _ Hs) as [Hr Hs1];
      cbn [stringLoop]; rewrite (bind_Done _ _ _ _ _ Hr); cbn [negb];
      eval_beq.
    + destruct (peekByte after == LF) eqn:Hlf; [discriminate Hstep|].
      injection Hstep as <-. split; [exact Hn|].
      rewrite (bind_Done _ _ _ _ _ (read_peek _ _ _ Hs1)).
      destruct after as [|c2 after]; cbn [peekByte peekOk peekStep hd negb] in *.
      * destruct f as [|f]; [lia|]. cbn [stringLoop].
        replace (p + offs [CR]) with (p + 1)
          by (unfold offs; simpl List.length; lia).
        rewrite (bind_Done _ _ _ _ _ (read_nil _ _ Hs1)). cbn [negb].
        unfold stringEnd. cbn [negb]. unfold ret.
        apply Done_eq; [reflexivity | lia].
      * rewrite Hlf. cbn [negb]. unfold bind at 1, unread at 1.
        rewrite Hnot. f_equal. unfold offs. simpl List.length. lia.
    + injection Hstep as <-. split; [exact Hn|].
      destruct (read_cons _ _ _ _ Hs1) as [Hr1 _].
      rewrite (bind_Done _ _ _ _ _ Hr1). cbn [negb]. eval_beq. cbn [negb].
      rewrite Hnot. f_equal. unfold offs. simpl List.length. lia.
    + injection Hstep as <-. split; [exact Hn|].
      rewrite Hnot. reflexivity.
  - (* an escaped byte *)
    cbn [app] in Hs. destruct (read_cons _ _ _ _ Hs) as [Hr Hs1].
    destruct (c == CR) eqn:H1; [discriminate Hstep|].
    destruct (c == LF) eqn:H2; [discriminate Hstep|].
    destruct (isOctal c) eqn:H3; [discriminate Hstep|].
    injection Hstep as <-. split; [exact Hn|].
    cbn [stringLoop]. rewrite (bind_Done _ _ _ _ _ Hr). cbn [negb]. eval_beq.
    rewrite (bind_Done _ _ _ _ _ (readEscape_escaped d _ c after Hs1 H1 H2 H3)).
    cbn [negb]. rewrite Hnot. f_equal. unfold offs. simpl List.length. lia.
  - (* a line end after a backslash *)
    cbn [app] in Hs. destruct (read_cons _ _ _ _ Hs) as [Hr Hs1].
    assert (Hend : e = EndCR ->
                   peekOk after = true /\ (peekByte after == LF) = false).
    { intros ->. destruct (peekOk after); [|discriminate Hstep].
      destruct (peekByte after == LF); [discriminate Hstep|].
      split; reflexivity. }
    assert (n' = n) as ->.
    { destruct e; [|congruence|congruence].
      destruct (peekOk after && negb (peekByte after == LF));
        [congruence | discriminate Hstep]. }
    split; [exact Hn|].
    destruct (readEscape_continued d (p + 1) e after Hs1 Hend)
      as (c & ok & HE).
    cbn [stringLoop]. rewrite (bind_Done _ _ _ _ _ Hr). cbn [negb]. eval_beq.
    rewrite (bind_Done _ _ _ _ _ HE). rewrite app_nil_r.
    f_equal. unfold offs. simpl List.length. lia.
  - (* an octal escape *)
    cbn [app] in Hs. destruct (read_cons _ _ _ _ Hs) as [Hr Hs1].
    destruct (octalOk ds after) eqn:Hok; [|discriminate Hstep].
    injection Hstep as <-. split; [exact Hn|].
    cbn [stringLoop]. rewrite (bind_Done _ _ _ _ _ Hr). cbn [negb]. eval_beq.
    rewrite (bind_Done _ _ _ _ _ (readEscape_octal d (p + 1) ds after Hok Hs1)).
    cbn [negb]. rewrite Hnot. f_equal. unfold offs. simpl List.length. lia.
Qed.

Lemma encodeItems_cons (it : item) (its : list item) :
  encodeItems (it :: its) = encodeItem it ++ encodeItems its.
Proof. reflexivity. Qed.

Lemma valueOf_cons (it : item) (its : list item) :
  valueOf (it :: its) = valueItem it ++ valueOf its.
Proof. reflexivity. Qed.

Lemma encodeItems_app (a b : list item) :
  encodeItems (a ++ b) = encodeItems a ++ encodeItems b.
Proof. apply flat_map_app. Qed.

Lemma valueOf_app (a b : list item) :
  valueOf (a ++ b) = valueOf a ++ valueOf b.
Proof. apply flat_map_app. Qed.

(** The loop reads the items one by one. *)
Lemma stringLoop_items (d follow : list byte) (its : list item) :
  forall (n m : Z) (out : list byte) (p : Z) (fuel : nat),
    scanItems n its follow = Some m -> 0 <= n ->
    suffixAt d p (encodeItems its ++ follow) -> (1 <= fuel)%nat ->
    0 <= m /\
    stringLoop d (List.length its + fuel) n out p =
      stringLoop d fuel m (out ++ valueOf its) (p + offs (encodeItems its)).
Proof.
  induction its as [|it its IH]; intros n m out p fuel Hscan Hn Hs Hf.
  - simpl in Hscan. injection Hscan as <-. split; [exact Hn|].
    cbn. rewrite app_nil_r, Z.add_0_r. reflexivity.
  - cbn [scanItems] in Hscan.
    destruct (stepItem n it (encodeItems its ++ follow)) as [n'|] eqn:Hstep;
      [|discriminate Hscan].
    rewrite encodeItems_cons, <- app_assoc in Hs.
    destruct (stringLoop_item d it _ n n' out p (List.length its + fuel)
                Hstep Hn Hs ltac:(lia)) as [Hn' E].
    pose proof (suffixAt_app _ _ _ _ Hs) as Hs'.
    destruct (IH n' m (out ++ valueItem it) (p + offs (encodeItem it)) fuel
                Hscan Hn' Hs' Hf) as [Hm E'].
    split; [exact Hm|].
    cbn [List.length Nat.add]. rewrite E, E'.
    rewrite encodeItems_cons, valueOf_cons, <- app_assoc.
    f_equal. unfold offs. rewrite length_app. lia.
Qed.

Lemma encodeItems_length (its : list item) :
  (List.length its <= List.length (encodeItems its))%nat.
Proof.
  induction its as [|it its IH]; [reflexivity|].
  rewrite encodeItems_cons, length_app. simpl List.length.
  assert (1 <= List.length (encodeItem it))%nat
    by (destruct it as [c|[]|c|e|ds]; simpl; lia).
  lia.
Qed.

(** The scan of [(] and of the items [its], up to the bytes [follow]. *)
Lemma string_enter (pre follow : list byte) (its : list item)
  (previous : Token) (m : Z) :
  scanItems 0 its follow = Some m ->
  let d := pre ++ "("%byte :: encodeItems its ++ follow in
  exists fuel,
    (List.length follow <= fuel)%nat /\
    nextToken d previous (offs pre) =
      stringLoop d (S fuel) m (valueOf its)
        (offs pre + 1 + offs (encodeItems its)) /\
    suffixAt d (offs pre + 1 + offs (encodeItems its)) follow /\ 0 <= m.
Proof.
  intros Hscan d.
  pose proof (suffixAt_start pre ("("%byte :: encodeItems its ++ follow)) as Hs.
  fold d in Hs. set (p := offs pre) in *.
  assert (Hlen : (List.length its + List.length follow + 1 <=
                  List.length d)%nat).
  { apply suffixAt_length in Hs. simpl List.length in Hs.
    rewrite length_app in Hs. pose proof (encodeItems_length its). lia. }
  exists (List.length d - List.length its)%nat.
  split; [lia|].
  enter_at Hs.
  replace (budget d)
    with (List.length its + S (List.length d - List.length its))%nat
    by (unfold budget; lia).
  destruct (stringLoop_items d follow its 0 m [] (p + 1)
              (S (List.length d - List.length its)) Hscan ltac:(lia) Hs0
              ltac:(lia)) as [Hm E].
  rewrite E. cbn [app].
  split; [reflexivity|]. split; [exact (suffixAt_app _ _ _ _ Hs0) | exact Hm].
Qed.

(** A literal string, whatever it holds: the String token has the values
    of the items between the parentheses, one after the other, and the
    position is after the closing parenthesis. *)
Lemma nextToken_literal_string (pre : list byte) (its : list item)
  (rest : list byte) (previous : Token) :
  scanItems 0 its (")"%byte :: rest) = Some 0 ->
  nextToken (pre ++ "("%byte :: encodeItems its ++ ")"%byte :: rest)
    previous (offs pre) =
    Done ((mkToken (valueOf its) String, None),
          offs pre + 1 + offs (encodeItems its) + 1).
Proof.
  intros Hscan.
  destruct (string_enter pre (")"%byte :: rest) its previous 0 Hscan)
    as (fuel & _ & -> & Hs & _).
  destruct (read_cons _ _ _ _ Hs) as [Hr _].
  cbn [stringLoop]. rewrite (bind_Done _ _ _ _ _ Hr). cbn [negb]. eval_beq.
  reflexivity.
Qed.

(** C8: in a literal string, a line end that no backslash precedes (a
    bare CR, or CR LF; LF alone as well) gives exactly one LF to the
    value of the String token that [nextToken] returns.  The string may
    hold anything before and after the line end: plain bytes, nested
    parentheses, other line ends, escapes of every kind.  Its value is
    the value of what is before, one LF, and the value of what is after,
    where every other line end gives one LF in turn. *)
Theorem C8_line_end_gives_one_LF (pre : list byte) (before after : list item)
  (e : lineEnd) (rest : list byte) (previous : Token) :
  scanItems 0 (before ++ LineEnd e :: after) (")"%byte :: rest) = Some 0 ->
  nextToken
    (pre ++ "("%byte :: encodeItems before ++ endBytes e ++
     encodeItems after ++ ")"%byte :: rest) previous (offs pre) =
    Done ((mkToken (valueOf before ++ LF :: valueOf after) String, None),
          offs pre + 1 + offs (encodeItems before) + offs (endBytes e) +
          offs (encodeItems after) + 1).
Proof.
  intros Hscan.
  pose proof (nextToken_literal_string pre (before ++ LineEnd e :: after)
                rest previous Hscan) as H.
  rewrite encodeItems_app, encodeItems_cons, valueOf_app, valueOf_cons in H.
  cbn [encodeItem valueItem app] in H.
  rewrite <- !app_assoc in H. rewrite H.
  apply Done_eq; [reflexivity|].
  unfold offs. rewrite !length_app. lia.
Qed.

Lemma C8_line_end_gives_one_LF_witness :
  nextToken (bytes "[(a\(" ++ [CR] ++ bytes "b\101" ++ [CR; LF] ++ bytes "c)]")
    zeroToken 1 =
    Done ((mkToken (bytes "a(" ++ [LF] ++ bytes "bA" ++ [LF] ++ bytes "c")
             String, None), 15) /\
  nextToken (bytes "(" ++ [CR; LF] ++ bytes ")") zeroToken 0 =
    Done ((mkToken [LF] String, None), 4).
Proof.
  split.
  - apply (C8_line_end_gives_one_LF (bytes "[")
             [Plain "a"; Escaped "("]
             [Plain "b"; Octal (bytes "101"); LineEnd EndCRLF; Plain "c"]
             EndCR (bytes "]") zeroToken).
    reflexivity.
  - apply (C8_line_end_gives_one_LF [] [] [] EndCRLF [] zeroToken).
    reflexivity.
Defined.

Lemma shaped_nil (n : Z) : shaped n [].
Proof.
  exists [], [], n. repeat split. right. exists 0. reflexivity.
Qed.

Lemma shaped_end (n : Z) (tl : list byte) (back : Z) :
  unclosedEnd tl = Some back -> shaped n tl.
Proof.
  intros H. exists [], tl, n. repeat split. right. exists back. exact H.
Qed.

Lemma shaped_cons (it : item) (suffix : list byte) (n n' : Z) :
  stepItem n it suffix = Some n' -> shaped n' suffix ->
  shaped n (encodeItem it ++ suffix).
Proof.
  intros Hstep (its & tl & m & E & Hs & HQ). exists (it :: its), tl, m.
  split; [rewrite encodeItems_cons, <- app_assoc, <- E; reflexivity|].
  split; [|exact HQ]. cbn [scanItems]. rewrite <- E, Hstep. exact Hs.
Qed.

(** Whatever follows [(] is of this shape: items, and then the closing
    parenthesis or the end of the data.  So the two theorems on literal
    strings, the closed and the unclosed, leave no input out. *)
Lemma string_shapes (k : nat) :
  forall (body : list byte) (n : Z),
    (List.length body <= k)%nat -> 0 <= n -> shaped n body.
Proof.
  induction k as [|k IH]; intros body n Hlen Hn.
  - destruct body; [apply shaped_nil | simpl in Hlen; lia].
  - destruct body as [|c body1]; [apply shaped_nil|]. simpl in Hlen.
    destruct (c == "("%byte) eqn:E1.
    { apply (shaped_cons (Plain c) body1 n (n + 1));
        [cbn; rewrite E1; reflexivity | apply IH; lia]. }
    destruct (c == ")"%byte) eqn:E2.
    { destruct (Z.ltb_spec 0 n) as [Hlt|Hge].
      - apply (shaped_cons (Plain c) body1 n (n - 1)); [|apply IH; lia].
        cbn. rewrite E1, E2.
        destruct (Z.ltb_spec 0 n); [reflexivity | lia].
      - exists [], (c :: body1), n. repeat split. left.
        split; [lia|]. exists body1. rewrite (beq_true _ _ E2). reflexivity. }
    destruct (c == "\"%byte) eqn:E3.
    { apply beq_true in E3. subst c.
      destruct body1 as [|c1 body2];
        [apply (shaped_end n _ 0); reflexivity|].
      simpl in Hlen.
      destruct (c1 == CR) eqn:F1.
      { apply beq_true in F1. subst c1.
        destruct body2 as [|c2 body3];
          [apply (shaped_end n _ 0); reflexivity|].
        simpl in Hlen.
        destruct (c2 == LF) eqn:F2.
        - apply beq_true in F2. subst c2.
          apply (shaped_cons (Continued EndCRLF) body3 n n);
            [reflexivity | apply IH; lia].
        - apply (shaped_cons (Continued EndCR) (c2 :: body3) n n);
            [cbn; rewrite F2; reflexivity | apply IH; simpl; lia]. }
      destruct (c1 == LF) eqn:F3.
      { apply beq_true in F3. subst c1.
        apply (shaped_cons (Continued EndLF) body2 n n);
          [reflexivity | apply IH; lia]. }
      destruct (isOctal c1) eqn:O1.
      - destruct body2 as [|c2 body3].
        { apply (shaped_end n _ 1). cbn [unclosedEnd].
          change ("\"%byte == "\"%byte) with true. cbv iota.
          rewrite F1, O1. reflexivity. }
        simpl in Hlen.
        destruct (isOctal c2) eqn:O2.
        + destruct body3 as [|c3 body4].
          { apply (shaped_end n _ 1). cbn [unclosedEnd].
            change ("\"%byte == "\"%byte) with true.
            rewrite O1, O2. reflexivity. }
          simpl in Hlen.
          destruct (isOctal c3) eqn:O3.
          * apply (shaped_cons (Octal [c1; c2; c3]) body4 n n);
              [cbn; rewrite O1, O2, O3; reflexivity | apply IH; lia].
          * apply (shaped_cons (Octal [c1; c2]) (c3 :: body4) n n);
              [cbn; rewrite O1, O2, O3; reflexivity | apply IH; simpl; lia].
        + apply (shaped_cons (Octal [c1]) (c2 :: body3) n n);
            [cbn; rewrite O1, O2; reflexivity | apply IH; simpl; lia].
      - apply (shaped_cons (Escaped c1) body2 n n);
          [cbn; rewrite F1, F3, O1; reflexivity | apply IH; lia]. }
    destruct (c == CR) eqn:E4.
    { apply beq_true in E4. subst c.
      destruct body1 as [|c2 body2].
      - apply (shaped_cons (LineEnd EndCR) [] n n);
          [reflexivity | apply shaped_nil].
      - simpl in Hlen. destruct (c2 == LF) eqn:F.
        + apply beq_true in F. subst c2.
          apply (shaped_cons (LineEnd EndCRLF) body2 n n);
            [reflexivity | apply IH; lia].
        + apply (shaped_cons (LineEnd EndCR) (c2 :: body2) n n);
            [cbn; rewrite F; reflexivity | apply IH; simpl; lia]. }
    apply (shaped_cons (Plain c) body1 n n); [|apply IH; lia].
    cbn. rewrite E1, E2, E3, E4. reflexivity.
Qed.

(** The escapes that the end of the data cuts short. *)
Lemma readEscape_cut (d : list byte) (p : Z) (frag : list byte) (back : Z) :
  unclosedEnd ("\"%byte :: frag) = Some back ->
  suffixAt d p frag ->
  exists (c : byte) (lineBreak : bool),
    readEscape d p =
      Done ((c, false, lineBreak),
            p + offs frag - (if lineBreak then 1 else back)).
Proof.
  intros Hend Hs.
  destruct frag as [|c [|c2 [|c3 frag]]]; cbn [unclosedEnd] in Hend;
    change ("\"%byte == "\"%byte) with true in Hend; cbv iota in Hend;
    cbn [andb] in Hend; try discriminate Hend.
  - injection Hend as <-. unfold readEscape.
    rewrite (bind_Done _ _ _ _ _ (read_nil _ _ Hs)). eval_beq. cbn [orb].
    change (isOctal x00) with false. cbn [negb]. unfold ret.
    eexists _, _. apply Done_eq; [reflexivity|].
    unfold offs. simpl List.length. lia.
  - destruct (read_cons _ _ _ _ Hs) as [Hr Hs1].
    destruct (c == CR) eqn:Ec.
    + apply beq_true in Ec. subst c. unfold readEscape.
      rewrite (bind_Done _ _ _ _ _ Hr). eval_beq. cbn [orb].
      rewrite (bind_Done _ _ _ _ _ (read_nil _ _ Hs1)). eval_beq.
      cbn [negb when]. unfold bind, unread, ret.
      eexists _, _. apply Done_eq; [reflexivity|].
      unfold offs. simpl List.length. lia.
    + destruct (isOctal c) eqn:Eo; [|discriminate Hend].
      injection Hend as <-.
      destruct (isOctal_tests c Eo)
        as (T1 & T2 & T3 & T4 & T5 & T6 & T7 & T8 & T9 & T10).
      unfold readEscape. rewrite (bind_Done _ _ _ _ _ Hr).
      rewrite T1, T2, T3, T4, T5, T6, T7, T8, T9, T10, Eo. cbn [orb negb].
      rewrite (bind_Done _ _ _ _ _ (read_nil _ _ Hs1)).
      change (isOctal x00) with false. cbn [negb]. unfold bind, unread, ret.
      eexists _, _. apply Done_eq; [reflexivity|].
      unfold offs. simpl List.length. lia.
  - destruct (isOctal c) eqn:Eo; [|discriminate Hend].
    destruct (isOctal c2) eqn:Eo2; [|discriminate Hend].
    injection Hend as <-.
    destruct (read_cons _ _ _ _ Hs) as [Hr Hs1].
    destruct (read_cons _ _ _ _ Hs1) as [Hr1 Hs2].
    destruct (isOctal_tests c Eo)
      as (T1 & T2 & T3 & T4 & T5 & T6 & T7 & T8 & T9 & T10).
    unfold readEscape. rewrite (bind_Done _ _ _ _ _ Hr).
    rewrite T1, T2, T3, T4, T5, T6, T7, T8, T9, T10, Eo. cbn [orb negb].
    rewrite (bind_Done _ _ _ _ _ Hr1). rewrite Eo2. cbn [negb].
    rewrite (bind_Done _ _ _ _ _ (read_nil _ _ Hs2)).
    change (isOctal x00) with false. cbn [negb]. unfold bind, unread, ret.
    eexists _, _. apply Done_eq; [reflexivity|].
    unfold offs. simpl List.length. lia.
Qed.

(** X10: A literal string that the data ends before it is closed is the
    error "error reading string: unexpected EOF", with the zero token,
    whatever the string holds.  The data may end after whole items, after
    a backslash, after a backslash and CR, or inside an octal escape; the
    position is the end of the data, but for the octal escape, where it
    is one byte before the end. *)
Theorem nextToken_string_unclosed (pre : list byte) (its : list item)
  (frag : list byte) (previous : Token) (m back : Z) :
  scanItems 0 its frag = Some m ->
  unclosedEnd frag = Some back ->
  nextToken (pre ++ "("%byte :: encodeItems its ++ frag) previous (offs pre) =
    Done ((zeroToken, Some ErrStringEOF),
          offs pre + 1 + offs (encodeItems its) + offs frag - back).
Proof.
  intros Hscan Hend.
  destruct (string_enter pre frag its previous m Hscan)
    as (fuel & Hfuel & -> & Hs & Hm).
  set (d := pre ++ "("%byte :: encodeItems its ++ frag) in *.
  set (q := offs pre + 1 + offs (encodeItems its)) in *.
  set (out := valueOf its) in *.
  destruct frag as [|b frag].
  - (* the data ends after whole items *)
    injection Hend as <-. cbn [stringLoop].
    rewrite (bind_Done _ _ _ _ _ (read_nil _ _ Hs)).
    apply Done_eq; [reflexivity | unfold offs; simpl List.length; lia].
  - (* the data ends inside an escape *)
    assert (b = "\"%byte) as ->.
    { destruct frag as [|c [|c2 [|c3 frag]]]; cbn [unclosedEnd] in Hend;
        try discriminate Hend;
        (destruct (b == "\"%byte) eqn:Eb;
         [exact (beq_true _ _ Eb) | discriminate Hend]). }
    destruct (read_cons _ _ _ _ Hs) as [Hr Hs1].
    destruct (readEscape_cut d (q + 1) frag back Hend Hs1)
      as (c & lineBreak & HE).
    cbn [stringLoop]. rewrite (bind_Done _ _ _ _ _ Hr). cbn [negb]. eval_beq.
    rewrite (bind_Done _ _ _ _ _ HE).
    destruct lineBreak.
    + (* a backslash and CR: the CR is read again, and nothing follows *)
      assert (frag = [CR] /\ back = 0) as [-> ->].
      { clear - HE Hend Hs1.
        destruct frag as [|c1 [|c2 [|c3 frag]]]; cbn [unclosedEnd] in Hend;
          change ("\"%byte == "\"%byte) with true in Hend; cbv iota in Hend;
          cbn [andb] in Hend; try discriminate Hend.
        - exfalso. unfold readEscape in HE.
          rewrite (bind_Done _ _ _ _ _ (read_nil _ _ Hs1)) in HE.
          vm_compute in HE. discriminate HE.
        - destruct (c1 == CR) eqn:Ec.
          + apply beq_true in Ec. subst c1. injection Hend as <-.
            split; reflexivity.
          + exfalso. destruct (isOctal c1) eqn:Eo; [|discriminate Hend].
            destruct (read_cons _ _ _ _ Hs1) as [Hr Hs2].
            destruct (isOctal_tests c1 Eo)
              as (T1 & T2 & T3 & T4 & T5 & T6 & T7 & T8 & T9 & T10).
            unfold readEscape in HE. rewrite (bind_Done _ _ _ _ _ Hr) in HE.
            rewrite T1, T2, T3, T4, T5, T6, T7, T8, T9, T10, Eo in HE.
            cbn [orb negb] in HE.
            rewrite (bind_Done _ _ _ _ _ (read_nil _ _ Hs2)) in HE.
            change (isOctal x00) with false in HE. cbn [negb] in HE.
            unfold bind, unread, ret in HE. discriminate HE.
        - exfalso. destruct (isOctal c1) eqn:Eo; [|discriminate Hend].
          destruct (isOctal c2) eqn:Eo2; [|discriminate Hend].
          destruct (read_cons _ _ _ _ Hs1) as [Hr Hs2].
          destruct (read_cons _ _ _ _ Hs2) as [Hr1 Hs3].
          destruct (isOctal_tests c1 Eo)
            as (T1 & T2 & T3 & T4 & T5 & T6 & T7 & T8 & T9 & T10).
          unfold readEscape in HE. rewrite (bind_Done _ _ _ _ _ Hr) in HE.
          rewrite T1, T2, T3, T4, T5, T6, T7, T8, T9, T10, Eo in HE.
          cbn [orb negb] in HE.
          rewrite (bind_Done _ _ _ _ _ Hr1) in HE. rewrite Eo2 in HE.
          cbn [negb] in HE.
          rewrite (bind_Done _ _ _ _ _ (read_nil _ _ Hs3)) in HE.
          change (isOctal x00) with false in HE. cbn [negb] in HE.
          unfold bind, unread, ret in HE. discriminate HE. }
      destruct fuel as [|fuel]; [simpl in Hfuel; lia|].
      destruct (read_cons _ _ _ _ Hs1) as [Hr1 Hs2].
      replace (q + 1 + offs [CR] - 1) with (q + 1)
        by (unfold offs; simpl List.length; lia).
      cbn [stringLoop]. rewrite (bind_Done _ _ _ _ _ Hr1). cbn [negb].
      eval_beq.
      rewrite (bind_Done _ _ _ _ _ (read_nil _ _ Hs2)).
      apply Done_eq; [reflexivity | unfold offs; simpl List.length; lia].
    + cbn [negb]. unfold stringEnd. cbn [negb]. unfold ret.
      apply Done_eq; [reflexivity | unfold offs; simpl List.length; lia].
Qed.

Lemma nextToken_string_unclosed_witness :
  nextToken (bytes "[(a (b" ++ [CR]) zeroToken 1 =
    Done ((zeroToken, Some ErrStringEOF), 7) /\
  nextToken (bytes "(\1") zeroToken 0 =
    Done ((zeroToken, Some ErrStringEOF), 2).
Proof.
  split.
  - apply (nextToken_string_unclosed (bytes "[")
             [Plain "a"; Plain " "; Plain "("; Plain "b"; LineEnd EndCR] []
             zeroToken 1 0); reflexivity.
  - apply (nextToken_string_unclosed [] [] (bytes "\1") zeroToken 0 1);
      reflexivity.
Defined.
